(** * EthanLauncher: mod dependency resolution and event-modifier merge

    A shallow embedding of the core of [src/scr/mainWindow.py]:

    - [_parse_mod_kv] and the [dependencies] branch of [load_mods]
      (manifest parsing),
    - [_resolve_event_modifiers_load_order] (Kahn topological sort with an
      alphabetical fallback),
    - [_parse_event_modifiers_content] (brace-aware [key=value] parser),
    - [_merge_event_modifiers_from_paths] (last-writer-wins merge).

    Python values are modelled as follows.  A [str] is the list of its
    Unicode code points; a [dict] is a [gmap]; a [list] or [deque] is a
    [list]; an [int] is a [Z].  A Python exception that would leave the
    function is the [Raise] outcome, so that "raises no error" is a
    statement about the model and not a convention. *)

From Stdlib Require Import ZArith NArith Lia.
From Stdlib Require Import Sorting.Sorted.
From Stdlib Require Import Strings.Ascii.
From stdpp Require Import base option list strings gmap sorting.

Set Default Proof Using "Type".
Open Scope Z_scope.

(** ** Python strings *)

(** A character is its code point. *)
Definition char := N.
Definition str := list char.

(** [py "abc"] is the Python literal ["abc"] (for ASCII text). *)
Definition py (s : String.string) : str :=
  map Ascii.N_of_ascii (String.list_ascii_of_string s).
Arguments py s%_string.

Definition LF : char := 10%N.
Definition HASH : char := 35%N.
Definition DQUOTE : char := 34%N.
Definition COMMA : char := 44%N.
Definition EQUALS : char := 61%N.
Definition LBRACE : char := 123%N.
Definition RBRACE : char := 125%N.

(** [str.isspace] on one character: the code points CPython's
    [_PyUnicode_IsWhitespace] accepts. *)
Definition is_space (c : char) : bool :=
  ((9 <=? c) && (c <=? 13) || (28 <=? c) && (c <=? 32)
   || (c =? 133) || (c =? 160) || (c =? 5760)
   || (8192 <=? c) && (c <=? 8202)
   || (c =? 8232) || (c =? 8233) || (c =? 8239) || (c =? 8287)
   || (c =? 12288))%N.

(** Membership of a character in the argument of [s.strip(chars)]. *)
Definition char_in (chars : str) (c : char) : bool :=
  bool_decide (c ∈ chars).

Fixpoint lstrip_by (p : char → bool) (s : str) : str :=
  match s with
  | c :: s' => if p c then lstrip_by p s' else s
  | [] => []
  end.

Definition rstrip_by (p : char → bool) (s : str) : str :=
  reverse (lstrip_by p (reverse s)).

Definition strip_by (p : char → bool) (s : str) : str :=
  rstrip_by p (lstrip_by p s).

(** [s.strip()] *)
Definition strip (s : str) : str := strip_by is_space s.

(** [s.strip(chars)] *)
Definition strip_chars (chars s : str) : str := strip_by (char_in chars) s.

(** [s.startswith(p)] *)
Fixpoint startswith (s p : str) : bool :=
  match p, s with
  | [], _ => true
  | c :: p', d :: s' => (c =? d)%N && startswith s' p'
  | _ :: _, [] => false
  end.

(** [s.endswith(p)] *)
Definition endswith (s p : str) : bool := startswith (reverse s) (reverse p).

(** [c in s] for a one-character [c]. *)
Definition contains (c : char) (s : str) : bool := bool_decide (c ∈ s).

(** [s.count(c)] for a one-character [c]. *)
Fixpoint count (c : char) (s : str) : Z :=
  match s with
  | d :: s' => (if (c =? d)%N then 1 else 0) + count c s'
  | [] => 0
  end.

(** [s.split(c, 1)] for a one-character [c] known to occur in [s]: the text
    before the first [c] and the text after it. *)
Fixpoint split_once (c : char) (s : str) : str * str :=
  match s with
  | d :: s' =>
      if (c =? d)%N then ([], s')
      else let '(a, b) := split_once c s' in (d :: a, b)
  | [] => ([], [])
  end.

(** [s.split(c)] for a one-character [c]; never the empty list. *)
Fixpoint split (c : char) (s : str) : list str :=
  match s with
  | d :: s' =>
      if (c =? d)%N then [] :: split c s'
      else match split c s' with
           | piece :: rest => (d :: piece) :: rest
           | [] => [[d]]
           end
  | [] => [[]]
  end.

(** The line boundaries of [str.splitlines]. *)
Definition is_linebreak (c : char) : bool :=
  ((10 <=? c) && (c <=? 13) || (28 <=? c) && (c <=? 30)
   || (c =? 133) || (c =? 8232) || (c =? 8233))%N.

(** [s.splitlines()]: lines without their terminators, ["\r\n"] being one
    terminator, and no empty last line after a final terminator. *)
Fixpoint splitlines (s : str) : list str :=
  match s with
  | [] => []
  | c :: s' =>
      if is_linebreak c then
        match s' with
        | d :: s'' =>
            if (c =? 13)%N && (d =? 10)%N then
              (* the pair is consumed by the line that starts at [d] *)
              match splitlines s' with
              | _ :: rest => [] :: rest
              | [] => [[]]
              end
            else [] :: splitlines s'
        | [] => [[]]
        end
      else
        match s' with
        | [] => [[c]]
        | _ :: _ =>
            match splitlines s' with
            | line :: rest => (c :: line) :: rest
            | [] => [[c]]
            end
        end
  end.

(** ** Outcomes of a Python function *)

Inductive exn : Type :=
| KeyError (key : str).

(** [Return a]: the function returns [a].  [Raise e]: the exception [e]
    leaves the function.  [OutOfFuel]: the bound the model puts on a [while]
    loop was reached; the termination lemmas show that this never happens. *)
Inductive outcome (A : Type) : Type :=
| Return (a : A)
| Raise (e : exn)
| OutOfFuel.
Arguments Return {A} a.
Arguments Raise {A} e.
Arguments OutOfFuel {A}.

#[global] Instance outcome_ret : MRet outcome := λ A a, Return a.
#[global] Instance outcome_bind : MBind outcome := λ A B f m,
  match m with
  | Return a => f a
  | Raise e => Raise e
  | OutOfFuel => OutOfFuel
  end.

(** [d[k]] on a dict. *)
Definition getitem {V : Type} (d : gmap str V) (k : str) : outcome V :=
  match d !! k with
  | Some v => Return v
  | None => Raise (KeyError k)
  end.

(** [for x in l: s = body(s, x)] *)
Fixpoint for_each {S A : Type} (body : S → A → outcome S) (s : S)
    (l : list A) : outcome S :=
  match l with
  | [] => Return s
  | x :: l' => s' ← body s x; for_each body s' l'
  end.

(** [while cond(s): s = body(s)], cut after [fuel] iterations. *)
Fixpoint while_loop {S : Type} (fuel : nat) (cond : S → bool)
    (body : S → outcome S) (s : S) : outcome S :=
  if cond s then
    match fuel with
    | O => OutOfFuel
    | Datatypes.S fuel' => s' ← body s; while_loop fuel' cond body s'
    end
  else Return s.

(** ** Manifest parsing ([load_mods]) *)

(** [_parse_mod_kv(line)]: [None] for a blank line, a comment or a line
    without ["="]. *)
Definition _parse_mod_kv (line : str) : option (str * str) :=
  let s := strip line in
  if bool_decide (s = []) || startswith s (py "#") || startswith s (py "//")
  then None
  else if negb (contains EQUALS s) then None
  else
    let '(key, value) := split_once EQUALS s in
    let key := strip key in
    let value := strip value in
    let value :=
      if startswith value [DQUOTE] && endswith value [DQUOTE]
         && bool_decide (2 ≤ length value)%nat
      then removelast (tail value)          (* value[1:-1] *)
      else value in
    Some (key, value).

(** The value of a [dependencies] line turned into a list of names:
    [deps_str = value.strip().strip("{}")], then for each [dep] of
    [deps_str.split(",")] with a non-empty [dep.strip()], the text
    [dep.strip()] with its leading and trailing double quotes stripped. *)
Definition parse_dependencies (value : str) : list str :=
  let deps_str := strip_chars (py "{}") (strip value) in
  map (λ dep, strip_chars [DQUOTE] (strip dep))
      (filter (λ dep, strip dep ≠ []) (split COMMA deps_str)).

(** The local variables of the manifest loop of [load_mods]. *)
Record manifest : Type := Manifest {
  name : str;
  dependencies : list str;
  user_dir : str;
  github : str;
  version : str;
  mod_path : str
}.

Definition empty_manifest : manifest := Manifest [] [] [] [] [] [].

(** One turn of [for line in content.split('\n')]. *)
Definition manifest_line (m : manifest) (line : str) : manifest :=
  match _parse_mod_kv line with
  | None => m
  | Some (key, value) =>
      if bool_decide (key = py "name") then
        Manifest value (dependencies m) (user_dir m) (github m) (version m) (mod_path m)
      else if bool_decide (key = py "dependencies") then
        Manifest (name m) (parse_dependencies value) (user_dir m) (github m) (version m) (mod_path m)
      else if bool_decide (key = py "path") then
        Manifest (name m) (dependencies m) (user_dir m) (github m) (version m) value
      else if bool_decide (key = py "user_dir") then
        Manifest (name m) (dependencies m) value (github m) (version m) (mod_path m)
      else if bool_decide (key = py "github") then
        Manifest (name m) (dependencies m) (user_dir m) value (version m) (mod_path m)
      else if bool_decide (key = py "version") then
        Manifest (name m) (dependencies m) (user_dir m) (github m) value (mod_path m)
      else m
  end.

(** The manifest loop on the text of one [.mod] file. *)
Definition parse_manifest (content : str) : manifest :=
  foldl manifest_line empty_manifest (split LF content).

(** ** The conflict-file parser ([_parse_event_modifiers_content]) *)

(** The loop variables of the parser: the line index [i] and [pairs]. *)
Record parser_state : Type := ParserState {
  ps_i : nat;
  ps_pairs : list (str * str)
}.

(** The inner loop
    [while depth > 0 and i + 1 < len(lines): i += 1; next_line = lines[i]; ...]
    where [rest] is [lines[i+1:]]; it returns the final [i], [value] and
    [depth]. *)
Fixpoint read_block (rest : list str) (i : nat) (value : str) (depth : Z)
    : nat * str * Z :=
  match rest with
  | next_line :: rest' =>
      if 0 <? depth then
        read_block rest' (S i) (value ++ LF :: next_line)
                   (depth + (count LBRACE next_line - count RBRACE next_line))
      else (i, value, depth)
  | [] => (i, value, depth)
  end.

(** The body of [while i < len(lines)], entered with [lines[i] = line]. *)
Definition parse_line (lines : list str) (line : str) (st : parser_state)
    : parser_state :=
  let i := ps_i st in
  let s := strip line in
  if bool_decide (s = []) || startswith s (py "#") then
    ParserState (i + 1) (ps_pairs st)
  else if negb (contains EQUALS s) then
    ParserState (i + 1) (ps_pairs st)
  else
    let '(key, value) := split_once EQUALS s in
    let key := strip key in
    let value := strip value in
    let '(i, value) :=
      if contains LBRACE value then
        let depth := count LBRACE value - count RBRACE value in
        let '(i, value, _) := read_block (drop (i + 1) lines) i value depth in
        (i, strip value)
      else (i, value) in
    ParserState (i + 1) (ps_pairs st ++ [(key, value)]).

Definition parse_body (lines : list str) (st : parser_state)
    : outcome parser_state :=
  match lines !! ps_i st with
  | Some line => Return (parse_line lines line st)
  | None => Return st     (* not entered: the loop test is false *)
  end.

Definition _parse_event_modifiers_content (content : str)
    : outcome (list (str * str)) :=
  let lines := splitlines content in
  st ← while_loop (length lines)
         (λ st, bool_decide (ps_i st < length lines)%nat)
         (parse_body lines) (ParserState 0 []);
  Return (ps_pairs st).

(** ** The load-order resolver ([_resolve_event_modifiers_load_order]) *)

(** Comparison of two [str], as Python's [<=]: by code point, a proper
    prefix being smaller. *)
Fixpoint str_leb (a b : str) : bool :=
  match a, b with
  | [], _ => true
  | _ :: _, [] => false
  | c :: a', d :: b' => (c <? d)%N || ((c =? d)%N && str_leb a' b')
  end.

Definition str_le (a b : str) : Prop := str_leb a b = true.

#[global] Instance str_le_dec (a b : str) : Decision (str_le a b).
Proof. unfold str_le. apply _. Defined.

(** [sorted(l)] on a list of [str]. *)
Definition sorted (l : list str) : list str := merge_sort str_le l.

(** The loop variables of the [while queue] loop. *)
Record kahn_state : Type := KahnState {
  in_degree : gmap str Z;
  queue : list str;
  order : list str
}.

Section resolver.
(** [self.mod_dependencies] *)
Variable mod_dependencies : gmap str (list str).

(** [deps_map[mod] = [d for d in self.mod_dependencies.get(mod, []) if d in mod_names]] *)
Definition build_deps_map (mod_names : list str) : gmap str (list str) :=
  foldl (λ deps_map mod_,
           <[mod_ := filter (λ d, d ∈ mod_names)
                           (default [] (mod_dependencies !! mod_))]> deps_map)
        ∅ mod_names.

(** [in_degree = {m: 0 for m in mod_names}] and the loop that adds one
    to [in_degree[mod]] for each entry of [deps_map[mod]]. *)
Definition count_in_degree (deps_map : gmap str (list str))
    (mod_names : list str) : outcome (gmap str Z) :=
  for_each (λ in_degree mod_,
              deps ← getitem deps_map mod_;
              for_each (λ in_degree (dep : str),
                          v ← getitem in_degree mod_;
                          Return (<[mod_ := v + 1]> in_degree))
                       in_degree deps)
           (foldl (λ d m, <[m := 0]> d) ∅ mod_names) mod_names.

(** [deque(m for m in mod_names if in_degree[m] == 0)] *)
Definition initial_queue (in_degree : gmap str Z) (mod_names : list str)
    : outcome (list str) :=
  for_each (λ q m,
              v ← getitem in_degree m;
              Return (if v =? 0 then q ++ [m] else q))
           [] mod_names.

(** [rev = {m: [] for m in mod_names}] and the loop that appends [mod] to
    [rev[dep]] for each [dep] of [deps_map[mod]]. *)
Definition build_rev (deps_map : gmap str (list str))
    (mod_names : list str) : outcome (gmap str (list str)) :=
  for_each (λ rev mod_,
              deps ← getitem deps_map mod_;
              for_each (λ rev dep,
                          l ← getitem rev dep;
                          Return (<[dep := l ++ [mod_]]> rev))
                       rev deps)
           (foldl (λ d m, <[m := []]> d) ∅ mod_names) mod_names.

(** One turn of [for other in rev[m]]. *)
Definition release (st : kahn_state) (other : str) : outcome kahn_state :=
  v ← getitem (in_degree st) other;
  let v := v - 1 in
  let in_degree := <[other := v]> (in_degree st) in
  if v =? 0 then Return (KahnState in_degree (queue st ++ [other]) (order st))
  else Return (KahnState in_degree (queue st) (order st)).

(** The body of [while queue]. *)
Definition kahn_body (rev : gmap str (list str)) (st : kahn_state)
    : outcome kahn_state :=
  match queue st with
  | m :: q =>
      others ← getitem rev m;
      for_each release (KahnState (in_degree st) q (order st ++ [m])) others
  | [] => Return st     (* not entered: the loop test is false *)
  end.

(** The function up to the end of the [while] loop: the value of [order]
    there.  A name is popped once per turn and pushed at most once per key
    of [in_degree], which bounds the number of turns. *)
Definition kahn_order (mod_names : list str) : outcome (list str) :=
  let deps_map := build_deps_map mod_names in
  in_degree0 ← count_in_degree deps_map mod_names;
  queue0 ← initial_queue in_degree0 mod_names;
  rev ← build_rev deps_map mod_names;
  st ← while_loop (length queue0 + size in_degree0)
         (λ st, bool_decide (queue st ≠ []))
         (kahn_body rev) (KahnState in_degree0 queue0 []);
  Return (order st).

Definition _resolve_event_modifiers_load_order (mod_names : list str)
    : outcome (list str) :=
  if bool_decide (mod_names = []) then Return []
  else
    order_ ← kahn_order mod_names;
    if bool_decide (length order_ ≠ length mod_names)
    then Return (sorted mod_names)
    else Return order_.
End resolver.

(** ** The merge engine ([_merge_event_modifiers_from_paths]) *)

Definition EVENT_MODIFIERS_FILE : str := py "event_modifiers.txt".

(** A value of [self.mod_files]. *)
Record mod_record : Type := ModRecord {
  mf_file : str;
  mf_path : str;
  mf_folder : str;
  mf_github : option str;
  mf_version : option str
}.

(** [merged_values] and [merged_order]. *)
Record merge_state : Type := MergeState {
  merged_values : gmap str str;
  merged_order : list str
}.

(** One turn of [for key, value in ...]. *)
Definition merge_entry (st : merge_state) (kv : str * str) : merge_state :=
  let '(key, value) := kv in
  MergeState (<[key := value]> (merged_values st))
             (if bool_decide (key ∈ merged_order st) then merged_order st
              else merged_order st ++ [key]).

(** [output_lines] joined: one [key=value] line per key of [merged_order]. *)
Definition render (st : merge_state) : outcome str :=
  output_lines ← for_each (λ output_lines key,
                             val ← getitem (merged_values st) key;
                             Return (output_lines ++ [key ++ EQUALS :: val ++ [LF]]))
                          [] (merged_order st);
  Return (concat output_lines).

Section merge.
(** [self.mod_files] *)
Variable mod_files : gmap str mod_record.
(** [os.path.join] on its list of arguments. *)
Variable os_path_join : list str → str.
(** [open(path).read()]; [None] when it raises. *)
Variable read_text : str → option str.

Definition event_modifiers_path (mod_folder folder : str) : str :=
  os_path_join [mod_folder; folder; py "common"; EVENT_MODIFIERS_FILE].

(** One turn of [for mod_name in ordered_mod_names]. *)
Definition merge_mod (mod_folder : str) (st : merge_state) (mod_name : str)
    : outcome merge_state :=
  rec ← getitem mod_files mod_name;
  let folder := mf_folder rec in
  let path := event_modifiers_path mod_folder folder in
  match read_text path with
  | None => Return st                       (* except: print; continue *)
  | Some content =>
      entries ← _parse_event_modifiers_content content;
      Return (foldl merge_entry st entries)
  end.

(** The state after the loop over [ordered_mod_names]. *)
Definition merge_mods (mod_folder : str) (ordered_mod_names : list str)
    : outcome merge_state :=
  for_each (merge_mod mod_folder) (MergeState ∅ []) ordered_mod_names.

Definition _merge_event_modifiers_from_paths (mod_folder : str)
    (ordered_mod_names : list str) : outcome str :=
  st ← merge_mods mod_folder ordered_mod_names;
  render st.
End merge.

(** ** Vocabulary of the statements *)

(** *** Conflict-file parser *)

(** The brace balance [s.count("{") - s.count("}")]. *)
Definition balance (s : str) : Z := count LBRACE s - count RBRACE s.

(** [lines] joined, each line preceded by a newline: what the inner loop
    appends to [value] when it consumes [lines]. *)
Definition continuation (lines : list str) : str :=
  concat (map (λ line, LF :: line) lines).

(** A line the parser passes over: blank, a comment, or without ["="]. *)
Definition skipped (line : str) : bool :=
  let s := strip line in
  bool_decide (s = []) || startswith s (py "#") || negb (contains EQUALS s).

(** The key and the trimmed value of a line that is not [skipped]. *)
Definition line_key (line : str) : str := strip (split_once EQUALS (strip line)).1.
Definition line_value (line : str) : str := strip (split_once EQUALS (strip line)).2.

(** The entries of a list of lines, by recursion on the lines: the reference
    against which the index-driven loop is compared. *)
Fixpoint parse_lines (lines : list str) : list (str * str) :=
  match lines with
  | [] => []
  | line :: rest =>
      if skipped line then parse_lines rest
      else if contains LBRACE (line_value line) then
        (fix block (rest : list str) (value : str) (depth : Z) {struct rest}
             : list (str * str) :=
           match rest with
           | next_line :: rest' =>
               if 0 <? depth then
                 block rest' (value ++ LF :: next_line) (depth + balance next_line)
               else (line_key line, strip value) :: parse_lines rest
           | [] => [(line_key line, strip value)]
           end) rest (line_value line) (balance (line_value line))
      else (line_key line, line_value line) :: parse_lines rest
  end.

(** The loop seen as a transition system: one turn of
    [while i < len(lines)] takes [st] to [st']. *)
Definition parser_step (lines : list str) (st st' : parser_state) : Prop :=
  ∃ line, lines !! ps_i st = Some line ∧ st' = parse_line lines line st.

(** The states in which the loop test is evaluated during a run on [lines]. *)
Definition parser_reaches (lines : list str) (st : parser_state) : Prop :=
  rtc (parser_step lines) (ParserState 0 []) st.

(** The sum of the brace balances of [lines]. *)
Definition balance_sum (lines : list str) : Z :=
  foldr (λ line acc, balance line + acc) 0 lines.

(** *** Manifest *)

(** The value of a [dependencies] line that lists, between braces, an empty
    quoted name (two double quotes) and the name [A]. *)
Definition quoted_empty_value : str :=
  LBRACE :: DQUOTE :: DQUOTE :: py ", A}".

Definition quoted_empty_line : str :=
  py "dependencies = " ++ quoted_empty_value.

(** *** Merge engine *)

(** The value of the last entry of [entries] that bears [key]. *)
Definition last_value (key : str) (entries : list (str * str)) : option str :=
  snd <$> last (filter (λ kv, kv.1 = key) entries).

(** The distinct elements of [keys], each at the place of its first
    occurrence. *)
Fixpoint first_appearance (keys : list str) : list str :=
  match keys with
  | [] => []
  | k :: keys' => k :: filter (λ k', k' ≠ k) (first_appearance keys')
  end.

(** The text of the merged file for [entries]: one line per distinct key,
    in [first_appearance] order, with the key's [last_value]. *)
Definition merged_text (entries : list (str * str)) : str :=
  concat (map (λ key, key ++ EQUALS :: default [] (last_value key entries) ++ [LF])
              (first_appearance (entries.*1))).

Section merge_vocabulary.
Variable mod_files : gmap str mod_record.
Variable os_path_join : list str → str.
Variable read_text : str → option str.
Variable mod_folder : str.

(** What reading the conflict-file of [mod_name] gives; [None] when the
    read raises (or the mod is unknown). *)
Definition mod_content (mod_name : str) : option str :=
  rec ← mod_files !! mod_name;
  read_text (event_modifiers_path os_path_join mod_folder (mf_folder rec)).

(** The read of the conflict-file of a known mod raises. *)
Definition read_fails (mod_name : str) : Prop :=
  is_Some (mod_files !! mod_name) ∧ mod_content mod_name = None.

#[global] Instance read_fails_dec mod_name : Decision (read_fails mod_name).
Proof. unfold read_fails. apply _. Defined.

(** The entry sequence of one mod: the parse of its conflict-file, and
    nothing when the file cannot be read. *)
Definition mod_entries (mod_name : str) : list (str * str) :=
  match mod_content mod_name with
  | Some content => parse_lines (splitlines content)
  | None => []
  end.

(** The concatenation of the per-mod entry sequences, in the given order. *)
Definition all_entries (ordered_mod_names : list str) : list (str * str) :=
  concat (map mod_entries ordered_mod_names).
End merge_vocabulary.

(** *** Load-order resolver *)

(** The number of occurrences of [x] in [l]. *)
Definition occurrences (x : str) (l : list str) : nat :=
  length (filter (λ y, y = x) l).

(** The number of keys of [in_degree] whose value is positive. *)
Definition positives (in_degree : gmap str Z) : nat :=
  size (filter (λ kv, 0 < kv.2) in_degree).

(** What bounds the turns of the [while] loop that remain. *)
Definition kahn_measure (st : kahn_state) : nat :=
  (length (queue st) + positives (in_degree st))%nat.

Section resolver_vocabulary.
Variable mod_dependencies : gmap str (list str).
Variable mod_names : list str.

(** The dependencies of [m] that are candidates: [deps_map[m]]. *)
Definition candidate_deps (m : str) : list str :=
  filter (λ d, d ∈ mod_names) (default [] (mod_dependencies !! m)).

(** An edge of the induced subgraph: the candidate [m] lists the
    candidate [d] among its dependencies. *)
Definition depends_on (m d : str) : Prop :=
  m ∈ mod_names ∧ d ∈ mod_names ∧ d ∈ default [] (mod_dependencies !! m).

(** The number of entries of [candidate_deps m] that are not in [placed]:
    the value of [in_degree[m]] once the names of [placed] are processed. *)
Definition unmet (placed : list str) (m : str) : nat :=
  length (filter (λ d, d ∉ placed) (candidate_deps m)).

(** The value of [rev[d]] after the turns of the [rev] loop for the names of
    [l]: each [m] of [l], in order, once per occurrence of [d] in
    [candidate_deps m]. *)
Definition dependents_in (l : list str) (d : str) : list str :=
  l ≫= λ m, (λ _, m) <$> filter (λ dep, dep = d) (candidate_deps m).

(** The induced subgraph has no cycle. *)
Definition acyclic : Prop := ∀ m, ¬ tc depends_on m m.

(** What holds of the loop variables at the test of [while queue], on every
    candidate list: the keys of [in_degree] are the candidates, and the queue
    holds candidates. *)
Definition kahn_dom (st : kahn_state) : Prop :=
  (∀ m, is_Some (in_degree st !! m) ↔ m ∈ mod_names)
  ∧ (∀ m, m ∈ queue st → m ∈ mod_names).

(** What holds there on a candidate list without duplicates: [in_degree]
    counts the dependencies not yet processed; the processed and the queued
    names are, without repetition, the candidates that wait for nothing; and
    every processed name comes after its dependencies. *)
Definition kahn_inv (st : kahn_state) : Prop :=
  (∀ m, m ∈ mod_names →
        in_degree st !! m = Some (Z.of_nat (unmet (order st) m)))
  ∧ NoDup (order st ++ queue st)
  ∧ (∀ x, x ∈ order st ++ queue st
          ↔ x ∈ mod_names ∧ unmet (order st) x = 0%nat)
  ∧ (∀ l1 m l2, order st = l1 ++ m :: l2 →
                ∀ d, d ∈ candidate_deps m → d ∈ l1).
End resolver_vocabulary.

(** [x] occurs in [l], [y] occurs in [l], and every occurrence of [x] is
    strictly before every occurrence of [y]. *)
Definition strictly_before (x y : str) (l : list str) : Prop :=
  x ∈ l ∧ y ∈ l ∧ ∀ i j, l !! i = Some x → l !! j = Some y → (i < j)%nat.

(** The position of the first occurrence of [x] in [l] ([length l] when
    there is none). *)
Fixpoint index_of (x : str) (l : list str) : nat :=
  match l with
  | [] => 0
  | y :: l' => if bool_decide (x = y) then 0 else S (index_of x l')
  end.

(** The number of names of [order] that have been processed when [m] enters
    the queue: [0] when [m] has no candidate dependency, else one more than
    the position in [order] of the last processed dependency of [m]. *)
Definition ready_at (mod_dependencies : gmap str (list str))
    (mod_names order : list str) (m : str) : nat :=
  max_list (map (λ d, S (index_of d order))
                (candidate_deps mod_dependencies mod_names m)).

(** Queue discipline: [x] goes before [y] when it enters the queue earlier
    or, entering at the same moment, comes first in the candidate list. *)
Definition fifo_lt (mod_dependencies : gmap str (list str))
    (mod_names order : list str) (x y : str) : Prop :=
  (ready_at mod_dependencies mod_names order x
     < ready_at mod_dependencies mod_names order y)%nat
  ∨ (ready_at mod_dependencies mod_names order x
       = ready_at mod_dependencies mod_names order y
     ∧ (index_of x mod_names < index_of y mod_names)%nat).

(** [l] is in queue order: an earlier name is [fifo_lt] a later one. *)
Definition fifo_ordered (mod_dependencies : gmap str (list str))
    (mod_names l : list str) : Prop :=
  ∀ i j x y, l !! i = Some x → l !! j = Some y → (i < j)%nat →
             fifo_lt mod_dependencies mod_names l x y.

(** Every name of [l] comes after its candidate dependencies. *)
Definition dependencies_first (mod_dependencies : gmap str (list str))
    (mod_names l : list str) : Prop :=
  ∀ i m d, l !! i = Some m → d ∈ candidate_deps mod_dependencies mod_names m →
           ∃ j, (j < i)%nat ∧ l !! j = Some d.

(** What the queue discipline gives at the test of [while queue]: the
    processed names followed by the queued ones are in [fifo_lt] order, and
    each of them was ready by now. *)
Definition fifo_inv (mod_dependencies : gmap str (list str))
    (mod_names : list str) (st : kahn_state) : Prop :=
  StronglySorted (fifo_lt mod_dependencies mod_names (order st))
                 (order st ++ queue st)
  ∧ ∀ x, x ∈ order st ++ queue st →
         (ready_at mod_dependencies mod_names (order st) x
          ≤ length (order st))%nat.

(** The reading of the tie-break sentence in which candidate position alone
    decides among all names that are ready: repeatedly take the first
    candidate, in list order, that is not yet placed and whose candidate
    dependencies are all placed. *)
Fixpoint candidate_priority_order (mod_dependencies : gmap str (list str))
    (mod_names : list str) (fuel : nat) (placed : list str) : list str :=
  match fuel with
  | O => placed
  | S fuel' =>
      match list_find (λ m, (m ∉ placed)
                            ∧ Forall (λ d, d ∈ placed)
                                     (candidate_deps mod_dependencies mod_names m))
                      mod_names with
      | Some (_, m) =>
          candidate_priority_order mod_dependencies mod_names fuel' (placed ++ [m])
      | None => placed
      end
  end.

(** [n] turns of [while queue] (fewer when the queue empties before). *)
Fixpoint kahn_turns (rev : gmap str (list str)) (n : nat) (st : kahn_state)
    : outcome kahn_state :=
  match n with
  | O => Return st
  | S n' =>
      if bool_decide (queue st ≠ []) then
        st' ← kahn_body rev st; kahn_turns rev n' st'
      else Return st
  end.

(** The loop variables of the resolver after [n] turns of its loop. *)
Definition kahn_state_after (mod_dependencies : gmap str (list str))
    (mod_names : list str) (n : nat) : outcome kahn_state :=
  let deps_map := build_deps_map mod_dependencies mod_names in
  in_degree0 ← count_in_degree deps_map mod_names;
  queue0 ← initial_queue in_degree0 mod_names;
  rev ← build_rev deps_map mod_names;
  kahn_turns rev n (KahnState in_degree0 queue0 []).

(** *** Example inputs *)

(** The four lines [foo={], [a=1], [}] and [bar=2]. *)
Definition block_example : str :=
  py "foo={" ++ [LF] ++ py "a=1" ++ [LF] ++ py "}" ++ [LF] ++ py "bar=2".

(** A comment, then a block that is still open at the end of the text. *)
Definition open_block_example : str :=
  py "# taxes" ++ [LF] ++ py "bar=2" ++ [LF] ++ py "foo={" ++ [LF] ++ py " a=1".

(** Three mods in the folder [mod]: [A] holds [tax=10] and [trade=5], [C]
    holds [trade=7] and [bonus=1], and the conflict-file of [B] cannot be
    read. *)
Definition example_mod_files : gmap str mod_record :=
  <[py "A" := ModRecord (py "A.mod") (py "mod/A") (py "A") None None]>
    (<[py "B" := ModRecord (py "B.mod") (py "mod/B") (py "B") None None]>
       (<[py "C" := ModRecord (py "C.mod") (py "mod/C") (py "C") None None]> ∅)).

Definition example_join (parts : list str) : str :=
  match parts with
  | [] => []
  | part :: parts' => foldl (λ joined p, joined ++ py "/" ++ p) part parts'
  end.

Definition example_read (path : str) : option str :=
  if bool_decide (path = py "mod/A/common/event_modifiers.txt") then
    Some (py "tax=10" ++ [LF] ++ py "trade=5" ++ [LF])
  else if bool_decide (path = py "mod/C/common/event_modifiers.txt") then
    Some (py "trade=7" ++ [LF] ++ py "bonus=1" ++ [LF])
  else None.

(** [X] and [Y] depend on each other. *)
Definition cycle_xy : gmap str (list str) :=
  <[py "X" := [py "Y"]]> (<[py "Y" := [py "X"]]> ∅).

(** [C] depends on [B] and [D] depends on [A]. *)
Definition crossed_deps : gmap str (list str) :=
  <[py "C" := [py "B"]]> (<[py "D" := [py "A"]]> ∅).

(** * The rest of the launcher *)

(** ** Choosing the mods to merge and launching ([start_game]) *)

Definition Z_LAUNCHER_NAME : str := py "z_launcher".
Definition SLASH : char := 47%N.
Definition SPACE : char := 32%N.

(** [sep.join(parts)] *)
Fixpoint str_join (sep : str) (parts : list str) : str :=
  match parts with
  | [] => []
  | [part] => part
  | part :: parts' => part ++ sep ++ str_join sep parts'
  end.

Section launch.
(** [self.mod_files] and [self.mod_dependencies] *)
Variable mod_files : gmap str mod_record.
Variable mod_dependencies : gmap str (list str).
(** [os.path.join] on its list of arguments, [os.path.isfile], and
    [open(path).read()] ([None] when it raises). *)
Variable os_path_join : list str → str.
Variable os_path_isfile : str → bool.
Variable read_text : str → option str.

(** One turn of the loop of [_get_mods_with_event_modifiers]. *)
Definition keep_mod_with_event_modifiers (mod_folder : str)
    (result : list str) (mod_name : str) : list str :=
  match mod_files !! mod_name with
  | None => result                                         (* continue *)
  | Some rec =>
      let folder := mf_folder rec in
      if bool_decide (folder = []) then result             (* continue *)
      else
        let path := os_path_join [mod_folder; folder; py "common";
                                  EVENT_MODIFIERS_FILE] in
        if os_path_isfile path then result ++ [mod_name] else result
  end.

Definition _get_mods_with_event_modifiers (selected_mods : list str)
    (mod_folder : str) : list str :=
  foldl (keep_mod_with_event_modifiers mod_folder) [] selected_mods.

(** The part of [start_game] that computes [merged_content]: [None] when
    fewer than two selected mods have the conflict-file. *)
Definition start_game_merge (selected_mods : list str) (mod_folder : str)
    : outcome (option str) :=
  let mods_with_em := _get_mods_with_event_modifiers selected_mods mod_folder in
  if bool_decide (1 < length mods_with_em)%nat then
    order_ ← _resolve_event_modifiers_load_order mod_dependencies mods_with_em;
    merged_content ← _merge_event_modifiers_from_paths mod_files os_path_join
                       read_text mod_folder order_;
    Return (Some merged_content)
  else Return None.

(** One turn of [for mod in mods_to_load]: the argument for [mod]. *)
Definition mod_file_arg (mod_ : str) : outcome str :=
  if bool_decide (mod_ = Z_LAUNCHER_NAME) then
    Return (py "-mod=mod/z_launcher.mod")
  else
    rec ← getitem mod_files mod_;
    Return (py "-mod=mod/" ++ mf_file rec).

(** The part of [start_game] that computes [game_command]. *)
Definition game_command (mods_to_load : list str) : outcome str :=
  if bool_decide (mods_to_load ≠ []) then
    mod_file_args ← for_each (λ mod_file_args mod_,
                                arg ← mod_file_arg mod_;
                                Return (mod_file_args ++ [arg]))
                             [] mods_to_load;
    Return (py "v2game.exe " ++ str_join [SPACE] mod_file_args)
  else Return (py "v2game.exe").
End launch.

(** *** Vocabulary *)

Section launch_vocabulary.
Variable mod_files : gmap str mod_record.
Variable os_path_join : list str → str.
Variable os_path_isfile : str → bool.
Variable mod_folder : str.

(** A mod takes part in the merge: it is known, has a folder, and its
    conflict-file exists. *)
Definition takes_part (mod_name : str) : Prop :=
  ∃ rec, mod_files !! mod_name = Some rec
         ∧ mf_folder rec ≠ []
         ∧ os_path_isfile (event_modifiers_path os_path_join mod_folder
                             (mf_folder rec)) = true.

#[global] Instance takes_part_dec mod_name : Decision (takes_part mod_name).
Proof.
  unfold takes_part. destruct (mod_files !! mod_name) as [rec|].
  - destruct (decide (mf_folder rec ≠ []
                      ∧ os_path_isfile (event_modifiers_path os_path_join
                                          mod_folder (mf_folder rec)) = true))
      as [H|H].
    + left. by exists rec.
    + right. intros (rec' & [= <-] & H1 & H2). by apply H.
  - right. intros (rec' & [=] & _).
Defined.
End launch_vocabulary.


(** *** Vocabulary *)

(** The argument [game_command] gives for a mod that it can name. *)
Definition mod_file_arg_text (mod_files : gmap str mod_record) (mod_ : str)
    : str :=
  if bool_decide (mod_ = Z_LAUNCHER_NAME) then py "-mod=mod/z_launcher.mod"
  else py "-mod=mod/" ++ default [] (mf_file <$> mod_files !! mod_).

(** [game_command] can name [mod_]. *)
Definition nameable (mod_files : gmap str mod_record) (mod_ : str) : Prop :=
  mod_ = Z_LAUNCHER_NAME ∨ is_Some (mod_files !! mod_).

#[global] Instance nameable_dec mod_files mod_ :
  Decision (nameable mod_files mod_).
Proof. unfold nameable. apply _. Defined.

(** ** The checked mods ([get_checked_mods]) *)

(** The loop variables of [get_checked_mods]. *)
Record checked_state : Type := CheckedState {
  checked_mods : list str;
  last_user_dir_mod : option str
}.

Section checked.
(** [self.mod_files] and [self.mod_user_dirs] *)
Variable mod_files : gmap str mod_record.
Variable mod_user_dirs : gmap str str.

(** The loop over the items of the tree, each given by its text and by
    whether its check state is [Checked].  The second component is the
    exception that ended the loop, if any; [checked_mods] is a list that the
    loop extends in place, so what was appended before the exception stays. *)
Fixpoint get_checked_loop (items : list (str * bool)) (st : checked_state)
    : checked_state * option exn :=
  match items with
  | [] => (st, None)
  | (text, checked) :: items' =>
      if checked then
        let mod_name := text in
        if bool_decide (is_Some (mod_files !! mod_name)) then
          let checked_mods' := checked_mods st ++ [mod_name] in
          match (mod_user_dirs !! mod_name : option str) with
          | None =>
              (CheckedState checked_mods' (last_user_dir_mod st),
               Some (KeyError mod_name))
          | Some d =>
              get_checked_loop items'
                (CheckedState checked_mods'
                   (if bool_decide (d ≠ []) then Some mod_name
                    else last_user_dir_mod st))
          end
        else get_checked_loop items' st
      else get_checked_loop items' st
  end.

(** [get_checked_mods]: the list it returns and the value of
    [self.user_dir] when it returns, [user_dir] being the value before.  An
    exception is caught and leaves [self.user_dir] as it was. *)
Definition get_checked_mods (items : list (str * bool)) (user_dir : str)
    : list str * str :=
  let '(st, raised) := get_checked_loop items (CheckedState [] None) in
  match raised with
  | Some _ => (checked_mods st, user_dir)
  | None =>
      match last_user_dir_mod st with
      | Some last_ =>
          if bool_decide (last_ ≠ []) then
            match (mod_user_dirs !! last_ : option str) with
            | Some d => (checked_mods st, d)
            | None => (checked_mods st, user_dir)
            end
          else (checked_mods st, [])
      | None => (checked_mods st, [])
      end
  end.

(** *** Vocabulary *)

(** The texts of the checked items that are known mods, in tree order. *)
Definition checked_known (items : list (str * bool)) : list str :=
  filter (λ mod_name, is_Some (mod_files !! mod_name))
         (filter (λ item, item.2 = true) items).*1.

(** The user directory recorded for a mod, empty when there is none. *)
Definition user_dir_of (mod_name : str) : str :=
  default ([] : str) (mod_user_dirs !! mod_name).
End checked.

(** ** Scanning the mod folder ([load_mods]) *)

(** [self.mod_files], [self.mod_dependencies] and [self.mod_user_dirs]. *)
Record launcher : Type := Launcher {
  self_mod_files : gmap str mod_record;
  self_mod_dependencies : gmap str (list str);
  self_mod_user_dirs : gmap str str
}.

(** [mod_path.split("/")[-1] if mod_path else ""] *)
Definition mod_folder_name (mod_path : str) : str :=
  if bool_decide (mod_path ≠ []) then List.last (split SLASH mod_path) []
  else [].

(** [x if x else None] *)
Definition or_None (x : str) : option str :=
  if bool_decide (x ≠ []) then Some x else None.

Section load_mods.
Variable os_path_join : list str → str.
(** [open(path).read()]; [None] when it raises. *)
Variable read_text : str → option str.

(** The record made from the manifest of [file]. *)
Definition manifest_record (file : str) (m : manifest) : mod_record :=
  ModRecord file (mod_path m) (mod_folder_name (mod_path m))
            (or_None (github m)) (or_None (version m)).

(** One turn of [for file in os.listdir(mod_folder)]. *)
Definition load_mod_file (mod_folder : str) (self : launcher) (file : str)
    : launcher :=
  if endswith file (py ".mod") then
    match read_text (os_path_join [mod_folder; file]) with
    | None => self                            (* except Exception: print *)
    | Some content =>
        let m := parse_manifest content in
        if bool_decide (name m ≠ []) then
          Launcher (<[name m := manifest_record file m]> (self_mod_files self))
                   (<[name m := dependencies m]> (self_mod_dependencies self))
                   (<[name m := user_dir m]> (self_mod_user_dirs self))
        else self
    end
  else self.

(** The scan of [load_mods], [listing] being [os.listdir(mod_folder)]. *)
Definition load_mods_scan (mod_folder : str) (listing : list str) : launcher :=
  foldl (load_mod_file mod_folder) (Launcher ∅ ∅ ∅) listing.

(** *** Vocabulary *)

(** The manifest that the scan reads from [file], when it records one. *)
Definition loaded_manifest (mod_folder : str) (file : str) : option manifest :=
  if endswith file (py ".mod") then
    content ← read_text (os_path_join [mod_folder; file]);
    let m := parse_manifest content in
    if bool_decide (name m ≠ []) then Some m else None
  else None.
End load_mods.

(** ** Further vocabulary *)

(** The text of [game_command] for the mods it can name. *)
Definition game_command_text (mod_files : gmap str mod_record)
    (mods_to_load : list str) : str :=
  if bool_decide (mods_to_load ≠ []) then
    py "v2game.exe "
    ++ str_join [SPACE] (map (mod_file_arg_text mod_files) mods_to_load)
  else py "v2game.exe".


(** The checked known mods that record a user directory. *)
Definition user_dir_mods (mod_files : gmap str mod_record)
    (mod_user_dirs : gmap str str) (items : list (str * bool)) : list str :=
  filter (λ mod_name, user_dir_of mod_user_dirs mod_name ≠ [])
         (checked_known mod_files items).

(** The files of the listing that the scan records, each with its manifest,
    in listing order. *)
Definition loaded_manifests (os_path_join : list str → str)
    (read_text : str → option str) (mod_folder : str) (listing : list str)
    : list (str * manifest) :=
  omap (λ file, (λ m, (file, m)) <$> loaded_manifest os_path_join read_text
                                       mod_folder file) listing.

(** The last file of the listing whose manifest bears [mod_name]. *)
Definition last_manifest (os_path_join : list str → str)
    (read_text : str → option str) (mod_folder : str) (listing : list str)
    (mod_name : str) : option (str * manifest) :=
  last (filter (λ fm, name fm.2 = mod_name)
               (loaded_manifests os_path_join read_text mod_folder listing)).


(** [f'"{s}"'] *)
Definition quoted (s : str) : str := DQUOTE :: s ++ [DQUOTE].

(** A mod folder for the examples: the manifests of [A] and [B], a text file,
    a manifest that cannot be read and one that names no mod. *)
Definition example_listing : list str :=
  [py "A.mod"; py "readme.txt"; py "broken.mod"; py "B.mod"; py "anon.mod"].

Definition example_manifests (path : str) : option str :=
  if bool_decide (path = py "mod/A.mod") then
    Some (py "name = " ++ quoted (py "A") ++ [LF]
          ++ py "path = " ++ quoted (py "mod/A") ++ [LF]
          ++ py "user_dir = " ++ quoted (py "adir") ++ [LF])
  else if bool_decide (path = py "mod/B.mod") then
    Some (py "name = " ++ quoted (py "B") ++ [LF]
          ++ py "path = " ++ quoted (py "mod/B") ++ [LF]
          ++ py "dependencies = { " ++ quoted (py "A") ++ py " }" ++ [LF])
  else if bool_decide (path = py "mod/anon.mod") then
    Some (py "path = " ++ quoted (py "mod/anon") ++ [LF])
  else if bool_decide (path = py "mod/readme.txt") then
    Some (py "name = " ++ quoted (py "R") ++ [LF])
  else None.

(** User directories for [example_mod_files]: only [B] records one. *)
Definition example_user_dirs : gmap str str :=
  <[py "A" := []]> (<[py "B" := py "bdir"]> (<[py "C" := []]> ∅)).

(** ** Placing the mods in the tree ([load_mods]) *)

(** The keys of [mod_items]: every key of [mod_files] but [z_launcher]. *)
Definition mod_items (mod_files : gmap str mod_record) : gset str :=
  dom mod_files ∖ {[Z_LAUNCHER_NAME]}.

(** Where the item of a mod goes. *)
Inductive place : Type :=
| TopLevel
| ChildOf (parent : str).

(** [for dep in dependencies: if dep in mod_items: ...; break], giving the
    [dep] of the [break], or [None] when the [else] of the loop runs. *)
Fixpoint first_shown (items : gset str) (dependencies : list str)
    : option str :=
  match dependencies with
  | [] => None
  | dep :: dependencies' =>
      if bool_decide (dep ∈ items) then Some dep
      else first_shown items dependencies'
  end.

(** One turn of [for mod_name, dependencies in self.mod_dependencies.items()];
    [None] when the turn ends in [continue]. *)
Definition place_mod (items : gset str) (mod_name : str)
    (dependencies : list str) : option place :=
  if bool_decide (mod_name = Z_LAUNCHER_NAME) then None
  else if bool_decide (mod_name ∉ items) then None
  else if bool_decide (dependencies ≠ []) then
    match first_shown items dependencies with
    | Some dep => Some (ChildOf dep)
    | None => Some TopLevel
    end
  else Some TopLevel.

(** The place of every item that the loop attaches.  The order of the
    siblings, which is the order of the dict, is not part of it. *)
Definition tree_places (self : launcher) : gmap str place :=
  map_imap (place_mod (mod_items (self_mod_files self)))
           (self_mod_dependencies self).

(** ** The default game roots ([_build_default_game_roots]) *)

Definition COLON : char := 58%N.
Definition BACKSLASH : char := 92%N.

(** [string.ascii_uppercase] *)
Definition ascii_uppercase : str := py "ABCDEFGHIJKLMNOPQRSTUVWXYZ".

(** The loop variables of the de-duplication. *)
Record dedupe_state : Type := DedupeState {
  seen : gset str;
  deduped : list str
}.

(** One turn of [for root in roots]. *)
Definition dedupe_root (st : dedupe_state) (root : str) : dedupe_state :=
  if bool_decide (root ∉ seen st) then
    DedupeState ({[root]} ∪ seen st) (deduped st ++ [root])
  else st.

Section game_roots.
Variable os_path_exists : str → bool.
Variable os_path_join : list str → str.
Variable os_path_dirname : str → str.

Definition _get_available_drives : list str :=
  foldl (λ drives letter,
           let drive := [letter; COLON; BACKSLASH] in
           if os_path_exists drive then drives ++ [drive] else drives)
        [] ascii_uppercase.

(** The list [roots] before the de-duplication. *)
Definition default_game_roots (application_path : str) : list str :=
  foldl (λ roots drive,
           (roots
            ++ [os_path_join
                  [drive;
                   py "Program Files (x86)\Steam\steamapps\common\Victoria 2"]])
           ++ [os_path_join [drive; py "GOG Games\Victoria II"]])
        [application_path; os_path_dirname application_path]
        _get_available_drives.

Definition _build_default_game_roots (application_path : str) : list str :=
  deduped (foldl dedupe_root (DedupeState ∅ [])
                 (default_game_roots application_path)).
End game_roots.

(** ** Updating a manifest ([_update_mod_version_field]) *)

(** [f.readlines()] on a file whose text is [s]: the lines, each with its
    terminator, the last one possibly without. *)
Fixpoint readlines (s : str) : list str :=
  match s with
  | [] => []
  | c :: s' =>
      if (c =? LF)%N then [c] :: readlines s'
      else match readlines s' with
           | line :: rest => (c :: line) :: rest
           | [] => [[c]]
           end
  end.

(** [f'version="{new_version}"\n'] *)
Definition version_line (new_version : str) : str :=
  py "version=" ++ quoted new_version ++ [LF].

(** The loop variables [out] and [replaced]. *)
Record update_state : Type := UpdateState {
  out : list str;
  replaced : bool
}.

(** One turn of [for line in lines]. *)
Definition update_line (new_version : str) (st : update_state) (line : str)
    : update_state :=
  let stripped := strip line in
  if startswith stripped (py "version") && contains EQUALS stripped then
    UpdateState (out st ++ [version_line new_version]) true
  else UpdateState (out st ++ [line]) (replaced st).

(** [_update_mod_version_field] on the text read from the manifest, [None]
    when the file is not found; it gives the text written, [None] when
    nothing is written. *)
Definition _update_mod_version_field (content : option str)
    (new_version : str) : option str :=
  match content with
  | None => None
  | Some text =>
      let lines := readlines text in
      let st := foldl (update_line new_version) (UpdateState [] false) lines in
      let out :=
        if replaced st then out st
        else
          let out :=
            match last (out st) with
            | Some last_ =>
                if negb (endswith last_ [LF])
                then removelast (out st) ++ [last_ ++ [LF]]
                else out st
            | None => out st
            end in
          out ++ [version_line new_version] in
      Some (concat out)
  end.

(** *** Vocabulary *)

(** The manifest [m] with its version set. *)
Definition set_version (m : manifest) (new_version : str) : manifest :=
  Manifest (name m) (dependencies m) (user_dir m) (github m) new_version
           (mod_path m).

(** The test of the update loop on a line. *)
Definition version_field (line : str) : bool :=
  startswith (strip line) (py "version") && contains EQUALS (strip line).

(** A line that ends in its only line feed. *)
Definition terminated (line : str) : Prop :=
  ∃ body, line = body ++ [LF] ∧ LF ∉ body.

(** A list of lines as [readlines] gives it: terminated lines, then possibly
    one non-empty line without line feed. *)
Definition well_formed_lines (lines : list str) : Prop :=
  ∃ full rest,
    lines = full ++ rest ∧ Forall terminated full
    ∧ (rest = [] ∨ ∃ line, rest = [line] ∧ line ≠ [] ∧ LF ∉ line).

(** ** The root folder of a zipball ([_get_zip_root_folder]) *)

(** One turn of [for name in zf.namelist()]. *)
Definition add_zip_root (roots : gset str) (name_ : str) : gset str :=
  let first := (split_once SLASH name_).1 in
  if bool_decide (first ≠ []) then {[first]} ∪ roots else roots.

(** [_get_zip_root_folder] on [zf.namelist()]; [None] when it raises
    [RuntimeError]. *)
Definition _get_zip_root_folder (namelist : list str) : option str :=
  let roots := foldl add_zip_root ∅ namelist in
  if bool_decide (size roots ≠ 1%nat) then None
  else head (elements roots).

(** ** The repository of a GitHub address ([_repo_from_github_url]) *)

Definition QUESTION : char := 63%N.

(** The longest prefix of [s] whose characters all satisfy [p]: what a
    greedy [[...]+] or [[...]*] takes. *)
Fixpoint take_while (p : char → bool) (s : str) : str :=
  match s with
  | c :: s' => if p c then c :: take_while p s' else []
  | [] => []
  end.

(** The text after [prefix] when [s] starts with it. *)
Definition after_prefix (prefix s : str) : option str :=
  if startswith s prefix then Some (drop (length prefix) s) else None.

(** [re.match(r"^https?://github\.com/([^/]+)/([^/#?]+)", url.strip())]
    and the text made of its two groups.  A match is unique: the first group
    cannot hold a slash and must be followed by one, so it is the text up to
    the first slash, and the second group is greedy. *)
Definition _repo_from_github_url (github_url : str) : option str :=
  let s := strip github_url in
  let rest :=
    match after_prefix (py "https://github.com/") s with
    | Some rest => Some rest
    | None => after_prefix (py "http://github.com/") s
    end in
  match rest with
  | None => None
  | Some rest =>
      let group1 := take_while (λ c, negb (c =? SLASH)%N) rest in
      match drop (length group1) rest with
      | c :: rest' =>
          let group2 :=
            take_while (λ c, negb (char_in [SLASH; HASH; QUESTION] c)) rest' in
          if bool_decide (group1 ≠ []) && (c =? SLASH)%N
             && bool_decide (group2 ≠ [])
          then Some (group1 ++ [SLASH] ++ group2)
          else None
      | [] => None
      end
  end.

(** The first letter of [version]. *)
Definition LOWER_V : char := 118%N.

(** What the update loop puts in [out] for a line. *)
Definition updated_line (new_version line : str) : str :=
  if version_field line then version_line new_version else line.

(** A manifest without version and without final line feed. *)
Definition example_manifest : str :=
  py "name = A" ++ [LF] ++ py "path = mod/A".

(** ** Restoring the check states ([loadSettings]) *)

(** The loop of [loadSettings] over the items of the tree, [tree] being
    their texts in tree order: an item is checked when its text is in
    [checked_mods]. *)
Definition restore_check_states (checked_mods : list str) (tree : list str)
    : list (str * bool) :=
  map (λ mod_name, (mod_name, bool_decide (mod_name ∈ checked_mods))) tree.

(** ** Reading the merged file back *)

(** No character of [s] ends a line for [splitlines]. *)
Definition plain (s : str) : bool :=
  forallb (λ c, negb (is_linebreak c)) s.

(** The inner loop of the parser, entered at [depth] before the lines
    [rest], reads all of them and leaves with the block closed. *)
Fixpoint block_closes (rest : list str) (depth : Z) : bool :=
  match rest with
  | [] => depth <=? 0
  | next_line :: rest' =>
      (0 <? depth) && block_closes rest' (depth + balance next_line)
  end.

(** A key as the parser gives it: trimmed, on one line, without ["="] and
    not the start of a comment. *)
Definition key_ok (key : str) : bool :=
  bool_decide (strip key = key) && negb (contains EQUALS key) && plain key
  && negb (startswith key (py "#")).

(** A value as the parser gives it when it does not run into the end of the
    text: trimmed, its first line trimmed, either one line without opening
    brace, or a block that closes on its last line and not before. *)
Definition closed_value (value : str) : bool :=
  bool_decide (strip value = value)
  && match split LF value with
     | first :: rest =>
         bool_decide (strip first = first) && forallb plain (first :: rest)
         && (if contains LBRACE first then block_closes rest (balance first)
             else bool_decide (rest = []))
     | [] => false
     end.

(** What the merge keeps of [entries]: each distinct key, at the place of
    its first occurrence, with its last value. *)
Definition merged_entries (entries : list (str * str)) : list (str * str) :=
  map (λ key, (key, default [] (last_value key entries)))
      (first_appearance entries.*1).

(** Two conflict-files' worth of entries with blocks. *)
Definition example_entries : list (str * str) :=
  [(py "tax", py "{" ++ [LF] ++ py "  rate = 1" ++ [LF] ++ py "}");
   (py "trade", py "5");
   (py "tax", py "{ rate = 2 }")].

(** ** Is there a new release? ([check_for_updates]) *)

(** The truth value of a text that may be [None]. *)
Definition truthy (x : option str) : bool :=
  match x with
  | Some s => bool_decide (s ≠ [])
  | None => false
  end.

(** The value of [has_new_release] after the comparison of the release
    with the local manifest.  [latest_release_date] is the publication time
    of the release when the answer of the server holds one, and
    [mod_last_modified_date] the modification time of the manifest, both as
    numbers of seconds. *)
Definition has_new_release (latest_release_tag version : option str)
    (latest_release_date : option Z) (mod_last_modified_date : Z) : bool :=
  match latest_release_date with
  | Some latest_release_date =>
      if truthy latest_release_tag && truthy version
         && bool_decide (latest_release_tag ≠ version)
         || negb (truthy version)
            && (mod_last_modified_date <? latest_release_date)
      then true
      else if truthy latest_release_tag && negb (truthy version) then
        if mod_last_modified_date <? latest_release_date then true else false
      else false
  | None => false
  end.

(** ** The settings file of the game ([configWindow]) *)

(** The lines of the text that [create_default_settings] writes, without
    their line feeds; the text ends with an indentation that no line feed
    follows. *)
Definition default_settings_lines : list str :=
  [py "gui=";
   py "            {";
   py "            language=l_english";
   py "            }";
   py "            graphics=";
   py "            {";
   py "            size=";
   py "            {";
   py "                x=1920";
   py "                y=1080";
   py "            }";
   [];
   py "            refreshRate=60";
   py "            fullScreen=no";
   py "            borderless=yes";
   py "            shadows=no";
   py "            shadowSize=2048";
   py "            multi_sampling=0";
   py "            anisotropic_filtering=0";
   py "            gamma=50.000000";
   py "            }";
   py "            sound_fx_volume=100.000000";
   py "            music_volume=100.000000";
   py "            scroll_speed=50.000000";
   py "            camera_rotation_speed=50.000000";
   py "            zoom_speed=50.000000";
   py "            mouse_speed=50.000000";
   py "            master_volume=100.000000";
   py "            ambient_volume=50.000000";
   py "            mapRenderingOptions=";
   py "            {";
   py "            renderTrees=yes";
   py "            onmap=yes";
   py "            simpleWater=no";
   py "            counter_distance=300.000000";
   py "            text_height=300.000000";
   py "            sea_text_alpha=120";
   py "            details=1.000";
   py "            }";
   py "            lastplayer=" ++ [DQUOTE] ++ py "Player" ++ [DQUOTE];
   py "            lasthost=" ++ [DQUOTE] ++ [DQUOTE];
   py "            serveradress=" ++ [DQUOTE] ++ py "diplomacy.valkyrienet.com" ++ [DQUOTE];
   py "            debug_saves=0";
   py "            autosave=" ++ [DQUOTE] ++ py "YEARLY" ++ [DQUOTE];
   py "            simple=no";
   py "            categories=";
   py "            {";
   py "            1 1 1 1 1 1 }";
   py "            update_time=1.000000";
   py "            shortcut=yes"].

Definition default_settings : str :=
  concat (map (λ line, line ++ [LF]) default_settings_lines) ++ py "            ".

(** The keys of [updated_settings] in [ConfigDialog.save_settings], in the
    order of the dict. *)
Definition dialog_keys : list str :=
  [py "fullScreen"; py "borderless"; py "sound_fx_volume"; py "music_volume";
   py "master_volume"; py "ambient_volume"; py "lastplayer"; py "autosave";
   py "debug_saves"; py "x"; py "y"].

(** [for i in range(len(lines)): if lines[i].startswith(key): ...; break] *)
Fixpoint replace_first (key value : str) (lines : list str) : list str :=
  match lines with
  | [] => []
  | line :: lines' =>
      if startswith line key then (key ++ EQUALS :: value ++ [LF]) :: lines'
      else line :: replace_first key value lines'
  end.

(** [for key, value in updated_settings.items(): ...] on the lines read
    from the settings file; the result is what is written back. *)
Definition replace_settings (updated_settings : list (str * str))
    (lines : list str) : list str :=
  foldl (λ lines kv, replace_first kv.1 kv.2 lines) lines updated_settings.

(** ** The manifest of [z_launcher] ([_ensure_z_launcher_setup]) *)

(** The text that [_ensure_z_launcher_setup] writes into [z_launcher.mod]. *)
Definition z_launcher_manifest : str :=
  (py "name = " ++ quoted (py "z_launcher") ++ [LF])
  ++ (py "path = " ++ quoted (py "mod/z_launcher") ++ [LF])
  ++ (py "user_dir = " ++ quoted (py "z_launcher") ++ [LF]).

(** [f"{Z_LAUNCHER_NAME}.mod"] *)
Definition z_launcher_mod_file : str := Z_LAUNCHER_NAME ++ py ".mod".

(** * Proofs *)

(** A decidable closed statement, settled by evaluation. *)
Ltac by_compute := apply (bool_decide_unpack _); vm_compute; exact I.

(** ** Outcomes and loops *)

Lemma getitem_Some {V : Type} (d : gmap str V) (k : str) (v : V) :
  d !! k = Some v → getitem d k = Return v.
Proof. intros H. unfold getitem. by rewrite H. Qed.

Lemma while_loop_exit {S : Type} (fuel : nat) (cond : S → bool)
    (body : S → outcome S) (s : S) :
  cond s = false → while_loop fuel cond body s = Return s.
Proof. intros H. destruct fuel; simpl; by rewrite H. Qed.

Lemma while_loop_turn {S : Type} (fuel : nat) (cond : S → bool)
    (body : S → outcome S) (s : S) :
  cond s = true →
  while_loop (Datatypes.S fuel) cond body s
  = body s ≫= while_loop fuel cond body.
Proof. intros H. simpl. by rewrite H. Qed.

(** ** Strings *)

Lemma lstrip_by_nil (p : char → bool) (s : str) :
  lstrip_by p s = [] ↔ Forall (λ c, p c = true) s.
Proof.
  induction s as [|c s IH]; simpl; [by split|].
  destruct (p c) eqn:Hc.
  - rewrite IH. split; [by constructor|by inversion 1].
  - split; [done|]. inversion 1; congruence.
Qed.

Lemma lstrip_by_head (p : char → bool) (s : str) (c : char) (s' : str) :
  lstrip_by p s = c :: s' → p c = false.
Proof.
  induction s as [|d s IH]; simpl; [done|].
  destruct (p d) eqn:Hd; [done|]. by intros [= <- <-].
Qed.

(** What is left by [strip] is empty only if every character was stripped. *)
Lemma strip_by_nil (p : char → bool) (s : str) :
  strip_by p s = [] ↔ Forall (λ c, p c = true) s.
Proof.
  unfold strip_by, rstrip_by. split.
  - intros H. apply (f_equal reverse) in H. rewrite reverse_involutive in H.
    simpl in H. apply lstrip_by_nil in H. apply lstrip_by_nil.
    destruct (lstrip_by p s) as [|c s'] eqn:Hs; [done|].
    apply lstrip_by_head in Hs.
    rewrite Forall_forall in H. specialize (H c).
    rewrite elem_of_reverse in H. rewrite H in Hs; [done|by left].
  - intros H. apply lstrip_by_nil in H. by rewrite H.
Qed.

(** ** Manifest: the [dependencies] line *)

Lemma manifest_line_dependencies (m : manifest) (line value : str) :
  _parse_mod_kv line = Some (py "dependencies", value) →
  dependencies (manifest_line m line) = parse_dependencies value.
Proof. intros H. unfold manifest_line. by rewrite H. Qed.

(** C9 (as amended).  On a [dependencies] line the parsed list is the trimmed
    value without its leading and trailing braces, split on commas, without
    the pieces whose trimmed text is empty, each remaining piece trimmed and
    stripped of its double quotes.  The emptiness test comes before the quote
    stripping: a piece made of double quotes only is kept and gives an empty
    name, and an empty name has no other origin. *)
Theorem dependencies_line_names (m : manifest) (line value : str) :
  _parse_mod_kv line = Some (py "dependencies", value) →
  let pieces := split COMMA (strip_chars (py "{}") (strip value)) in
  let names := dependencies (manifest_line m line) in
  names = map (λ piece, strip_chars [DQUOTE] (strip piece))
              (filter (λ piece, strip piece ≠ []) pieces)
  ∧ (∀ piece, piece ∈ pieces → strip piece ≠ [] →
       Forall (λ c, c = DQUOTE) (strip piece) → [] ∈ names)
  ∧ (∀ dep, dep ∈ names → dep = [] →
       ∃ piece, piece ∈ pieces ∧ strip piece ≠ []
                ∧ Forall (λ c, c = DQUOTE) (strip piece)).
Proof.
  intros Hkv pieces names.
  assert (Hnames : names = map (λ piece, strip_chars [DQUOTE] (strip piece))
                               (filter (λ piece, strip piece ≠ []) pieces)).
  { unfold names. by rewrite (manifest_line_dependencies m line value). }
  assert (Hquote : ∀ t : str,
    strip_chars [DQUOTE] t = [] ↔ Forall (λ c, c = DQUOTE) t).
  { intros t. unfold strip_chars. rewrite strip_by_nil.
    apply Forall_iff. intros c. unfold char_in.
    rewrite bool_decide_eq_true, list_elem_of_singleton. done. }
  split; [done|]. split.
  - intros piece Hin Hne Hall. rewrite Hnames.
    apply list_elem_of_fmap. exists piece. split.
    + symmetry. by apply Hquote.
    + by apply list_elem_of_filter.
  - intros dep Hdep ->. rewrite Hnames in Hdep.
    apply list_elem_of_fmap in Hdep as (piece & Hempty & Hin).
    apply list_elem_of_filter in Hin as [Hne Hin].
    exists piece. split_and!; [done..|]. by apply Hquote.
Qed.

Lemma dependencies_line_names_witness :
  _parse_mod_kv quoted_empty_line = Some (py "dependencies", quoted_empty_value)
  ∧ [] ∈ dependencies (manifest_line empty_manifest quoted_empty_line).
Proof.
  assert (Hkv : _parse_mod_kv quoted_empty_line
                = Some (py "dependencies", quoted_empty_value))
    by (vm_compute; reflexivity).
  split; [exact Hkv|].
  destruct (dependencies_line_names empty_manifest _ _ Hkv) as (_ & Hkeep & _).
  apply (Hkeep [DQUOTE; DQUOTE]).
  - vm_compute. apply list_elem_of_here.
  - vm_compute. discriminate.
  - vm_compute. repeat constructor.
Defined.

(** C9 (as stated) fails: the [dependencies] line that lists an empty quoted
    name and [A] gives a list that contains the empty name. *)
Lemma dependencies_line_empty_name :
  ¬ (∀ (m : manifest) (line value : str),
       _parse_mod_kv line = Some (py "dependencies", value) →
       [] ∉ dependencies (manifest_line m line)).
Proof.
  intros H.
  apply (H empty_manifest quoted_empty_line quoted_empty_value).
  - vm_compute. reflexivity.
  - assert (dependencies (manifest_line empty_manifest quoted_empty_line)
            = [[]; py "A"]) as -> by (vm_compute; reflexivity).
    apply list_elem_of_here.
Qed.

(** ** Conflict-file parser *)

Lemma balance_sum_cons (line : str) (lines : list str) :
  balance_sum (line :: lines) = balance line + balance_sum lines.
Proof. done. Qed.

Lemma continuation_cons (line : str) (lines : list str) :
  continuation (line :: lines) = LF :: line ++ continuation lines.
Proof. done. Qed.

(** The inner loop consumes [k] lines, where [k] is the first count at which
    the running balance is no longer positive, or all the lines. *)
Lemma read_block_spec (rest : list str) (k i : nat) (value : str) (depth : Z) :
  (k ≤ length rest)%nat →
  (∀ j, (j < k)%nat → 0 < depth + balance_sum (take j rest)) →
  (k = length rest ∨ depth + balance_sum (take k rest) ≤ 0) →
  read_block rest i value depth
  = ((i + k)%nat, value ++ continuation (take k rest),
     depth + balance_sum (take k rest)).
Proof.
  revert k i value depth.
  induction rest as [|next_line rest IH]; intros k i value depth Hk Hpos Hend.
  - assert (k = 0)%nat as -> by (simpl in Hk; lia). simpl.
    by rewrite Nat.add_0_r, app_nil_r, Z.add_0_r.
  - destruct k as [|k].
    + simpl. destruct Hend as [Hend|Hend]; [done|].
      simpl in Hend. rewrite Z.add_0_r in Hend.
      rewrite (proj2 (Z.ltb_ge 0 depth)) by done.
      by rewrite Nat.add_0_r, app_nil_r, Z.add_0_r.
    + pose proof (Hpos 0%nat ltac:(lia)) as H0. simpl in H0.
      rewrite Z.add_0_r in H0.
      cbn [read_block]. rewrite (proj2 (Z.ltb_lt 0 depth)) by done.
      fold (balance next_line).
      rewrite (IH k); cbn [take length] in *.
      * rewrite balance_sum_cons, continuation_cons.
        f_equal; [f_equal; [lia|]|lia].
        by rewrite <-app_assoc.
      * lia.
      * intros j Hj. specialize (Hpos (S j) ltac:(lia)).
        cbn [take] in Hpos. rewrite balance_sum_cons in Hpos. lia.
      * destruct Hend as [Hend|Hend]; [left; lia|right].
        rewrite balance_sum_cons in Hend. lia.
Qed.

(** Such a [k] always exists. *)
Lemma read_block_consumes (rest : list str) (i : nat) (value : str) (depth : Z) :
  ∃ k, (k ≤ length rest)%nat
       ∧ (∀ j, (j < k)%nat → 0 < depth + balance_sum (take j rest))
       ∧ (k = length rest ∨ depth + balance_sum (take k rest) ≤ 0)
       ∧ read_block rest i value depth
         = ((i + k)%nat, value ++ continuation (take k rest),
            depth + balance_sum (take k rest)).
Proof.
  assert (∃ k, (k ≤ length rest)%nat
       ∧ (∀ j, (j < k)%nat → 0 < depth + balance_sum (take j rest))
       ∧ (k = length rest ∨ depth + balance_sum (take k rest) ≤ 0))
    as (k & Hk & Hpos & Hend).
  { revert depth. induction rest as [|next_line rest IH]; intros depth.
    - exists 0%nat. split_and!; [done|lia|by left].
    - destruct (decide (0 < depth)) as [Hd|Hd].
      + destruct (IH (depth + balance next_line)) as (k & Hk & Hpos & Hend).
        exists (S k). cbn [take length]. split_and!.
        * lia.
        * intros [|j] Hj; cbn [take].
          -- simpl. lia.
          -- rewrite balance_sum_cons. specialize (Hpos j ltac:(lia)). lia.
        * rewrite balance_sum_cons.
          destruct Hend as [->|Hend]; [by left|right; lia].
      + exists 0%nat. split_and!; [simpl; lia|lia|right; simpl; lia]. }
  exists k. split_and!; [done..|]. by apply read_block_spec.
Qed.

(** The reference parser, one line at a time. *)
Lemma parse_lines_cons (line : str) (rest : list str) :
  parse_lines (line :: rest)
  = if skipped line then parse_lines rest
    else if contains LBRACE (line_value line) then
      let '(n, value, _) :=
        read_block rest 0 (line_value line) (balance (line_value line)) in
      (line_key line, strip value) :: parse_lines (drop n rest)
    else (line_key line, line_value line) :: parse_lines rest.
Proof.
  cbn [parse_lines].
  destruct (skipped line); [done|].
  destruct (contains LBRACE (line_value line)); [|done].
  generalize (line_value line) at 1 3 as value.
  generalize (balance (line_value line)) as depth.
  assert (∀ (i : nat) depth value,
    (fix block (rest0 : list str) (value0 : str) (depth0 : Z) {struct rest0}
         : list (str * str) :=
       match rest0 with
       | [] => [(line_key line, strip value0)]
       | next_line :: rest' =>
           if 0 <? depth0
           then block rest' (value0 ++ LF :: next_line) (depth0 + balance next_line)
           else (line_key line, strip value0) :: parse_lines rest0
       end) rest value depth
    = (let '(n, value1, _) := read_block rest i value depth in
       (line_key line, strip value1) :: parse_lines (drop (n - i) rest))) as Haux.
  { induction rest as [|next_line rest IH]; intros i depth value.
    - cbn. by rewrite drop_nil.
    - cbn [read_block]. fold (balance next_line).
      destruct (0 <? depth) eqn:Hd.
      + rewrite (IH (S i)).
        destruct (read_block rest (S i) _ _) as [[n value1] depth1] eqn:Hrb.
        destruct (read_block_consumes rest (S i) (value ++ LF :: next_line)
                    (depth + balance next_line)) as (k & _ & _ & _ & Hk).
        rewrite Hrb in Hk. injection Hk as -> _ _.
        do 2 f_equal.
        replace (S (i + k) - i)%nat with (S (S (i + k) - S i)) by lia.
        done.
      + by rewrite Nat.sub_diag. }
  intros depth value. rewrite (Haux 0%nat).
  destruct (read_block rest 0 value depth) as [[n value1] depth1].
  by rewrite Nat.sub_0_r.
Qed.

(** One turn of the outer loop consumes the line at [i] and, for a block,
    the lines of the block; it appends what the reference parser finds
    there. *)
Lemma parse_line_spec (lines : list str) (line : str) (st : parser_state) :
  lines !! ps_i st = Some line →
  ∃ (n : nat) (new : list (str * str)),
    (ps_i st + 1 + n ≤ length lines)%nat
    ∧ parse_line lines line st
      = ParserState (ps_i st + 1 + n) (ps_pairs st ++ new)
    ∧ parse_lines (drop (ps_i st) lines)
      = new ++ parse_lines (drop (ps_i st + 1 + n) lines).
Proof.
  destruct st as [i pairs]. cbn [ps_i ps_pairs]. intros Hline.
  pose proof (lookup_lt_Some _ _ _ Hline) as Hi.
  rewrite (drop_S _ _ _ Hline), parse_lines_cons.
  unfold parse_line, skipped, line_key, line_value. cbn [ps_i ps_pairs].
  replace (S i) with (i + 1)%nat by lia.
  destruct (bool_decide (strip line = []) || startswith (strip line) (py "#")).
  { exists 0%nat, []. rewrite Nat.add_0_r, app_nil_r. split_and!; [lia|done..]. }
  destruct (contains EQUALS (strip line)); cbn [negb orb]; last first.
  { exists 0%nat, []. rewrite Nat.add_0_r, app_nil_r. split_and!; [lia|done..]. }
  destruct (split_once EQUALS (strip line)) as [key value]. cbn [fst snd].
  destruct (contains LBRACE (strip value)).
  - fold (balance (strip value)).
    destruct (read_block_consumes (drop (i + 1) lines) i (strip value)
                (balance (strip value))) as (k & Hk & Hpos & Hend & ->).
    rewrite (read_block_spec _ k 0) by done.
    rewrite length_drop in Hk.
    exists k, [(strip key, strip (strip value ++ continuation (take k (drop (i + 1) lines))))].
    split_and!; [lia| |].
    + f_equal. lia.
    + cbn [app]. rewrite drop_drop. do 3 f_equal.
  - exists 0%nat, [(strip key, strip value)].
    rewrite Nat.add_0_r. split_and!; [lia|done..].
Qed.

(** The loop, started anywhere, ends at the last line with the entries of
    the reference parser for the remaining lines appended. *)
Lemma parse_loop_spec (lines : list str) (fuel : nat) (st : parser_state) :
  (ps_i st ≤ length lines)%nat →
  (length lines - ps_i st ≤ fuel)%nat →
  while_loop fuel (λ st, bool_decide (ps_i st < length lines)%nat)
             (parse_body lines) st
  = Return (ParserState (length lines)
              (ps_pairs st ++ parse_lines (drop (ps_i st) lines))).
Proof.
  revert st. induction fuel as [|fuel IH]; intros st Hle Hfuel.
  - rewrite while_loop_exit by (apply bool_decide_eq_false; lia).
    assert (ps_i st = length lines) as Hi by lia.
    rewrite Hi, drop_all, app_nil_r. destruct st; simpl in *; by subst.
  - destruct (decide (ps_i st < length lines)%nat) as [Hlt|Hge].
    + rewrite while_loop_turn by (by apply bool_decide_eq_true).
      destruct (lookup_lt_is_Some_2 lines (ps_i st) Hlt) as [line Hline].
      assert (parse_body lines st = Return (parse_line lines line st)) as ->
        by (unfold parse_body; by rewrite Hline).
      cbn [mbind outcome_bind].
      destruct (parse_line_spec lines line st Hline) as (n & new & Hn & -> & ->).
      rewrite IH; cbn [ps_i ps_pairs]; [|lia..].
      by rewrite <-app_assoc.
    + rewrite while_loop_exit by (by apply bool_decide_eq_false).
      assert (ps_i st = length lines) as Hi by lia.
      rewrite Hi, drop_all, app_nil_r. destruct st; simpl in *; by subst.
Qed.

(** The parser returns, on every text, the entries of the reference parser:
    it neither raises nor runs out of turns. *)
Lemma parse_event_modifiers_total (content : str) :
  _parse_event_modifiers_content content
  = Return (parse_lines (splitlines content)).
Proof.
  unfold _parse_event_modifiers_content.
  rewrite parse_loop_spec; cbn [ps_i ps_pairs]; [|lia..].
  by rewrite drop_0.
Qed.

(** In a state reached by the loop, the entries found so far followed by the
    entries of the remaining lines are the entries of the whole text. *)
Lemma parser_reaches_spec (lines : list str) (st : parser_state) :
  parser_reaches lines st →
  (ps_i st ≤ length lines)%nat
  ∧ parse_lines lines = ps_pairs st ++ parse_lines (drop (ps_i st) lines).
Proof.
  unfold parser_reaches. revert st. apply rtc_ind_r.
  - simpl. split; [lia|by rewrite drop_0].
  - intros st' st'' _ (line & Hline & ->) [IHle IHeq].
    destruct (parse_line_spec lines line st' Hline) as (n & new & Hn & -> & Hnew).
    cbn [ps_i ps_pairs]. split; [done|].
    by rewrite IHeq, Hnew, app_assoc.
Qed.

Lemma count_nonneg (c : char) (s : str) : 0 ≤ count c s.
Proof. induction s as [|d s IH]; simpl; [done|]. destruct (c =? d)%N; lia. Qed.

Lemma count_pos_contains (c : char) (s : str) :
  0 < count c s → contains c s = true.
Proof.
  unfold contains. rewrite bool_decide_eq_true.
  induction s as [|d s IH]; simpl; [lia|].
  destruct (N.eqb_spec c d) as [->|Hne]; [left|right; apply IH; lia].
Qed.

Lemma balance_pos_contains (value : str) :
  0 < balance value → contains LBRACE value = true.
Proof.
  intros H. apply count_pos_contains. unfold balance in H.
  pose proof (count_nonneg RBRACE value). lia.
Qed.

(** The turn of the outer loop on a line that is passed over. *)
Lemma parse_line_skipped (lines : list str) (line : str) (st : parser_state) :
  skipped line = true →
  parse_line lines line st = ParserState (ps_i st + 1) (ps_pairs st).
Proof.
  unfold skipped, parse_line. intros H.
  destruct (bool_decide (strip line = []) || startswith (strip line) (py "#"));
    [done|].
  cbn [orb] in H. by rewrite H.
Qed.

(** The turn of the outer loop on a line that opens a block: [block] are the
    lines it consumes, up to the line that brings the balance to zero or
    below, or up to the end of the text. *)
Lemma parse_line_block (lines : list str) (line : str) (st : parser_state)
    (block tail : list str) :
  skipped line = false →
  contains LBRACE (line_value line) = true →
  drop (ps_i st + 1) lines = block ++ tail →
  (∀ j, (j < length block)%nat →
        0 < balance (line_value line) + balance_sum (take j block)) →
  tail = [] ∨ balance (line_value line) + balance_sum block ≤ 0 →
  parse_line lines line st
  = ParserState (ps_i st + 1 + length block)
      (ps_pairs st
       ++ [(line_key line, strip (line_value line ++ continuation block))]).
Proof.
  unfold skipped, parse_line, line_key, line_value.
  intros Hskip Hbrace Hdrop Hpos Hend.
  destruct (bool_decide (strip line = []) || startswith (strip line) (py "#"));
    [done|].
  cbn [orb] in Hskip. rewrite Hskip.
  destruct (split_once EQUALS (strip line)) as [key value]. cbn [fst snd] in *.
  rewrite Hbrace, Hdrop. fold (balance (strip value)).
  rewrite (read_block_spec _ (length block)).
  - rewrite take_app_length. f_equal. lia.
  - rewrite length_app. lia.
  - intros j Hj. rewrite take_app_le by lia. by apply Hpos.
  - rewrite take_app_length. destruct Hend as [->|Hend]; [left|by right].
    by rewrite app_nil_r.
Qed.

(** C6.  The text [foo={], [a=1], [}], [bar=2] parses to the two entries
    [foo] (with the three-line value) and [bar].  In general, at a line that
    is blank, starts with [#] or has no [=], the loop moves to the next line
    and records nothing; at a [key=value] line whose trimmed value has more
    opening than closing braces, it appends the following raw lines to the
    value, each after a newline, as long as the running balance is positive,
    records the (trimmed) result under the key, and goes on after the
    block. *)
Theorem parse_brace_blocks :
  _parse_event_modifiers_content block_example
  = Return [(py "foo", py "{" ++ [LF] ++ py "a=1" ++ [LF] ++ py "}");
            (py "bar", py "2")]
  ∧ ∀ (content : str) (st : parser_state) (line : str),
      let lines := splitlines content in
      parser_reaches lines st →
      lines !! ps_i st = Some line →
      (skipped line = true →
         parser_step lines st (ParserState (ps_i st + 1) (ps_pairs st)))
      ∧ (skipped line = false →
         0 < balance (line_value line) →
         ∀ block tail : list str,
           drop (ps_i st + 1) lines = block ++ tail →
           (∀ j, (j < length block)%nat →
                 0 < balance (line_value line) + balance_sum (take j block)) →
           balance (line_value line) + balance_sum block ≤ 0 →
           let entry :=
             (line_key line, strip (line_value line ++ continuation block)) in
           parser_step lines st
             (ParserState (ps_i st + 1 + length block) (ps_pairs st ++ [entry]))
           ∧ ∃ later, _parse_event_modifiers_content content
                      = Return (ps_pairs st ++ entry :: later)).
Proof.
  split; [by vm_compute|].
  intros content st line lines Hreach Hline. split.
  - intros Hskip. exists line. split; [done|]. by rewrite parse_line_skipped.
  - intros Hskip Hbal block tail Hdrop Hpos Hend entry.
    assert (Hstep : parser_step lines st
      (ParserState (ps_i st + 1 + length block) (ps_pairs st ++ [entry]))).
    { exists line. split; [done|]. symmetry.
      apply (parse_line_block _ _ _ block tail); auto using balance_pos_contains. }
    split; [done|].
    assert (Hreach' : parser_reaches lines
      (ParserState (ps_i st + 1 + length block) (ps_pairs st ++ [entry])))
      by (eapply rtc_r; eauto).
    apply parser_reaches_spec in Hreach' as [_ Heq]. cbn [ps_i ps_pairs] in Heq.
    eexists. rewrite parse_event_modifiers_total. fold lines.
    rewrite Heq, <-app_assoc. done.
Qed.

Lemma parse_brace_blocks_witness :
  let lines := splitlines block_example in
  parser_reaches lines (ParserState 0 [])
  ∧ lines !! 0%nat = Some (py "foo={")
  ∧ parser_step lines (ParserState 0 [])
      (ParserState 3 [(py "foo", py "{" ++ [LF] ++ py "a=1" ++ [LF] ++ py "}")]).
Proof.
  intros lines.
  assert (Hreach : parser_reaches lines (ParserState 0 [])) by apply rtc_refl.
  assert (Hline : lines !! ps_i (ParserState 0 []) = Some (py "foo={"))
    by (vm_compute; reflexivity).
  split; [exact Hreach|]. split; [exact Hline|].
  destruct (proj2 parse_brace_blocks block_example (ParserState 0 [])
              (py "foo={") Hreach Hline) as [_ Hblock].
  destruct (Hblock ltac:(vm_compute; reflexivity) ltac:(vm_compute; reflexivity)
              [py "a=1"; py "}"] [py "bar=2"]) as [Hstep _].
  - vm_compute. reflexivity.
  - intros [|[|j]] Hj; [vm_compute; reflexivity..|simpl in Hj; lia].
  - vm_compute. discriminate.
  - exact Hstep.
Defined.

(** C7.  When the text ends while the balance of a block is still positive,
    the parser returns: the entries found before the block, followed by the
    entry of the block, whose value is the opening value with all the
    remaining lines appended (and trimmed). *)
Theorem parse_open_block (content : str) (st : parser_state) (line : str) :
  let lines := splitlines content in
  let rest := drop (ps_i st + 1) lines in
  parser_reaches lines st →
  lines !! ps_i st = Some line →
  skipped line = false →
  contains LBRACE (line_value line) = true →
  (∀ j, (j ≤ length rest)%nat →
        0 < balance (line_value line) + balance_sum (take j rest)) →
  _parse_event_modifiers_content content
  = Return (ps_pairs st
            ++ [(line_key line, strip (line_value line ++ continuation rest))]).
Proof.
  intros lines rest Hreach Hline Hskip Hbrace Hpos.
  assert (Hstep : parser_step lines st
    (ParserState (ps_i st + 1 + length rest)
       (ps_pairs st
        ++ [(line_key line, strip (line_value line ++ continuation rest))]))).
  { exists line. split; [done|]. symmetry.
    apply (parse_line_block _ _ _ rest []); auto.
    - by rewrite app_nil_r.
    - intros j Hj. apply Hpos. lia. }
  assert (Hreach' : parser_reaches lines
    (ParserState (ps_i st + 1 + length rest)
       (ps_pairs st
        ++ [(line_key line, strip (line_value line ++ continuation rest))])))
    by (eapply rtc_r; eauto).
  apply parser_reaches_spec in Hreach' as [_ Heq]. cbn [ps_i ps_pairs] in Heq.
  rewrite parse_event_modifiers_total. fold lines. rewrite Heq.
  rewrite drop_ge, app_nil_r; [done|].
  unfold rest. rewrite length_drop.
  pose proof (lookup_lt_Some _ _ _ Hline). lia.
Qed.

Lemma parse_open_block_witness :
  _parse_event_modifiers_content open_block_example
  = Return [(py "bar", py "2"); (py "foo", py "{" ++ [LF] ++ py " a=1")].
Proof.
  assert (Hreach : parser_reaches (splitlines open_block_example)
                     (ParserState 2 [(py "bar", py "2")])).
  { eapply rtc_l; [exists (py "# taxes"); split; vm_compute; reflexivity|].
    eapply rtc_l; [exists (py "bar=2"); split; vm_compute; reflexivity|].
    apply rtc_refl. }
  apply (parse_open_block open_block_example _ (py "foo={") Hreach).
  - vm_compute. reflexivity.
  - vm_compute. reflexivity.
  - vm_compute. reflexivity.
  - intros [|[|j]] Hj; [vm_compute; reflexivity..|].
    exfalso. vm_compute in Hj. lia.
Defined.

(** ** Merge engine *)

(** *** First appearance and last value *)

Lemma first_appearance_elem_of (k : str) (keys : list str) :
  k ∈ first_appearance keys ↔ k ∈ keys.
Proof.
  induction keys as [|x keys IH]; simpl; [done|].
  rewrite !elem_of_cons, list_elem_of_filter, IH.
  destruct (decide (k = x)); tauto.
Qed.

(** A key that comes after [keys] takes the last place if it is new, and
    changes nothing otherwise. *)
Lemma first_appearance_snoc (keys : list str) (k : str) :
  first_appearance (keys ++ [k])
  = if bool_decide (k ∈ first_appearance keys) then first_appearance keys
    else first_appearance keys ++ [k].
Proof.
  induction keys as [|x keys IH]; cbn [first_appearance app].
  - done.
  - rewrite IH. destruct (decide (k = x)) as [->|Hne].
    + rewrite (bool_decide_eq_true_2 (x ∈ x :: _)) by left.
      case_bool_decide; [done|].
      rewrite filter_app, filter_cons_False, filter_nil, app_nil_r; tauto.
    + case_bool_decide as Hin.
      * rewrite bool_decide_eq_true_2; [done|].
        right. rewrite list_elem_of_filter. done.
      * rewrite bool_decide_eq_false_2.
        -- rewrite filter_app, filter_cons_True, filter_nil; done.
        -- rewrite elem_of_cons, list_elem_of_filter. tauto.
Qed.

Lemma first_appearance_app_prefix (keys keys' : list str) :
  first_appearance keys `prefix_of` first_appearance (keys ++ keys').
Proof.
  induction keys' as [|k keys' IH] using rev_ind.
  - by rewrite app_nil_r.
  - rewrite app_assoc, first_appearance_snoc.
    case_bool_decide; [done|]. by apply prefix_app_r.
Qed.

Lemma last_value_snoc (key k v : str) (entries : list (str * str)) :
  last_value key (entries ++ [(k, v)])
  = if bool_decide (k = key) then Some v else last_value key entries.
Proof.
  unfold last_value. rewrite filter_app.
  case_bool_decide as Hk.
  - rewrite filter_cons_True, filter_nil by done. by rewrite last_snoc.
  - rewrite filter_cons_False, filter_nil, app_nil_r by done. done.
Qed.

(** In a concatenation the later part decides, when it has the key. *)
Lemma last_value_app (key : str) (entries entries' : list (str * str)) :
  last_value key (entries ++ entries')
  = match last_value key entries' with
    | Some v => Some v
    | None => last_value key entries
    end.
Proof.
  induction entries' as [|[k v] entries' IH] using rev_ind.
  - by rewrite app_nil_r.
  - rewrite app_assoc, !last_value_snoc. case_bool_decide; [done|apply IH].
Qed.

Lemma last_value_is_Some (key : str) (entries : list (str * str)) :
  is_Some (last_value key entries) ↔ key ∈ entries.*1.
Proof.
  induction entries as [|[k v] entries IH] using rev_ind.
  - split; [by intros [? ?]|by intros ?%elem_of_nil].
  - rewrite last_value_snoc, fmap_app, elem_of_app, <-IH. simpl.
    rewrite list_elem_of_singleton.
    case_bool_decide as Hk.
    + split; [by intros _; right|by eauto].
    + split; [by left|]. intros [?|?]; [done|congruence].
Qed.

(** *** The entry loop *)

Lemma foldl_merge_entry_order (st : merge_state) (entries : list (str * str)) :
  merged_order st = [] →
  merged_order (foldl merge_entry st entries) = first_appearance (entries.*1).
Proof.
  intros Hst. induction entries as [|[k v] entries IH] using rev_ind.
  - done.
  - rewrite foldl_app, fmap_app. cbn [fmap list_fmap fst foldl merge_entry].
    rewrite first_appearance_snoc. cbn [merged_order]. by rewrite IH.
Qed.

Lemma foldl_merge_entry_values (st : merge_state) (entries : list (str * str))
    (key : str) :
  merged_values (foldl merge_entry st entries) !! key
  = match last_value key entries with
    | Some v => Some v
    | None => merged_values st !! key
    end.
Proof.
  induction entries as [|[k v] entries IH] using rev_ind.
  - done.
  - rewrite foldl_app, last_value_snoc. simpl.
    case_bool_decide as Hk.
    + subst. by rewrite lookup_insert_eq.
    + by rewrite lookup_insert_ne.
Qed.

(** *** Rendering *)

Lemma render_spec (entries : list (str * str)) :
  render (foldl merge_entry (MergeState ∅ []) entries)
  = Return (merged_text entries).
Proof.
  unfold render, merged_text.
  rewrite foldl_merge_entry_order by done.
  set (st := foldl merge_entry (MergeState ∅ []) entries).
  assert (Hloop : ∀ keys acc,
    (∀ key, key ∈ keys → key ∈ entries.*1) →
    for_each (λ output_lines key,
                val ← getitem (merged_values st) key;
                Return (output_lines ++ [key ++ EQUALS :: val ++ [LF]]))
             acc keys
    = Return (acc ++ map (λ key, key ++ EQUALS
                                 :: default [] (last_value key entries) ++ [LF])
                         keys)).
  { induction keys as [|key keys IH]; intros acc Hkeys; simpl.
    - by rewrite app_nil_r.
    - destruct (proj2 (last_value_is_Some key entries)) as [v Hv].
      { apply Hkeys. left. }
      assert (getitem (merged_values st) key = Return v) as ->.
      { unfold getitem, st. by rewrite foldl_merge_entry_values, Hv. }
      cbn [mbind outcome_bind].
      rewrite IH by (intros; apply Hkeys; by right).
      by rewrite Hv, <-app_assoc. }
  rewrite Hloop by (intros key; apply first_appearance_elem_of). done.
Qed.

Section merge_proofs.
Variable mod_files : gmap str mod_record.
Variable os_path_join : list str → str.
Variable read_text : str → option str.
Variable mod_folder : str.

#[local] Abbreviation known := (λ mod_name : str, is_Some (mod_files !! mod_name)).
#[local] Abbreviation entries_of := (all_entries mod_files os_path_join read_text mod_folder).
#[local] Abbreviation merge_loop := (merge_mods mod_files os_path_join read_text mod_folder).

(** One turn of the mod loop merges the entries of the mod, which are none
    when its file cannot be read. *)
Lemma merge_mod_known (st : merge_state) (mod_name : str) :
  known mod_name →
  merge_mod mod_files os_path_join read_text mod_folder st mod_name
  = Return (foldl merge_entry st
              (mod_entries mod_files os_path_join read_text mod_folder mod_name)).
Proof.
  intros [rec Hrec]. unfold merge_mod, mod_entries, mod_content, getitem.
  rewrite Hrec. cbn [mbind outcome_bind option_bind].
  destruct (read_text _) as [content|]; [|done].
  by rewrite parse_event_modifiers_total.
Qed.

Lemma merge_mods_from (st : merge_state) (ordered_mod_names : list str) :
  Forall known ordered_mod_names →
  for_each (merge_mod mod_files os_path_join read_text mod_folder) st
           ordered_mod_names
  = Return (foldl merge_entry st (entries_of ordered_mod_names)).
Proof.
  revert st. induction ordered_mod_names as [|mod_name names IH];
    intros st Hknown; [done|].
  apply Forall_cons in Hknown as [Hname Hnames].
  cbn [for_each]. rewrite merge_mod_known by done. cbn [mbind outcome_bind].
  rewrite IH by done. unfold all_entries. cbn [map concat].
  by rewrite foldl_app.
Qed.

Lemma merge_mods_spec (ordered_mod_names : list str) :
  Forall known ordered_mod_names →
  merge_loop ordered_mod_names
  = Return (foldl merge_entry (MergeState ∅ []) (entries_of ordered_mod_names)).
Proof. apply merge_mods_from. Qed.

Lemma merge_spec (ordered_mod_names : list str) :
  Forall known ordered_mod_names →
  _merge_event_modifiers_from_paths mod_files os_path_join read_text mod_folder
    ordered_mod_names
  = Return (merged_text (entries_of ordered_mod_names)).
Proof.
  intros Hknown. unfold _merge_event_modifiers_from_paths.
  rewrite merge_mods_spec by done. apply render_spec.
Qed.

(** A mod whose read fails has no entries. *)
Lemma all_entries_skip_unreadable (ordered_mod_names : list str) :
  entries_of (filter (λ mod_name,
                        ¬ read_fails mod_files os_path_join read_text mod_folder
                            mod_name) ordered_mod_names)
  = entries_of ordered_mod_names.
Proof.
  unfold all_entries.
  induction ordered_mod_names as [|mod_name names IH]; [done|].
  rewrite filter_cons. case_decide as Hfail; cbn [map concat].
  - by rewrite IH.
  - destruct Hfail as [_ Hnone].
    unfold mod_entries at 2. by rewrite Hnone, IH.
Qed.

(** C2.  The merge of known mods returns.  The value recorded for a key is
    the value of the last entry with that key in the concatenation of the
    mods' entry sequences, the text has that value on the key's line, and the
    last mod of the order that has the key decides, whichever mods have it
    before. *)
Theorem merge_last_writer_wins (ordered_mod_names : list str) :
  Forall known ordered_mod_names →
  ∃ st, merge_loop ordered_mod_names = Return st
    ∧ (∀ key, merged_values st !! key
              = last_value key (entries_of ordered_mod_names))
    ∧ _merge_event_modifiers_from_paths mod_files os_path_join read_text
        mod_folder ordered_mod_names
      = Return (merged_text (entries_of ordered_mod_names))
    ∧ (∀ (earlier : list str) (B : str) (later : list str) (key v : str),
         ordered_mod_names = earlier ++ B :: later →
         last_value key
           (mod_entries mod_files os_path_join read_text mod_folder B) = Some v →
         Forall (λ C, key ∉ (mod_entries mod_files os_path_join read_text
                               mod_folder C).*1) later →
         merged_values st !! key = Some v).
Proof.
  intros Hknown. eexists. split; [by apply merge_mods_spec|].
  assert (Hvalues : ∀ key,
    merged_values (foldl merge_entry (MergeState ∅ [])
                     (entries_of ordered_mod_names)) !! key
    = last_value key (entries_of ordered_mod_names)).
  { intros key. rewrite foldl_merge_entry_values. cbn [merged_values].
    rewrite lookup_empty. by destruct (last_value _ _). }
  split; [done|]. split; [by apply merge_spec|].
  intros earlier B later key v -> HB Hlater. rewrite Hvalues.
  unfold all_entries. rewrite map_app, concat_app. cbn [map concat].
  rewrite !last_value_app.
  assert (last_value key (entries_of later) = None) as Hnone.
  { apply eq_None_not_Some. rewrite last_value_is_Some.
    unfold all_entries. clear -Hlater.
    induction Hlater as [|C later HC _ IH]; cbn [map concat].
    - apply not_elem_of_nil.
    - rewrite fmap_app, elem_of_app. tauto. }
  unfold all_entries in Hnone. by rewrite Hnone, HB.
Qed.

(** C3.  The merge of known mods returns.  The keys of the merged document
    are the distinct keys of the concatenated entry sequences in the order of
    their first appearance, and the text has one line per key in that order.
    An entry for a key already present leaves the key order as it is, and
    merging further mods only adds keys at the end. *)
Theorem merge_key_order (ordered_mod_names : list str) :
  Forall known ordered_mod_names →
  ∃ st, merge_loop ordered_mod_names = Return st
    ∧ merged_order st = first_appearance (entries_of ordered_mod_names).*1
    ∧ _merge_event_modifiers_from_paths mod_files os_path_join read_text
        mod_folder ordered_mod_names
      = Return (merged_text (entries_of ordered_mod_names))
    ∧ (∀ key value, key ∈ merged_order st →
         merged_order (merge_entry st (key, value)) = merged_order st)
    ∧ (∀ more, Forall known more →
         ∃ st', merge_loop (ordered_mod_names ++ more) = Return st'
                ∧ merged_order st `prefix_of` merged_order st').
Proof.
  intros Hknown. eexists. split; [by apply merge_mods_spec|].
  split; [by apply foldl_merge_entry_order|].
  split; [by apply merge_spec|]. split.
  - intros key value Hkey. cbn [merge_entry merged_order].
    by rewrite bool_decide_eq_true_2.
  - intros more Hmore. eexists. split.
    + apply merge_mods_spec. by apply Forall_app.
    + rewrite !foldl_merge_entry_order by done.
      unfold all_entries. rewrite map_app, concat_app, fmap_app.
      apply first_appearance_app_prefix.
Qed.

(** C8.  The merge of known mods returns even when the conflict-file of some
    of them cannot be read, and its result is the result of the merge of the
    list without those mods: the text made from the entries of the readable
    mods, in their order. *)
Theorem merge_skips_unreadable (ordered_mod_names : list str) :
  Forall known ordered_mod_names →
  let readable :=
    filter (λ mod_name,
              ¬ read_fails mod_files os_path_join read_text mod_folder mod_name)
           ordered_mod_names in
  ∃ text,
    _merge_event_modifiers_from_paths mod_files os_path_join read_text
      mod_folder ordered_mod_names = Return text
    ∧ _merge_event_modifiers_from_paths mod_files os_path_join read_text
        mod_folder readable = Return text
    ∧ text = merged_text (entries_of readable).
Proof.
  intros Hknown readable. eexists. split; [by apply merge_spec|].
  assert (Forall known readable) as Hreadable.
  { rewrite Forall_forall in Hknown. apply Forall_forall.
    intros mod_name [_ Hin]%list_elem_of_filter. by apply Hknown. }
  unfold readable in *.
  rewrite merge_spec by done. by rewrite all_entries_skip_unreadable.
Qed.
End merge_proofs.

Lemma example_mods_known :
  Forall (λ mod_name, is_Some (example_mod_files !! mod_name))
         [py "A"; py "B"; py "C"].
Proof.
  repeat (apply List.Forall_cons; [vm_compute; eexists; reflexivity|]).
  apply List.Forall_nil.
Defined.

Lemma merge_last_writer_wins_witness :
  ∃ st, merge_mods example_mod_files example_join example_read (py "mod")
          [py "A"; py "B"; py "C"] = Return st
        ∧ merged_values st !! py "trade" = Some (py "7").
Proof.
  destruct (merge_last_writer_wins example_mod_files example_join example_read
              (py "mod") _ example_mods_known) as (st & Hst & _ & _ & Hlast).
  exists st. split; [exact Hst|].
  apply (Hlast [py "A"; py "B"] (py "C") []); [reflexivity|by vm_compute|].
  apply List.Forall_nil.
Defined.

Lemma merge_key_order_witness :
  ∃ st, merge_mods example_mod_files example_join example_read (py "mod")
          [py "A"; py "B"; py "C"] = Return st
        ∧ merged_order st = [py "tax"; py "trade"; py "bonus"].
Proof.
  destruct (merge_key_order example_mod_files example_join example_read
              (py "mod") _ example_mods_known) as (st & Hst & Horder & _).
  exists st. split; [exact Hst|]. rewrite Horder. by vm_compute.
Defined.

Lemma merge_skips_unreadable_witness :
  ∃ text,
    _merge_event_modifiers_from_paths example_mod_files example_join
      example_read (py "mod") [py "A"; py "B"; py "C"] = Return text
    ∧ _merge_event_modifiers_from_paths example_mod_files example_join
        example_read (py "mod") [py "A"; py "C"] = Return text
    ∧ text = py "tax=10" ++ [LF] ++ py "trade=7" ++ [LF] ++ py "bonus=1" ++ [LF].
Proof.
  destruct (merge_skips_unreadable example_mod_files example_join example_read
              (py "mod") _ example_mods_known) as (text & Hall & Hreadable & ->).
  eexists. split; [exact Hall|]. split; [exact Hreadable|]. by vm_compute.
Defined.

(** ** Load-order resolver *)

(** *** Loops that return *)

(** A [while] loop returns, with its invariant, when each turn keeps the
    invariant and lowers a measure that the allowance covers. *)
Lemma while_loop_invariant {S : Type} (I : S → Prop) (μ : S → nat)
    (cond : S → bool) (body : S → outcome S) :
  (∀ s, I s → cond s = true → ∃ s', body s = Return s' ∧ I s' ∧ (μ s' < μ s)%nat) →
  ∀ fuel s, I s → (μ s ≤ fuel)%nat →
    ∃ s', while_loop fuel cond body s = Return s' ∧ I s' ∧ cond s' = false.
Proof.
  intros Hbody. induction fuel as [|fuel IH]; intros s Hs Hfuel.
  - destruct (cond s) eqn:Hc.
    + destruct (Hbody s Hs Hc) as (s' & _ & _ & Hlt). lia.
    + exists s. by rewrite while_loop_exit.
  - destruct (cond s) eqn:Hc.
    + destruct (Hbody s Hs Hc) as (s' & Hs' & HI & Hlt).
      rewrite while_loop_turn, Hs' by done. cbn [mbind outcome_bind].
      apply IH; [done|lia].
    + exists s. by rewrite while_loop_exit.
Qed.

(** *** Occurrences *)

Lemma occurrences_cons (x y : str) (l : list str) :
  occurrences x (y :: l)
  = ((if bool_decide (y = x) then 1 else 0) + occurrences x l)%nat.
Proof.
  unfold occurrences. rewrite filter_cons.
  case_decide; case_bool_decide; done.
Qed.

Lemma occurrences_app (x : str) (l k : list str) :
  occurrences x (l ++ k) = (occurrences x l + occurrences x k)%nat.
Proof. unfold occurrences. by rewrite filter_app, length_app. Qed.

Lemma occurrences_pos (x : str) (l : list str) :
  (0 < occurrences x l)%nat ↔ x ∈ l.
Proof.
  induction l as [|y l IH]; [by split; [inversion 1|inversion 1]|].
  rewrite occurrences_cons, elem_of_cons. case_bool_decide as Hy.
  - subst. split; [by left|lia].
  - rewrite Nat.add_0_l, IH. split; [by right|]. intros [?|?]; [by subst|done].
Qed.

Lemma occurrences_NoDup (x : str) (l : list str) :
  NoDup l → x ∈ l → occurrences x l = 1%nat.
Proof.
  induction 1 as [|y l Hy _ IH]; [by inversion 1|].
  rewrite occurrences_cons, elem_of_cons. case_bool_decide as Hxy.
  - subst. intros _. destruct (occurrences x l) eqn:Ho; [done|].
    exfalso. apply Hy, occurrences_pos. lia.
  - intros [?|Hin]; [by subst|]. by rewrite IH.
Qed.

(** *** The order of [sorted] *)

Lemma str_leb_total (a b : str) : str_leb a b = true ∨ str_leb b a = true.
Proof.
  revert b. induction a as [|c a IH]; intros [|d b]; simpl; auto.
  destruct (N.ltb_spec c d), (N.ltb_spec d c), (N.eqb_spec c d),
    (N.eqb_spec d c); simpl; auto; lia.
Qed.

Lemma str_leb_trans (a b c : str) :
  str_leb a b = true → str_leb b c = true → str_leb a c = true.
Proof.
  revert b c. induction a as [|x a IH]; intros [|y b] [|z c]; simpl; try done.
  destruct (N.ltb_spec x y), (N.ltb_spec y z), (N.ltb_spec x z),
    (N.eqb_spec x y), (N.eqb_spec y z), (N.eqb_spec x z);
    simpl; try done; try lia.
  apply IH.
Qed.

Lemma str_leb_antisym (a b : str) :
  str_leb a b = true → str_leb b a = true → a = b.
Proof.
  revert b. induction a as [|x a IH]; intros [|y b]; simpl; try done.
  destruct (N.ltb_spec x y), (N.ltb_spec y x), (N.eqb_spec x y),
    (N.eqb_spec y x); simpl; try done; try lia.
  intros ??. subst. f_equal. by apply IH.
Qed.

#[global] Instance str_le_total : Total str_le.
Proof. intros a b. apply str_leb_total. Qed.
#[global] Instance str_le_trans : Transitive str_le.
Proof. intros a b c. apply str_leb_trans. Qed.
#[global] Instance str_le_antisym : AntiSymm (=) str_le.
Proof. intros a b. apply str_leb_antisym. Qed.

(** [sorted] gives the one ascending arrangement of its argument. *)
Lemma sorted_spec (l : list str) :
  StronglySorted str_le (sorted l) ∧ sorted l ≡ₚ l
  ∧ ∀ l', StronglySorted str_le l' → l' ≡ₚ l → l' = sorted l.
Proof.
  split_and!.
  - apply StronglySorted_merge_sort; apply _.
  - apply merge_sort_Permutation.
  - intros l' Hsorted Hperm. apply (StronglySorted_unique str_le); [done|..].
    + apply StronglySorted_merge_sort; apply _.
    + unfold sorted. by rewrite Hperm, merge_sort_Permutation.
Qed.

(** *** Finite graphs *)

Lemma tc_tc (R : relation str) (x y : str) : tc (tc R) x y → tc R x y.
Proof. induction 1 as [x y H|x y z H _ IH]; [done|]. by etrans. Qed.

(** In a non-empty finite set in which every node has a successor there is
    a cycle. *)
Lemma no_sink_cycle (n : nat) (R : relation str) (S : list str) :
  (length S ≤ n)%nat → S ≠ [] →
  (∀ x, x ∈ S → ∃ y, y ∈ S ∧ R x y) →
  ∃ c, tc R c c.
Proof.
  revert R S. induction n as [|n IH]; intros R S Hlen Hne Hsucc.
  { destruct S; [done|simpl in Hlen; lia]. }
  destruct S as [|x S0]; [done|]. clear Hne.
  destruct (Hsucc x) as (w & Hw & Hxw); [left|].
  destruct (decide (w = x)) as [->|Hwx]; [exists x; by apply tc_once|].
  set (S' := filter (λ y, y ≠ x) S0).
  assert (HS' : ∀ y, y ∈ S' ↔ y ∈ x :: S0 ∧ y ≠ x).
  { intros y. unfold S'. rewrite list_elem_of_filter, elem_of_cons. tauto. }
  destruct (IH (tc R) S') as [c Hc].
  - pose proof (length_filter (λ y, y ≠ x) S0). simpl in Hlen. unfold S'. lia.
  - intros Hnil. assert (w ∈ S') as Hin by (by apply HS').
    rewrite Hnil in Hin. by apply elem_of_nil in Hin.
  - intros y [Hy Hyx]%HS'. destruct (Hsucc y Hy) as (z & Hz & Hyz).
    destruct (decide (z = x)) as [->|Hzx].
    + exists w. split; [by apply HS'|]. by eapply tc_l; [|apply tc_once].
    + exists z. split; [by apply HS'|by apply tc_once].
  - exists c. by apply tc_tc.
Qed.

Section resolver_proofs.
Variable mod_dependencies : gmap str (list str).
Variable mod_names : list str.

#[local] Abbreviation deps := (candidate_deps mod_dependencies mod_names).
#[local] Abbreviation dependents := (dependents_in mod_dependencies mod_names mod_names).

Lemma candidate_deps_elem_of (m d : str) :
  d ∈ deps m ↔ d ∈ mod_names ∧ d ∈ default [] (mod_dependencies !! m).
Proof. unfold candidate_deps. by rewrite list_elem_of_filter. Qed.

(** *** The maps built before the loop *)

Lemma build_deps_map_lookup (m : str) :
  build_deps_map mod_dependencies mod_names !! m
  = if decide (m ∈ mod_names) then Some (deps m) else None.
Proof.
  assert (Haux : ∀ l (acc : gmap str (list str)),
    foldl (λ deps_map x, <[x := deps x]> deps_map) acc l !! m
    = if decide (m ∈ l) then Some (deps m) else acc !! m).
  { induction l as [|x l IH]; intros acc; cbn [foldl].
    - by rewrite decide_False by apply not_elem_of_nil.
    - rewrite IH. destruct (decide (m ∈ l)) as [Hin|Hin].
      + rewrite decide_True by (by right). done.
      + destruct (decide (m = x)) as [->|Hne].
        * rewrite decide_True by left. by rewrite lookup_insert_eq.
        * rewrite decide_False by (rewrite elem_of_cons; tauto).
          by rewrite lookup_insert_ne. }
  exact (Haux mod_names ∅).
Qed.

Lemma initial_map_lookup {V : Type} (v : V) (l : list str) (m : str) :
  foldl (λ (d : gmap str V) x, <[x := v]> d) ∅ l !! m
  = if decide (m ∈ l) then Some v else None.
Proof.
  assert (Haux : ∀ acc : gmap str V,
    foldl (λ d x, <[x := v]> d) acc l !! m
    = if decide (m ∈ l) then Some v else acc !! m).
  { induction l as [|x l IH]; intros acc; cbn [foldl].
    - by rewrite decide_False by apply not_elem_of_nil.
    - rewrite IH. destruct (decide (m ∈ l)) as [Hin|Hin].
      + rewrite decide_True by (by right). done.
      + destruct (decide (m = x)) as [->|Hne].
        * rewrite decide_True by left. by rewrite lookup_insert_eq.
        * rewrite decide_False by (rewrite elem_of_cons; tauto).
          by rewrite lookup_insert_ne. }
  apply Haux.
Qed.

(** The loop [for dep in deps_map[mod]: in_degree[mod] += 1]. *)
Lemma count_loop (mod_ : str) (l : list str) (ind : gmap str Z) (v : Z) :
  ind !! mod_ = Some v →
  for_each (λ ind (dep : str),
              v ← getitem ind mod_; Return (<[mod_ := v + 1]> ind)) ind l
  = Return (<[mod_ := v + Z.of_nat (length l)]> ind).
Proof.
  revert ind v. induction l as [|dep l IH]; intros ind v Hv; cbn [for_each].
  - rewrite Z.add_0_r. by rewrite insert_id.
  - rewrite (getitem_Some _ _ _ Hv). cbn [mbind outcome_bind].
    rewrite (IH _ (v + 1)) by apply lookup_insert_eq.
    rewrite insert_insert_eq. do 2 f_equal. cbn [length]. lia.
Qed.

Lemma count_in_degree_spec :
  ∃ ind, count_in_degree (build_deps_map mod_dependencies mod_names) mod_names
         = Return ind
    ∧ ∀ m, ind !! m
           = if decide (m ∈ mod_names)
             then Some (Z.of_nat (occurrences m mod_names * length (deps m)))
             else None.
Proof.
  unfold count_in_degree.
  set (body := λ (in_degree : gmap str Z) (mod_ : str),
         getitem (build_deps_map mod_dependencies mod_names) mod_
         ≫= λ l, for_each (λ in_degree (dep : str),
                             v ← getitem in_degree mod_;
                             Return (<[mod_ := v + 1]> in_degree)) in_degree l).
  assert (Haux : ∀ l ind,
    (∀ m, m ∈ l → m ∈ mod_names) → (∀ m, m ∈ l → is_Some (ind !! m)) →
    ∃ ind', for_each body ind l = Return ind'
      ∧ ∀ m, ind' !! m
             = (λ v, v + Z.of_nat (occurrences m l * length (deps m)))
               <$> ind !! m).
  { induction l as [|x l IH]; intros ind Hnames Hdom; cbn [for_each].
    - exists ind. split; [done|]. intros m. destruct (ind !! m); simpl; [|done].
      f_equal. unfold occurrences. simpl. lia.
    - destruct (Hdom x) as [v Hv]; [left|].
      assert (body ind x = Return (<[x := v + Z.of_nat (length (deps x))]> ind))
        as ->.
      { unfold body. rewrite (getitem_Some _ _ (deps x)).
        - cbn [mbind outcome_bind]. by apply count_loop.
        - rewrite build_deps_map_lookup. apply decide_True, Hnames. left. }
      cbn [mbind outcome_bind].
      destruct (IH (<[x := v + Z.of_nat (length (deps x))]> ind))
        as (ind' & Hind' & Hlookup).
      { intros m Hm. apply Hnames. by right. }
      { intros m Hm. rewrite lookup_insert_is_Some.
        destruct (decide (x = m)); [by left|right]. split; [done|].
        apply Hdom. by right. }
      exists ind'. split; [done|]. intros m. rewrite Hlookup, occurrences_cons.
      destruct (decide (x = m)) as [->|Hne].
      + rewrite lookup_insert_eq, Hv, bool_decide_eq_true_2 by done.
        simpl. f_equal. lia.
      + rewrite lookup_insert_ne, bool_decide_eq_false_2 by done.
        done. }
  destruct (Haux mod_names (foldl (λ d m, <[m := 0]> d) ∅ mod_names))
    as (ind & Hind & Hlookup); [done| |].
  { intros m Hm. rewrite initial_map_lookup, decide_True by done. by eexists. }
  exists ind. split; [done|]. intros m.
  rewrite Hlookup, initial_map_lookup. by destruct (decide (m ∈ mod_names)).
Qed.

Lemma initial_queue_spec (ind : gmap str Z) (l : list str) :
  (∀ m, m ∈ l → is_Some (ind !! m)) →
  initial_queue ind l = Return (filter (λ m, ind !! m = Some 0) l).
Proof.
  unfold initial_queue.
  assert (Haux : ∀ q,
    (∀ m, m ∈ l → is_Some (ind !! m)) →
    for_each (λ q m, v ← getitem ind m; Return (if v =? 0 then q ++ [m] else q))
             q l
    = Return (q ++ filter (λ m, ind !! m = Some 0) l)).
  { induction l as [|x l IH]; intros q Hdom; cbn [for_each].
    - by rewrite filter_nil, app_nil_r.
    - destruct (Hdom x) as [v Hv]; [left|].
      rewrite (getitem_Some _ _ _ Hv). cbn [mbind outcome_bind].
      rewrite IH by (intros; apply Hdom; by right).
      rewrite filter_cons. destruct (Z.eqb_spec v 0) as [->|Hne].
      + rewrite decide_True by done. by rewrite <-app_assoc.
      + rewrite decide_False by congruence. done. }
  apply (Haux []).
Qed.

(** The loop [for dep in deps_map[mod]: rev[dep].append(mod)]. *)
Lemma rev_loop (mod_ : str) (l : list str) (rev : gmap str (list str)) :
  (∀ d, d ∈ l → is_Some (rev !! d)) →
  ∃ rev', for_each (λ rev dep,
                      k ← getitem rev dep; Return (<[dep := k ++ [mod_]]> rev))
                   rev l = Return rev'
    ∧ ∀ d, rev' !! d
           = (λ k, k ++ ((λ _, mod_) <$> filter (λ dep, dep = d) l)) <$> rev !! d.
Proof.
  revert rev. induction l as [|dep l IH]; intros rev Hdom; cbn [for_each].
  - exists rev. split; [done|]. intros d. destruct (rev !! d); simpl; [|done].
    by rewrite app_nil_r.
  - destruct (Hdom dep) as [k Hk]; [left|].
    rewrite (getitem_Some _ _ _ Hk). cbn [mbind outcome_bind].
    destruct (IH (<[dep := k ++ [mod_]]> rev)) as (rev' & Hrev' & Hlookup).
    { intros d Hd. rewrite lookup_insert_is_Some.
      destruct (decide (dep = d)); [by left|right]. split; [done|].
      apply Hdom. by right. }
    exists rev'. split; [done|]. intros d. rewrite Hlookup, filter_cons.
    destruct (decide (dep = d)) as [->|Hne].
    + rewrite lookup_insert_eq, Hk. simpl. by rewrite <-app_assoc.
    + by rewrite lookup_insert_ne.
Qed.

Lemma build_rev_spec :
  ∃ rev, build_rev (build_deps_map mod_dependencies mod_names) mod_names
         = Return rev
    ∧ ∀ d, rev !! d
           = if decide (d ∈ mod_names) then Some (dependents d) else None.
Proof.
  unfold build_rev.
  set (body := λ (rev : gmap str (list str)) (mod_ : str),
         getitem (build_deps_map mod_dependencies mod_names) mod_
         ≫= λ l, for_each (λ rev dep,
                             k ← getitem rev dep;
                             Return (<[dep := k ++ [mod_]]> rev)) rev l).
  assert (Haux : ∀ l (rev : gmap str (list str)),
    (∀ m, m ∈ l → m ∈ mod_names) →
    (∀ d, d ∈ mod_names → is_Some (rev !! d)) →
    ∃ rev', for_each body rev l = Return rev'
      ∧ ∀ d, rev' !! d
             = (λ k, k ++ dependents_in mod_dependencies mod_names l d)
               <$> rev !! d).
  { induction l as [|x l IH]; intros rev Hnames Hdom; cbn [for_each].
    - exists rev. split; [done|]. intros d. destruct (rev !! d); simpl; [|done].
      by rewrite app_nil_r.
    - destruct (rev_loop x (deps x) rev) as (rev1 & Hrev1 & Hlookup1).
      { intros d [Hd _]%candidate_deps_elem_of. by apply Hdom. }
      assert (body rev x = Return rev1) as ->.
      { unfold body. rewrite (getitem_Some _ _ (deps x)); [done|].
        rewrite build_deps_map_lookup. apply decide_True, Hnames. left. }
      cbn [mbind outcome_bind].
      destruct (IH rev1) as (rev' & Hrev' & Hlookup).
      { intros m Hm. apply Hnames. by right. }
      { intros d Hd. rewrite Hlookup1. destruct (Hdom d Hd) as [k ->].
        by eexists. }
      exists rev'. split; [done|]. intros d. rewrite Hlookup, Hlookup1.
      destruct (rev !! d); simpl; [|done].
      unfold dependents_in. cbn [mbind list_bind]. by rewrite <-app_assoc. }
  destruct (Haux mod_names (foldl (λ d m, <[m := []]> d) ∅ mod_names))
    as (rev & Hrev & Hlookup); [done| |].
  { intros m Hm. rewrite initial_map_lookup, decide_True by done. by eexists. }
  exists rev. split; [done|]. intros d.
  rewrite Hlookup, initial_map_lookup. by destruct (decide (d ∈ mod_names)).
Qed.

(** [rev[d]] holds candidates that list [d], each as many times as it lists
    [d] (times its own multiplicity in the candidate list). *)
Lemma dependents_in_elem_of (l : list str) (d x : str) :
  x ∈ dependents_in mod_dependencies mod_names l d ↔ x ∈ l ∧ d ∈ deps x.
Proof.
  unfold dependents_in. rewrite list_elem_of_bind. split.
  - intros (m & Hx & Hm). apply list_elem_of_fmap in Hx as (dep & -> & Hdep).
    apply list_elem_of_filter in Hdep as [-> Hdep]. done.
  - intros [Hx Hd]. exists x. split; [|done].
    apply list_elem_of_fmap. exists d. split; [done|].
    by apply list_elem_of_filter.
Qed.

Lemma dependents_in_occurrences (l : list str) (d x : str) :
  occurrences x (dependents_in mod_dependencies mod_names l d)
  = (occurrences x l * occurrences d (deps x))%nat.
Proof.
  unfold dependents_in. induction l as [|m l IH]; [done|].
  rewrite bind_cons, occurrences_app, occurrences_cons, IH. clear IH.
  assert (occurrences x ((λ _, m) <$> filter (λ dep, dep = d) (deps m))
          = if bool_decide (m = x) then occurrences d (deps m) else 0%nat) as ->.
  { unfold occurrences at 2. generalize (filter (λ dep, dep = d) (deps m)).
    intros k. induction k as [|y k IHk]; [by case_bool_decide|].
    cbn [fmap list_fmap length]. rewrite occurrences_cons, IHk.
    by case_bool_decide. }
  case_bool_decide; subst; lia.
Qed.

(** *** One turn of the loop *)

(** Lowering one value by one lowers the count of positive values exactly
    when the value was one. *)
Lemma positives_release (ind : gmap str Z) (o : str) (v : Z) :
  ind !! o = Some v →
  (positives (<[o := (v - 1)%Z]> ind) + (if bool_decide (v = 1%Z) then 1 else 0)
   = positives ind)%nat.
Proof.
  intros Hv. unfold positives. rewrite map_filter_insert. cbn [snd].
  case_decide as Hpos.
  - rewrite map_size_insert_Some.
    + rewrite bool_decide_eq_false_2 by lia. lia.
    + exists v. apply map_lookup_filter_Some. split; [done|]. simpl. lia.
  - rewrite map_filter_delete. case_bool_decide as Hone.
    + assert (is_Some (filter (λ kv : str * Z, 0 < kv.2) ind !! o)) as Hsome.
      { exists v. apply map_lookup_filter_Some. split; [done|]. simpl. lia. }
      rewrite map_size_delete_Some by done.
      pose proof (map_size_ne_0_lookup_2 _ _ Hsome). lia.
    + rewrite map_size_delete_None; [lia|].
      apply map_lookup_filter_None. right. intros w Hw. simpl.
      rewrite Hv in Hw. injection Hw as <-. lia.
Qed.

(** The loop [for other in rev[m]]: every value is lowered by the number of
    occurrences of its key, and the keys whose value reaches zero join the
    queue, in the order of the list. *)
Lemma release_loop (others : list str) (st : kahn_state) :
  (∀ o, o ∈ others → is_Some (in_degree st !! o)) →
  ∃ ind' F,
    for_each release st others
    = Return (KahnState ind' (queue st ++ F) (order st))
    ∧ (∀ x, ind' !! x
            = (λ v, v - Z.of_nat (occurrences x others)) <$> in_degree st !! x)
    ∧ F `sublist_of` others
    ∧ NoDup F
    ∧ (∀ x, x ∈ F ↔ ∃ v, in_degree st !! x = Some v
                         ∧ 1 ≤ v ≤ Z.of_nat (occurrences x others))
    ∧ (length F + positives ind' = positives (in_degree st))%nat.
Proof.
  revert st. induction others as [|o others IH]; intros st Hdom; cbn [for_each].
  - exists (in_degree st), []. rewrite app_nil_r. split_and!.
    + by destruct st.
    + intros x. destruct (in_degree st !! x); simpl; [|done].
      f_equal. unfold occurrences. simpl. lia.
    + done.
    + constructor.
    + intros x. split; [by intros ?%elem_of_nil|].
      intros (v & _ & Hv). unfold occurrences in Hv. simpl in Hv. lia.
    + done.
  - destruct (Hdom o) as [v Hv]; [left|].
    set (st1 := KahnState (<[o := v - 1]> (in_degree st))
                  (if v - 1 =? 0 then queue st ++ [o] else queue st) (order st)).
    assert (release st o = Return st1) as ->.
    { unfold release. rewrite (getitem_Some _ _ _ Hv). cbn [mbind outcome_bind].
      unfold st1. by destruct (v - 1 =? 0). }
    cbn [mbind outcome_bind].
    destruct (IH st1) as (ind' & F' & Hrun & Hlookup & Hsub & Hnodup & Hin & Hpos).
    { intros x Hx. unfold st1. cbn [in_degree]. rewrite lookup_insert_is_Some.
      destruct (decide (o = x)); [by left|right]. split; [done|].
      apply Hdom. by right. }
    subst st1. cbn [in_degree queue order] in *.
    pose proof (positives_release _ _ _ Hv) as Hrel.
    assert (Ho' : o ∈ F' ↔ 2 ≤ v ≤ Z.of_nat (occurrences o (o :: others))).
    { rewrite Hin, lookup_insert_eq, occurrences_cons.
      rewrite bool_decide_eq_true_2 by done. split.
      - intros (w & [= <-] & Hw). lia.
      - intros Hw. exists (v - 1). split; [done|lia]. }
    assert (Hx' : ∀ x, x ≠ o →
      x ∈ F' ↔ ∃ w, in_degree st !! x = Some w
                    ∧ 1 ≤ w ≤ Z.of_nat (occurrences x (o :: others))).
    { intros x Hx. rewrite Hin, lookup_insert_ne, occurrences_cons by done.
      by rewrite bool_decide_eq_false_2. }
    exists ind', ((if v - 1 =? 0 then [o] else []) ++ F'). split_and!.
    + rewrite Hrun. f_equal. destruct (v - 1 =? 0); [|done].
      f_equal. by rewrite <-app_assoc.
    + intros x. rewrite Hlookup, occurrences_cons.
      destruct (decide (o = x)) as [->|Hne].
      * rewrite lookup_insert_eq, Hv, bool_decide_eq_true_2 by done.
        simpl. f_equal. lia.
      * rewrite lookup_insert_ne, bool_decide_eq_false_2 by done.
        destruct (in_degree st !! x); simpl; [|done]. f_equal.
    + destruct (v - 1 =? 0); [by apply sublist_skip|by apply sublist_cons].
    + destruct (Z.eqb_spec (v - 1) 0) as [Hz|Hz]; [|done].
      constructor; [|done]. rewrite Ho'. lia.
    + intros x. destruct (decide (x = o)) as [->|Hne].
      * destruct (Z.eqb_spec (v - 1) 0) as [Hz|Hz].
        -- split; [|intros; left]. intros _. exists v. split; [done|].
           rewrite occurrences_cons, bool_decide_eq_true_2 by done. lia.
        -- cbn [app]. rewrite Ho'. split.
           ++ intros Hw. exists v. split; [done|lia].
           ++ intros (w & Hw & Hle). rewrite Hv in Hw. injection Hw as <-. lia.
      * rewrite elem_of_app, Hx' by done. split; [|by right].
        intros [Ho|?]; [|done]. destruct (v - 1 =? 0); [|by inversion Ho].
        apply list_elem_of_singleton in Ho. done.
    + rewrite length_app. revert Hrel.
      destruct (Z.eqb_spec (v - 1) 0) as [Hz|Hz]; case_bool_decide; simpl; lia.
Qed.

Lemma kahn_body_spec (rev : gmap str (list str)) (st : kahn_state)
    (m : str) (q : list str) :
  (∀ d, rev !! d = if decide (d ∈ mod_names) then Some (dependents d) else None) →
  kahn_dom mod_names st →
  queue st = m :: q →
  ∃ ind' F,
    kahn_body rev st = Return (KahnState ind' (q ++ F) (order st ++ [m]))
    ∧ (∀ x, ind' !! x
            = (λ v, v - Z.of_nat (occurrences x (dependents m)))
              <$> in_degree st !! x)
    ∧ F `sublist_of` dependents m
    ∧ NoDup F
    ∧ (∀ x, x ∈ F ↔ ∃ v, in_degree st !! x = Some v
                         ∧ 1 ≤ v ≤ Z.of_nat (occurrences x (dependents m)))
    ∧ (length F + positives ind' = positives (in_degree st))%nat.
Proof.
  intros Hrev [Hdom Hqueue] Hq. unfold kahn_body. rewrite Hq.
  rewrite (getitem_Some _ _ (dependents m)); last first.
  { rewrite Hrev. apply decide_True, Hqueue. rewrite Hq. left. }
  cbn [mbind outcome_bind].
  destruct (release_loop (dependents m)
              (KahnState (in_degree st) q (order st ++ [m])))
    as (ind' & F & Hrun & Hrest).
  { intros o [Ho _]%dependents_in_elem_of. by apply Hdom. }
  exists ind', F. by split.
Qed.

(** Every turn keeps [kahn_dom] and lowers the measure. *)
Lemma kahn_body_dom (rev : gmap str (list str)) (st : kahn_state) :
  (∀ d, rev !! d = if decide (d ∈ mod_names) then Some (dependents d) else None) →
  kahn_dom mod_names st →
  queue st ≠ [] →
  ∃ st', kahn_body rev st = Return st'
    ∧ kahn_dom mod_names st'
    ∧ (kahn_measure st' < kahn_measure st)%nat.
Proof.
  intros Hrev Hdom Hq. destruct (queue st) as [|m q] eqn:Hqueue; [done|].
  destruct (kahn_body_spec rev st m q Hrev Hdom Hqueue)
    as (ind' & F & Hrun & Hlookup & Hsub & _ & _ & Hpos).
  eexists. split; [exact Hrun|]. destruct Hdom as [Hdom Hcand].
  split; [split|].
  - intros x. cbn [in_degree]. rewrite Hlookup, <-Hdom.
    by rewrite fmap_is_Some.
  - intros x. cbn [queue]. rewrite elem_of_app. intros [Hx|Hx].
    + apply Hcand. rewrite Hqueue. by right.
    + apply (sublist_subseteq _ _ Hsub) in Hx.
      by apply dependents_in_elem_of in Hx as [Hx _].
  - unfold kahn_measure. cbn [in_degree queue]. rewrite Hqueue, length_app.
    cbn [length]. lia.
Qed.

(** *** Dependencies that remain *)

Lemma unmet_zero (placed : list str) (x : str) :
  unmet mod_dependencies mod_names placed x = 0%nat
  ↔ ∀ d, d ∈ deps x → d ∈ placed.
Proof.
  unfold unmet. rewrite length_zero_iff_nil. split.
  - intros Hnil d Hd. destruct (decide (d ∈ placed)) as [|Hout]; [done|].
    assert (d ∈ filter (λ d, d ∉ placed) (deps x)) as Hin
      by (by apply list_elem_of_filter).
    rewrite Hnil in Hin. by apply elem_of_nil in Hin.
  - intros Hall.
    destruct (filter (λ d, d ∉ placed) (deps x)) as [|d l] eqn:Hf; [done|].
    assert (d ∈ filter (λ d, d ∉ placed) (deps x)) as Hin
      by (rewrite Hf; left).
    apply list_elem_of_filter in Hin as [Hout Hd]. by apply Hall in Hd.
Qed.

Lemma unmet_snoc (placed : list str) (m x : str) :
  m ∉ placed →
  (unmet mod_dependencies mod_names (placed ++ [m]) x + occurrences m (deps x)
   = unmet mod_dependencies mod_names placed x)%nat.
Proof.
  intros Hm. unfold unmet, occurrences.
  induction (deps x) as [|d l IH]; [done|].
  rewrite !filter_cons.
  destruct (decide (d = m)) as [->|Hne].
  - rewrite decide_False by (rewrite elem_of_app, list_elem_of_singleton; tauto).
    rewrite decide_True by done. cbn [length]. lia.
  - destruct (decide (d ∈ placed)) as [Hin|Hout].
    + rewrite decide_False by (rewrite elem_of_app; tauto).
      rewrite decide_False by tauto. done.
    + rewrite decide_True by (rewrite elem_of_app, list_elem_of_singleton; tauto).
      rewrite decide_True by done. cbn [length]. lia.
Qed.

(** *** Positions and the queue discipline *)

Lemma index_of_app_in (x : str) (l k : list str) :
  x ∈ l → index_of x (l ++ k) = index_of x l.
Proof.
  induction l as [|y l IH]; [by intros ?%elem_of_nil|].
  intros Hx. cbn [index_of app]. case_bool_decide; [done|].
  f_equal. apply IH. apply elem_of_cons in Hx as [?|?]; [done|done].
Qed.

Lemma index_of_app_out (x : str) (l k : list str) :
  x ∉ l → index_of x (l ++ k) = (length l + index_of x k)%nat.
Proof.
  induction l as [|y l IH]; [done|].
  intros Hx. cbn [index_of app length].
  rewrite bool_decide_eq_false_2 by (intros ->; apply Hx; left).
  rewrite IH; [lia|]. intros ?. apply Hx. by right.
Qed.

Lemma index_of_lt (x : str) (l : list str) :
  x ∈ l → (index_of x l < length l)%nat.
Proof.
  induction l as [|y l IH]; [by intros ?%elem_of_nil|].
  intros Hx. cbn [index_of length]. case_bool_decide; [lia|].
  apply elem_of_cons in Hx as [?|?]; [done|]. apply Nat.succ_lt_mono in IH; [lia|done].
Qed.

Lemma index_of_inj (x y : str) (l : list str) :
  x ∈ l → index_of x l = index_of y l → x = y.
Proof.
  induction l as [|z l IH]; [by intros ?%elem_of_nil|].
  intros Hx. cbn [index_of]. do 2 case_bool_decide; try done; [congruence|].
  intros [=]. apply IH; [|done]. apply elem_of_cons in Hx as [?|?]; done.
Qed.

(** The elements of a list without duplicates come in the order of their
    positions. *)
Lemma NoDup_index_of_sorted (l : list str) :
  NoDup l →
  StronglySorted (λ x y, (index_of x l < index_of y l)%nat) l.
Proof.
  assert (∀ pre k, NoDup (pre ++ k) →
    StronglySorted (λ x y, (index_of x (pre ++ k) < index_of y (pre ++ k))%nat) k)
    as Haux.
  { intros pre k. revert pre. induction k as [|x k IH]; intros pre Hnd.
    { constructor. }
    pose proof Hnd as Hnd'.
    apply NoDup_app in Hnd' as (_ & Hdisj & [Hxk _]%NoDup_cons).
    assert (Hx : x ∉ pre) by (intros Hin; apply (Hdisj x Hin); left).
    constructor.
    - specialize (IH (pre ++ [x])). rewrite <-app_assoc in IH. by apply IH.
    - apply Forall_forall. intros y Hy.
      assert (Hy' : y ∉ pre) by (intros Hin; apply (Hdisj y Hin); by right).
      rewrite !index_of_app_out by done. cbn [index_of].
      rewrite bool_decide_eq_true_2 by done.
      rewrite bool_decide_eq_false_2 by (intros ->; done). lia. }
  apply (Haux []).
Qed.

Lemma StronglySorted_sublist {A : Type} (R : relation A) (l k : list A) :
  l `sublist_of` k → StronglySorted R k → StronglySorted R l.
Proof.
  induction 1 as [|x l k Hsub IH|x l k Hsub IH]; [done| |].
  - rewrite !StronglySorted_cons. intros [Hall Hk]. split; [|by apply IH].
    rewrite Forall_forall in Hall. apply Forall_forall.
    intros y Hy. apply Hall. by apply (sublist_subseteq _ _ Hsub).
  - rewrite StronglySorted_cons. intros [_ Hk]. by apply IH.
Qed.

Lemma StronglySorted_impl_elem_of {A : Type} (R R' : relation A) (l : list A) :
  (∀ x y, x ∈ l → y ∈ l → R x y → R' x y) →
  StronglySorted R l → StronglySorted R' l.
Proof.
  induction l as [|x l IH]; intros Himpl; [constructor|].
  rewrite !StronglySorted_cons. intros [Hall Hl]. split.
  - rewrite Forall_forall in Hall. apply Forall_forall. intros y Hy.
    apply Himpl; [left|by right|by apply Hall].
  - apply IH; [|done]. intros y z Hy Hz. apply Himpl; by right.
Qed.

Lemma StronglySorted_NoDup_ne {A : Type} (R : relation A) (l : list A) :
  NoDup l → StronglySorted R l → StronglySorted (λ x y, R x y ∧ x ≠ y) l.
Proof.
  induction 1 as [|x l Hx _ IH]; [constructor|].
  rewrite !StronglySorted_cons. intros [Hall Hl]. split; [|by apply IH].
  rewrite Forall_forall in Hall. apply Forall_forall. intros y Hy.
  split; [by apply Hall|]. by intros ->.
Qed.

Lemma StronglySorted_lookup {A : Type} (R : relation A) (l : list A)
    (i j : nat) (x y : A) :
  StronglySorted R l → l !! i = Some x → l !! j = Some y → (i < j)%nat → R x y.
Proof.
  intros Hsorted. revert i j. induction Hsorted as [|z l _ IH Hall];
    intros i j Hi Hj Hlt; [done|].
  destruct j as [|j]; [lia|]. destruct i as [|i].
  - injection Hi as <-. rewrite Forall_forall in Hall. apply Hall.
    by eapply list_elem_of_lookup_2.
  - apply (IH i j); [done..|lia].
Qed.

Lemma max_list_le (n : nat) (ns : list nat) :
  Forall (λ k, (k ≤ n)%nat) ns → (max_list ns ≤ n)%nat.
Proof. induction 1; simpl; lia. Qed.

(** [rev[d]] lists its names in the order of the candidate list. *)
Lemma dependents_sorted (d : str) :
  NoDup mod_names →
  StronglySorted (λ x y, (index_of x mod_names ≤ index_of y mod_names)%nat)
                 (dependents d).
Proof.
  intros Hnd. apply NoDup_index_of_sorted in Hnd.
  assert (∀ l,
    StronglySorted (λ x y, (index_of x mod_names < index_of y mod_names)%nat) l →
    StronglySorted (λ x y, (index_of x mod_names ≤ index_of y mod_names)%nat)
                   (dependents_in mod_dependencies mod_names l d)) as Haux;
    [|by apply Haux].
  clear Hnd. unfold dependents_in.
  induction l as [|m l IH]; [constructor|].
  rewrite StronglySorted_cons, Forall_forall. intros [Hall Hl].
  rewrite bind_cons. apply StronglySorted_app_2; [| |by apply IH].
  - intros x y [_ [-> _]]%list_elem_of_fmap Hy.
    apply list_elem_of_bind in Hy as (z & [_ [-> _]]%list_elem_of_fmap & Hz).
    apply Hall in Hz. lia.
  - induction (filter (λ dep, dep = d) (deps m)) as [|e k IHk]; [constructor|].
    cbn [fmap list_fmap]. constructor; [done|].
    apply Forall_forall. by intros x [_ [-> _]]%list_elem_of_fmap.
Qed.

Section ready.
Variable placed : list str.

Lemma ready_at_app (k : list str) (x : str) :
  (∀ d, d ∈ deps x → d ∈ placed) →
  ready_at mod_dependencies mod_names (placed ++ k) x
  = ready_at mod_dependencies mod_names placed x.
Proof.
  intros Hall. unfold ready_at. f_equal. apply map_ext_in.
  intros d Hd. f_equal. apply index_of_app_in, Hall. by apply list_elem_of_In.
Qed.

Lemma ready_at_le (x : str) :
  (∀ d, d ∈ deps x → d ∈ placed) →
  (ready_at mod_dependencies mod_names placed x ≤ length placed)%nat.
Proof.
  intros Hall. apply max_list_le, Forall_forall.
  intros n (d & -> & Hd)%list_elem_of_fmap.
  apply Hall, index_of_lt in Hd. lia.
Qed.

(** A name whose last dependency [m] is placed now is ready right after. *)
Lemma ready_at_last (m x : str) :
  m ∉ placed → m ∈ deps x →
  (∀ d, d ∈ deps x → d ∈ placed ++ [m]) →
  ready_at mod_dependencies mod_names (placed ++ [m]) x = S (length placed).
Proof.
  intros Hm Hin Hall. apply Nat.le_antisymm.
  - apply max_list_le, Forall_forall.
    intros n (d & -> & Hd)%list_elem_of_fmap.
    apply Hall, index_of_lt in Hd. rewrite length_app in Hd. simpl in Hd. lia.
  - apply max_list_elem_of_le, list_elem_of_fmap. exists m. split; [|done].
    rewrite index_of_app_out by done. cbn [index_of].
    rewrite bool_decide_eq_true_2 by done. lia.
Qed.
End ready.

(** *** The invariant on a list without duplicates *)

Lemma kahn_body_inv (rev : gmap str (list str)) (st st' : kahn_state) :
  NoDup mod_names →
  (∀ d, rev !! d = if decide (d ∈ mod_names) then Some (dependents d) else None) →
  kahn_dom mod_names st →
  kahn_inv mod_dependencies mod_names st →
  queue st ≠ [] →
  kahn_body rev st = Return st' →
  kahn_inv mod_dependencies mod_names st'.
Proof.
  intros Hnodup Hrev Hdom (Hdeg & Hnd & Hmem & Htopo) Hq Hrun.
  destruct (queue st) as [|m q] eqn:Hqueue; [done|].
  destruct (kahn_body_spec rev st m q Hrev Hdom Hqueue)
    as (ind' & F & Hrun' & Hlookup & Hsub & HndF & HF & _).
  rewrite Hrun in Hrun'. injection Hrun' as ->.
  destruct Hdom as [Hdom Hcand].
  assert (Hm : m ∈ mod_names) by (apply Hcand; rewrite Hqueue; left).
  assert (Hm_out : m ∉ order st).
  { apply NoDup_app in Hnd as (_ & Hdisj & _). intros Hin.
    apply (Hdisj m Hin). left. }
  assert (Hocc : ∀ x, x ∈ mod_names →
    occurrences x (dependents m) = occurrences m (deps x)).
  { intros x Hx. rewrite dependents_in_occurrences.
    rewrite (occurrences_NoDup x mod_names) by done. lia. }
  assert (HF' : ∀ x, x ∈ F ↔
    x ∈ mod_names
    ∧ (1 ≤ unmet mod_dependencies mod_names (order st) x)%nat
    ∧ unmet mod_dependencies mod_names (order st ++ [m]) x = 0%nat).
  { intros x. rewrite HF. split.
    - intros (v & Hv & Hle). assert (Hx : x ∈ mod_names) by (apply Hdom; eauto).
      rewrite (Hdeg x Hx) in Hv. injection Hv as <-.
      rewrite (Hocc x Hx) in Hle.
      pose proof (unmet_snoc (order st) m x Hm_out). split; [done|]. lia.
    - intros (Hx & Hge & Hzero). eexists. split; [by apply Hdeg|].
      rewrite (Hocc x Hx).
      pose proof (unmet_snoc (order st) m x Hm_out). lia. }
  assert (Happ : (order st ++ [m]) ++ q ++ F = (order st ++ m :: q) ++ F)
    by (by rewrite <-!app_assoc).
  unfold kahn_inv. cbn [in_degree queue order]. rewrite Happ. split_and!.
  - intros x Hx. rewrite Hlookup, (Hdeg x Hx), (Hocc x Hx). simpl. f_equal.
    pose proof (unmet_snoc (order st) m x Hm_out). lia.
  - apply NoDup_app. split_and!; [done| |done].
    intros x Hx HxF. apply Hmem in Hx as [_ Hzero].
    apply HF' in HxF as (_ & Hge & _). lia.
  - intros x. rewrite elem_of_app, Hmem, HF'.
    pose proof (unmet_snoc (order st) m x Hm_out). split.
    + intros [[Hx Hzero]|(Hx & _ & Hzero)]; (split; [done|lia]).
    + intros [Hx Hzero].
      destruct (decide (unmet mod_dependencies mod_names (order st) x = 0%nat));
        [by left|right]. split_and!; [done|lia|done].
  - intros l1 m' l2 Horder d Hd.
    destruct l2 as [|z l2 _] using rev_ind.
    + apply app_inj_tail in Horder as [Ho <-]. rewrite <-Ho.
      assert (m ∈ order st ++ m :: q) as Hin by (apply elem_of_app; right; left).
      apply Hmem in Hin as [_ Hzero]. by apply (unmet_zero _ m).
    + rewrite app_comm_cons, app_assoc in Horder.
      apply app_inj_tail in Horder as [Horder _]. by eapply Htopo.
Qed.

(** The state before the first turn. *)
Lemma kahn_initial (ind : gmap str Z) :
  (∀ m, ind !! m
        = if decide (m ∈ mod_names)
          then Some (Z.of_nat (occurrences m mod_names * length (deps m)))
          else None) →
  let st := KahnState ind (filter (λ m, ind !! m = Some 0) mod_names) [] in
  kahn_dom mod_names st
  ∧ (NoDup mod_names → kahn_inv mod_dependencies mod_names st).
Proof.
  intros Hind st. split.
  - split.
    + intros m. cbn [in_degree]. rewrite Hind.
      destruct (decide (m ∈ mod_names)); [by split; eauto|].
      split; [by intros [? ?]|done].
    + intros m. cbn [queue]. by intros [_ ?]%list_elem_of_filter.
  - intros Hnodup.
    assert (Hunmet : ∀ m, unmet mod_dependencies mod_names [] m = length (deps m)).
    { intros m. unfold unmet. f_equal. induction (deps m) as [|d l IH]; [done|].
      rewrite filter_cons_True by apply not_elem_of_nil. by rewrite IH. }
    assert (Hdeg : ∀ m, m ∈ mod_names →
      ind !! m = Some (Z.of_nat (unmet mod_dependencies mod_names [] m))).
    { intros m Hm. rewrite Hind, decide_True, Hunmet by done.
      rewrite (occurrences_NoDup m mod_names) by done. do 2 f_equal. lia. }
    subst st. unfold kahn_inv. cbn [in_degree queue order app]. split_and!.
    + done.
    + by apply NoDup_filter.
    + intros x. rewrite list_elem_of_filter. split.
      * intros [Hx Hin]. split; [done|]. rewrite (Hdeg x Hin) in Hx.
        injection Hx as Hx. lia.
      * intros [Hin Hzero]. split; [|done]. by rewrite (Hdeg x Hin), Hzero.
    + intros [|??] ???; done.
Qed.

(** A turn keeps the queue discipline: the names it appends became ready at
    this turn, after everything already there, and come in candidate
    order. *)
Lemma kahn_body_fifo (rev : gmap str (list str)) (st st' : kahn_state) :
  NoDup mod_names →
  (∀ d, rev !! d = if decide (d ∈ mod_names) then Some (dependents d) else None) →
  kahn_dom mod_names st →
  kahn_inv mod_dependencies mod_names st →
  fifo_inv mod_dependencies mod_names st →
  queue st ≠ [] →
  kahn_body rev st = Return st' →
  fifo_inv mod_dependencies mod_names st'.
Proof.
  intros Hnodup Hrev Hdom Hinv [Hsorted Hready] Hq Hrun.
  pose proof (kahn_body_inv rev st st' Hnodup Hrev Hdom Hinv Hq Hrun)
    as (_ & _ & Hmem' & _).
  destruct Hinv as (Hdeg & Hnd & Hmem & _).
  destruct (queue st) as [|m q] eqn:Hqueue; [done|].
  destruct (kahn_body_spec rev st m q Hrev Hdom Hqueue)
    as (ind' & F & Hrun' & _ & Hsub & HndF & HF & _).
  rewrite Hrun in Hrun'. injection Hrun' as ->.
  cbn [in_degree queue order] in Hmem'.
  assert (Hm_out : m ∉ order st).
  { apply NoDup_app in Hnd as (_ & Hdisj & _). intros Hin.
    apply (Hdisj m Hin). left. }
  assert (Happ : (order st ++ [m]) ++ q ++ F = (order st ++ m :: q) ++ F)
    by (by rewrite <-!app_assoc).
  rewrite Happ in Hmem'.
  assert (HL : ∀ x, x ∈ order st ++ m :: q → ∀ d, d ∈ deps x → d ∈ order st).
  { intros x [_ Hzero]%Hmem. by apply unmet_zero. }
  assert (HFn : ∀ x, x ∈ F → x ∈ mod_names ∧ m ∈ deps x).
  { intros x Hx. apply (sublist_subseteq _ _ Hsub) in Hx.
    by apply dependents_in_elem_of in Hx. }
  assert (HFr : ∀ x, x ∈ F →
    ready_at mod_dependencies mod_names (order st ++ [m]) x = S (length (order st))).
  { intros x Hx. apply ready_at_last; [done|by apply HFn|].
    apply unmet_zero, Hmem', elem_of_app. by right. }
  assert (HLr : ∀ x, x ∈ order st ++ m :: q →
    ready_at mod_dependencies mod_names (order st ++ [m]) x
    = ready_at mod_dependencies mod_names (order st) x).
  { intros x Hx. by apply ready_at_app, HL. }
  unfold fifo_inv. cbn [in_degree queue order]. rewrite Happ. split.
  - apply StronglySorted_app_2.
    + intros x y Hx Hy. left. rewrite (HLr x Hx), (HFr y Hy).
      specialize (Hready x Hx). lia.
    + eapply StronglySorted_impl_elem_of; [|exact Hsorted].
      intros x y Hx Hy. unfold fifo_lt. by rewrite (HLr x Hx), (HLr y Hy).
    + eapply StronglySorted_impl_elem_of; last first.
      { apply StronglySorted_NoDup_ne; [exact HndF|].
        eapply StronglySorted_sublist; [exact Hsub|].
        by apply dependents_sorted. }
      intros x y Hx Hy [Hle Hne]. right. rewrite (HFr x Hx), (HFr y Hy).
      split; [done|].
      destruct (decide (index_of x mod_names = index_of y mod_names)) as [Heq|];
        [|lia].
      destruct Hne. eapply index_of_inj; [|exact Heq]. by apply HFn.
  - intros x [Hx|Hx]%elem_of_app; rewrite length_app; cbn [length].
    + rewrite (HLr x Hx). specialize (Hready x Hx). lia.
    + rewrite (HFr x Hx). lia.
Qed.

Lemma kahn_initial_fifo (ind : gmap str Z) :
  (∀ m, ind !! m
        = if decide (m ∈ mod_names)
          then Some (Z.of_nat (occurrences m mod_names * length (deps m)))
          else None) →
  NoDup mod_names →
  fifo_inv mod_dependencies mod_names
    (KahnState ind (filter (λ m, ind !! m = Some 0) mod_names) []).
Proof.
  intros Hind Hnodup.
  destruct (kahn_initial ind Hind) as [_ Hinv].
  destruct (Hinv Hnodup) as (_ & _ & Hmem & _).
  cbn [in_degree queue order app] in Hmem.
  assert (Hzero : ∀ x, x ∈ filter (λ m, ind !! m = Some 0) mod_names →
    ready_at mod_dependencies mod_names [] x = 0%nat).
  { intros x [_ Hx]%Hmem.
    pose proof (ready_at_le [] x (proj1 (unmet_zero [] x) Hx)) as Hle.
    simpl in Hle. lia. }
  unfold fifo_inv. cbn [in_degree queue order app]. split.
  - eapply StronglySorted_impl_elem_of; last first.
    { eapply StronglySorted_sublist; [apply sublist_filter|].
      by apply NoDup_index_of_sorted. }
    intros x y Hx Hy Hlt. right. by rewrite (Hzero x Hx), (Hzero y Hy).
  - intros x Hx. rewrite (Hzero x Hx). simpl. lia.
Qed.

(** The loop returns on every candidate list, with an empty queue; on a list
    without duplicates the invariant holds at its end. *)
Lemma kahn_order_spec :
  ∃ st, kahn_order mod_dependencies mod_names = Return (order st)
    ∧ queue st = []
    ∧ kahn_dom mod_names st
    ∧ (NoDup mod_names →
       kahn_inv mod_dependencies mod_names st
       ∧ fifo_inv mod_dependencies mod_names st).
Proof.
  unfold kahn_order.
  destruct count_in_degree_spec as (ind & -> & Hind). cbn [mbind outcome_bind].
  rewrite initial_queue_spec; last first.
  { intros m Hm. rewrite Hind, decide_True by done. eauto. }
  cbn [mbind outcome_bind].
  destruct build_rev_spec as (rev & -> & Hrev). cbn [mbind outcome_bind].
  destruct (kahn_initial ind Hind) as [Hdom0 Hinv0].
  destruct (while_loop_invariant
              (λ st, kahn_dom mod_names st
                     ∧ (NoDup mod_names →
                        kahn_inv mod_dependencies mod_names st
                        ∧ fifo_inv mod_dependencies mod_names st))
              kahn_measure (λ st, bool_decide (queue st ≠ [])) (kahn_body rev))
    with (fuel := (length (filter (λ m, ind !! m = Some 0%Z) mod_names)
                   + size ind)%nat)
         (s := KahnState ind (filter (λ m, ind !! m = Some 0) mod_names) [])
    as (st & -> & [Hdom Hinv] & Hexit).
  - intros st [Hdom Hinv] Hq. apply bool_decide_eq_true in Hq.
    destruct (kahn_body_dom rev st Hrev Hdom Hq) as (st' & Hrun & Hdom' & Hlt).
    exists st'. split_and!; [done..| |done].
    intros Hnodup. destruct (Hinv Hnodup) as [Hinv1 Hfifo]. split.
    + exact (kahn_body_inv rev st st' Hnodup Hrev Hdom Hinv1 Hq Hrun).
    + exact (kahn_body_fifo rev st st' Hnodup Hrev Hdom Hinv1 Hfifo Hq Hrun).
  - split; [done|]. intros Hnodup. split; [by apply Hinv0|].
    by apply kahn_initial_fifo.
  - unfold kahn_measure, positives. cbn [in_degree queue].
    apply Nat.add_le_mono_l, map_subseteq_size, map_filter_subseteq.
  - cbn [mbind outcome_bind]. exists st. split_and!; [done| |done..].
    apply bool_decide_eq_false in Hexit. by apply dec_stable in Hexit.
Qed.

(** *** The order at the end of the loop *)

(** On a list without duplicates the loop ends with candidates, none twice,
    each after its dependencies; they are all the candidates exactly when the
    induced subgraph has no cycle. *)
Lemma kahn_order_sound :
  NoDup mod_names →
  ∃ order_, kahn_order mod_dependencies mod_names = Return order_
    ∧ NoDup order_
    ∧ (∀ x, x ∈ order_ → x ∈ mod_names)
    ∧ (∀ x, x ∈ mod_names → x ∉ order_ → ∃ d, d ∈ deps x ∧ d ∉ order_)
    ∧ (∀ l1 m l2, order_ = l1 ++ m :: l2 → ∀ d, d ∈ deps m → d ∈ l1)
    ∧ StronglySorted (fifo_lt mod_dependencies mod_names order_) order_.
Proof.
  intros Hnodup.
  destruct kahn_order_spec as (st & Hrun & Hq & Hdom & Hinv).
  destruct (Hinv Hnodup) as [(Hdeg & Hnd & Hmem & Htopo) [Hfifo _]].
  rewrite Hq, app_nil_r in Hnd, Hmem, Hfifo.
  exists (order st). split_and!; [done..| | |done|done].
  - by intros x [Hx _]%Hmem.
  - intros x Hx Hout.
    destruct (decide (unmet mod_dependencies mod_names (order st) x = 0%nat))
      as [Hzero|Hpos]; [by destruct Hout; apply Hmem|].
    unfold unmet in Hpos.
    destruct (filter (λ d, d ∉ order st) (deps x)) as [|d l] eqn:Hf; [done|].
    assert (d ∈ filter (λ d, d ∉ order st) (deps x)) as Hin by (rewrite Hf; left).
    apply list_elem_of_filter in Hin as [? ?]. by exists d.
Qed.

Lemma depends_on_candidate_deps (m d : str) :
  depends_on mod_dependencies mod_names m d ↔ m ∈ mod_names ∧ d ∈ deps m.
Proof. unfold depends_on. rewrite candidate_deps_elem_of. tauto. Qed.

Lemma kahn_order_complete :
  NoDup mod_names →
  acyclic mod_dependencies mod_names →
  ∃ order_, kahn_order mod_dependencies mod_names = Return order_
    ∧ order_ ≡ₚ mod_names
    ∧ (∀ l1 m l2, order_ = l1 ++ m :: l2 → ∀ d, d ∈ deps m → d ∈ l1)
    ∧ StronglySorted (fifo_lt mod_dependencies mod_names order_) order_.
Proof.
  intros Hnodup Hacyclic.
  destruct (kahn_order_sound Hnodup)
    as (order_ & Hrun & Hnd & Hsub & Hwait & Htopo & Hfifo).
  exists order_. split_and!; [done| |done|done].
  apply submseteq_length_Permutation; [by apply NoDup_submseteq|].
  apply submseteq_length, NoDup_submseteq; [done|].
  intros x Hx. destruct (decide (x ∈ order_)) as [|Hout]; [done|]. exfalso.
  set (S := filter (λ y, y ∉ order_) mod_names).
  assert (HS : ∀ y, y ∈ S ↔ (y ∉ order_) ∧ y ∈ mod_names)
    by (intros y; unfold S; by rewrite list_elem_of_filter).
  destruct (no_sink_cycle (length S) (depends_on mod_dependencies mod_names) S)
    as [c Hc]; [done| | |by apply (Hacyclic c)].
  - intros Hnil. assert (x ∈ S) as Hin by (by apply HS).
    rewrite Hnil in Hin. by apply elem_of_nil in Hin.
  - intros y [Hy Hyn]%HS. destruct (Hwait y Hyn Hy) as (d & Hd & Hdout).
    exists d. split.
    + apply HS. split; [done|]. by apply candidate_deps_elem_of in Hd as [? _].
    + by apply depends_on_candidate_deps.
Qed.

(** When the loop ends with as many names as there are candidates, the
    induced subgraph has no cycle: a dependency is always placed earlier. *)
Lemma kahn_order_full_acyclic (order_ : list str) :
  NoDup order_ →
  (∀ x, x ∈ mod_names → x ∈ order_) →
  (∀ l1 m l2, order_ = l1 ++ m :: l2 → ∀ d, d ∈ deps m → d ∈ l1) →
  acyclic mod_dependencies mod_names.
Proof.
  intros Hnd Hall Htopo.
  assert (Hstep : ∀ m d, depends_on mod_dependencies mod_names m d →
    ∃ i j, order_ !! i = Some d ∧ order_ !! j = Some m ∧ (i < j)%nat).
  { intros m d [Hm Hd]%depends_on_candidate_deps.
    destruct (list_elem_of_split _ _ (Hall m Hm)) as (l1 & l2 & Horder).
    pose proof (Htopo l1 m l2 Horder d Hd) as Hin.
    apply list_elem_of_lookup in Hin as [i Hi].
    exists i, (length l1). rewrite Horder. split_and!.
    - by apply lookup_app_l_Some.
    - by apply list_lookup_middle.
    - by apply lookup_lt_Some in Hi. }
  assert (Htc : ∀ m d, tc (depends_on mod_dependencies mod_names) m d →
    ∃ i j, order_ !! i = Some d ∧ order_ !! j = Some m ∧ (i < j)%nat).
  { induction 1 as [m d H|m d e H _ (i & j & Hi & Hj & Hlt)]; [by apply Hstep|].
    destruct (Hstep m d H) as (i' & j' & Hi' & Hj' & Hlt').
    pose proof (NoDup_lookup _ _ _ _ Hnd Hj Hi'). subst.
    exists i, j'. split_and!; [done..|lia]. }
  intros m Hm. destruct (Htc m m Hm) as (i & j & Hi & Hj & Hlt).
  pose proof (NoDup_lookup _ _ _ _ Hnd Hi Hj). lia.
Qed.

End resolver_proofs.

(** The resolver looks at the dependency map only through the candidate
    dependencies of the candidates. *)
Lemma resolve_candidate_deps_only (mod_dependencies other : gmap str (list str))
    (mod_names : list str) :
  (∀ m, m ∈ mod_names →
        candidate_deps other mod_names m
        = candidate_deps mod_dependencies mod_names m) →
  _resolve_event_modifiers_load_order other mod_names
  = _resolve_event_modifiers_load_order mod_dependencies mod_names.
Proof.
  intros Hsame.
  assert (build_deps_map other mod_names
          = build_deps_map mod_dependencies mod_names) as Hmap.
  { apply map_eq. intros m. rewrite !build_deps_map_lookup.
    destruct (decide (m ∈ mod_names)); [|done]. by rewrite Hsame. }
  unfold _resolve_event_modifiers_load_order, kahn_order. by rewrite Hmap.
Qed.

(** A graph whose edges go down along a rank has no cycle. *)
Lemma acyclic_by_rank (mod_dependencies : gmap str (list str))
    (mod_names : list str) (rank : str → nat) :
  (∀ m d, depends_on mod_dependencies mod_names m d → (rank d < rank m)%nat) →
  acyclic mod_dependencies mod_names.
Proof.
  intros Hrank.
  assert (∀ m d, tc (depends_on mod_dependencies mod_names) m d →
                 (rank d < rank m)%nat) as Htc.
  { induction 1 as [m d H|m d e H _ IH]; [by apply Hrank|].
    apply Hrank in H. lia. }
  intros m Hm. apply Htc in Hm. lia.
Qed.

Lemma crossed_deps_acyclic :
  acyclic crossed_deps [py "A"; py "B"; py "C"; py "D"].
Proof.
  apply (acyclic_by_rank _ _
           (λ m, if bool_decide (m = py "C") || bool_decide (m = py "D")
                 then 1%nat else 0%nat)).
  intros m d (Hm & _ & Hd).
  repeat (apply elem_of_cons in Hm as [->|Hm]);
    [vm_compute in Hd..|by apply elem_of_nil in Hm].
  - by apply elem_of_nil in Hd.
  - by apply elem_of_nil in Hd.
  - apply list_elem_of_singleton in Hd as ->. vm_compute. lia.
  - apply list_elem_of_singleton in Hd as ->. vm_compute. lia.
Qed.

(** C1.  For a candidate set (a list without duplicates) whose induced
    subgraph has no cycle, the resolver returns an order in which every
    candidate comes strictly after each of its dependencies that is a
    candidate; and the order is the same for every dependency map that agrees
    on the dependencies inside the candidate set, so that dependencies
    outside it constrain nothing. *)
Theorem resolve_topological (mod_dependencies : gmap str (list str))
    (mod_names : list str) :
  NoDup mod_names →
  acyclic mod_dependencies mod_names →
  ∃ order_,
    _resolve_event_modifiers_load_order mod_dependencies mod_names = Return order_
    ∧ (∀ M D, M ∈ mod_names → D ∈ mod_names →
              D ∈ default [] (mod_dependencies !! M) →
              strictly_before D M order_)
    ∧ (∀ other,
         (∀ m, m ∈ mod_names →
               candidate_deps other mod_names m
               = candidate_deps mod_dependencies mod_names m) →
         _resolve_event_modifiers_load_order other mod_names = Return order_).
Proof.
  intros Hnodup Hacyclic.
  destruct (kahn_order_complete _ _ Hnodup Hacyclic)
    as (order_ & Hrun & Hperm & Htopo & _).
  assert (Hres : _resolve_event_modifiers_load_order mod_dependencies mod_names
                 = Return order_).
  { unfold _resolve_event_modifiers_load_order. case_bool_decide as Hnil.
    - subst. apply Permutation_nil_r in Hperm. by subst.
    - rewrite Hrun. cbn [mbind outcome_bind].
      rewrite bool_decide_eq_false_2; [done|].
      intros Hlen. apply Hlen. by rewrite Hperm. }
  assert (Hnd : NoDup order_) by (by rewrite Hperm).
  exists order_. split_and!; [done| |].
  - intros M D HM HD Hdep.
    assert (HMo : M ∈ order_) by (by rewrite Hperm).
    destruct (list_elem_of_split _ _ HMo) as (l1 & l2 & Horder).
    assert (HDl : D ∈ l1).
    { apply (Htopo l1 M l2 Horder). by apply candidate_deps_elem_of. }
    split_and!; [by rewrite Hperm|done|].
    intros i j Hi Hj.
    apply list_elem_of_lookup in HDl as [i' Hi'].
    assert (order_ !! i' = Some D) as Hi''
      by (rewrite Horder; by apply lookup_app_l_Some).
    assert (order_ !! length l1 = Some M) as Hj'
      by (rewrite Horder; by apply list_lookup_middle).
    pose proof (NoDup_lookup _ _ _ _ Hnd Hi Hi'').
    pose proof (NoDup_lookup _ _ _ _ Hnd Hj Hj').
    apply lookup_lt_Some in Hi'. lia.
  - intros other Hsame. by rewrite (resolve_candidate_deps_only mod_dependencies).
Qed.

Lemma resolve_topological_witness :
  ∃ order_,
    _resolve_event_modifiers_load_order crossed_deps
      [py "A"; py "B"; py "C"; py "D"] = Return order_
    ∧ strictly_before (py "B") (py "C") order_
    ∧ strictly_before (py "A") (py "D") order_.
Proof.
  destruct (resolve_topological crossed_deps [py "A"; py "B"; py "C"; py "D"])
    as (order_ & Hres & Hbefore & _).
  - by_compute.
  - exact crossed_deps_acyclic.
  - exists order_. split; [exact Hres|]. split.
    + apply Hbefore.
      * by_compute.
      * by_compute.
      * vm_compute. apply list_elem_of_here.
    + apply Hbefore.
      * by_compute.
      * by_compute.
      * vm_compute. apply list_elem_of_here.
Defined.

(** C4.  The topological sort returns on every candidate list and every
    dependency map.  When it produces fewer names than there are candidates,
    the resolver returns, without an error, the candidates sorted in
    ascending order: the one ascending arrangement of the candidates.  This
    is what happens on a candidate set with a cycle, and for the candidates
    [X] and [Y] that depend on each other the result is [X], [Y]. *)
Theorem resolve_cycle_fallback :
  (∀ (mod_dependencies : gmap str (list str)) (mod_names : list str),
     ∃ order_, kahn_order mod_dependencies mod_names = Return order_
       ∧ ((length order_ < length mod_names)%nat →
          _resolve_event_modifiers_load_order mod_dependencies mod_names
          = Return (sorted mod_names)
          ∧ StronglySorted str_le (sorted mod_names)
          ∧ sorted mod_names ≡ₚ mod_names
          ∧ ∀ l, StronglySorted str_le l → l ≡ₚ mod_names → l = sorted mod_names)
       ∧ (NoDup mod_names → ¬ acyclic mod_dependencies mod_names →
          (length order_ < length mod_names)%nat))
  ∧ _resolve_event_modifiers_load_order cycle_xy [py "X"; py "Y"]
    = Return [py "X"; py "Y"]
  ∧ _resolve_event_modifiers_load_order cycle_xy [py "Y"; py "X"]
    = Return [py "X"; py "Y"].
Proof.
  split; [|split; by vm_compute].
  intros mod_dependencies mod_names.
  destruct (kahn_order_spec mod_dependencies mod_names)
    as (st & Hrun & Hq & Hdom & Hinv).
  exists (order st). split_and!; [done| |].
  - intros Hlen. destruct (sorted_spec mod_names) as (Hsorted & Hperm & Huniq).
    split_and!; [|done..].
    unfold _resolve_event_modifiers_load_order.
    rewrite bool_decide_eq_false_2 by (intros ->; simpl in Hlen; lia).
    rewrite Hrun. cbn [mbind outcome_bind].
    rewrite bool_decide_eq_true_2 by lia. done.
  - intros Hnodup Hcyclic.
    destruct (kahn_order_sound mod_dependencies mod_names Hnodup)
      as (order_ & Hrun' & Hnd & Hsub & _ & Htopo & _).
    rewrite Hrun in Hrun'. injection Hrun' as <-.
    pose proof (submseteq_length _ _ (NoDup_submseteq _ _ Hnd Hsub)) as Hle.
    destruct (decide (length (order st) = length mod_names)) as [Heq|]; [|lia].
    destruct Hcyclic.
    apply (kahn_order_full_acyclic _ _ (order st)); [done| |done].
    assert (order st ≡ₚ mod_names) as Hperm.
    { apply submseteq_length_Permutation; [by apply NoDup_submseteq|lia]. }
    intros x Hx. by rewrite Hperm.
Qed.

Lemma resolve_cycle_fallback_witness :
  _resolve_event_modifiers_load_order cycle_xy [py "Y"; py "X"]
  = Return (sorted [py "Y"; py "X"])
  ∧ sorted [py "Y"; py "X"] = [py "X"; py "Y"].
Proof.
  destruct (proj1 resolve_cycle_fallback cycle_xy [py "Y"; py "X"])
    as (order_ & Hrun & Hfallback & _).
  assert (order_ = []) as ->.
  { assert (kahn_order cycle_xy [py "Y"; py "X"] = Return []) as Hnil
      by (vm_compute; reflexivity).
    rewrite Hnil in Hrun. by injection Hrun. }
  split; [|vm_compute; reflexivity].
  apply Hfallback. simpl. lia.
Defined.

(** C10.  On a candidate list without duplicates the resolver returns a
    permutation of the list: the order of the topological sort when that
    order has as many names as there are candidates, the sorted list
    otherwise; and the empty list gives the empty list. *)
Theorem resolve_permutation (mod_dependencies : gmap str (list str))
    (mod_names : list str) :
  NoDup mod_names →
  ∃ order_ kahn,
    _resolve_event_modifiers_load_order mod_dependencies mod_names = Return order_
    ∧ order_ ≡ₚ mod_names
    ∧ kahn_order mod_dependencies mod_names = Return kahn
    ∧ (length kahn = length mod_names → order_ = kahn)
    ∧ (length kahn ≠ length mod_names → order_ = sorted mod_names)
    ∧ (mod_names = [] → order_ = []).
Proof.
  intros Hnodup.
  destruct (kahn_order_sound mod_dependencies mod_names Hnodup)
    as (kahn & Hrun & Hnd & Hsub & _).
  unfold _resolve_event_modifiers_load_order. rewrite Hrun.
  cbn [mbind outcome_bind].
  pose proof (submseteq_length _ _ (NoDup_submseteq _ _ Hnd Hsub)) as Hle.
  case_bool_decide as Hnil.
  - subst. exists [], kahn. destruct kahn; [|simpl in Hle; lia].
    split_and!; done.
  - case_bool_decide as Hlen.
    + exists (sorted mod_names), kahn. split_and!; try done.
      apply merge_sort_Permutation.
    + exists kahn, kahn. split_and!; try done.
      apply submseteq_length_Permutation; [by apply NoDup_submseteq|lia].
Qed.

Lemma resolve_permutation_witness :
  ∃ order_,
    _resolve_event_modifiers_load_order crossed_deps
      [py "D"; py "C"; py "B"; py "A"] = Return order_
    ∧ order_ ≡ₚ [py "D"; py "C"; py "B"; py "A"].
Proof.
  destruct (resolve_permutation crossed_deps [py "D"; py "C"; py "B"; py "A"])
    as (order_ & kahn & Hres & Hperm & _).
  - by_compute.
  - exists order_. split; [exact Hres|exact Hperm].
Defined.


(** The states of [kahn_state_after] are those of the loop of the resolver:
    with as many turns as the loop is allowed, the state is the final one. *)
Lemma kahn_state_after_final (mod_dependencies : gmap str (list str))
    (mod_names : list str) :
  ∃ n st, kahn_state_after mod_dependencies mod_names n = Return st
          ∧ queue st = []
          ∧ kahn_order mod_dependencies mod_names = Return (order st).
Proof.
  destruct (kahn_order_spec mod_dependencies mod_names) as (st & Hrun & Hq & _).
  unfold kahn_order in Hrun |- *. unfold kahn_state_after.
  destruct (count_in_degree _ _) as [ind| |]; [|done..].
  cbn [mbind outcome_bind] in *.
  destruct (initial_queue _ _) as [q0| |]; [|done..].
  cbn [mbind outcome_bind] in *.
  destruct (build_rev _ _) as [rev| |]; [|done..].
  cbn [mbind outcome_bind] in *.
  exists (length q0 + size ind)%nat.
  assert (Hturns : ∀ fuel s s',
    while_loop fuel (λ st, bool_decide (queue st ≠ [])) (kahn_body rev) s
    = Return s' →
    kahn_turns rev fuel s = Return s' ∧ queue s' = []).
  { induction fuel as [|fuel IH]; intros s s'; cbn [while_loop kahn_turns].
    - case_bool_decide as Hc; [done|]. by intros [= <-].
    - case_bool_decide as Hc.
      + destruct (kahn_body rev s) as [s1| |]; [|done..]. apply IH.
      + by intros [= <-]. }
  destruct (while_loop _ _ _ _) as [s'| |] eqn:Hloop; [|done..].
  cbn [mbind outcome_bind] in Hrun. injection Hrun as Horder.
  destruct (Hturns _ _ _ Hloop) as [Ht Hq'].
  exists s'. by split_and!.
Qed.

(** Two arrangements of the same names that put dependencies first and are
    in queue order are equal. *)
Lemma fifo_order_unique (mod_dependencies : gmap str (list str))
    (mod_names l l' : list str) :
  NoDup l → l ≡ₚ l' →
  dependencies_first mod_dependencies mod_names l →
  dependencies_first mod_dependencies mod_names l' →
  fifo_ordered mod_dependencies mod_names l →
  fifo_ordered mod_dependencies mod_names l' →
  l = l'.
Proof.
  intros Hnd Hperm Hfirst Hfirst' Hfifo Hfifo'.
  assert (Hnd' : NoDup l') by (by rewrite <-Hperm).
  assert (Hlen : length l = length l') by (by rewrite Hperm).
  assert (Hready : ∀ (k : list str) n x,
    dependencies_first mod_dependencies mod_names k → k !! n = Some x →
    ready_at mod_dependencies mod_names k x
    = ready_at mod_dependencies mod_names (take n k) x).
  { intros k n x Hk Hx. rewrite <-(take_drop n k) at 1.
    apply ready_at_app. intros d Hd.
    destruct (Hk n x d Hx Hd) as (j & Hj & Hjd).
    apply list_elem_of_lookup. exists j. by rewrite lookup_take_lt. }
  assert (Hlater : ∀ (k k' : list str) n x x',
    NoDup k' → k ≡ₚ k' → take n k = take n k' →
    k !! n = Some x → k' !! n = Some x' → x ≠ x' →
    ∃ j, (n < j)%nat ∧ k !! j = Some x').
  { intros k k' n x x' Hk' Hkk Htake Hx Hx' Hne.
    assert (x' ∈ k) as [j Hj]%list_elem_of_lookup.
    { rewrite Hkk. by eapply list_elem_of_lookup_2. }
    exists j. split; [|done].
    destruct (decide (j = n)) as [->|]; [congruence|].
    destruct (decide (j < n)%nat) as [Hlt|]; [|lia].
    assert (take n k' !! j = Some x') as Hj'
      by (rewrite <-Htake; by rewrite lookup_take_lt).
    apply lookup_take_Some in Hj' as [Hj' _].
    pose proof (NoDup_lookup _ _ _ _ Hk' Hj' Hx'). lia. }
  assert (Htake : ∀ n, take n l = take n l').
  { induction n as [|n IH]; [done|].
    destruct (l !! n) as [x|] eqn:Hx; last first.
    { apply lookup_ge_None in Hx. rewrite !take_ge in IH by lia.
      by rewrite !take_ge by lia. }
    destruct (l' !! n) as [x'|] eqn:Hx'; last first.
    { apply lookup_ge_None in Hx'. apply lookup_lt_Some in Hx. lia. }
    rewrite (take_S_r _ _ _ Hx), (take_S_r _ _ _ Hx'), IH. f_equal.
    destruct (decide (x = x')) as [->|Hne]; [done|]. exfalso.
    destruct (Hlater l l' n x x' Hnd' Hperm IH Hx Hx' Hne) as (j & Hj & Hjx).
    destruct (Hlater l' l n x' x Hnd (symmetry Hperm) (eq_sym IH) Hx' Hx
                ltac:(congruence)) as (j' & Hj' & Hjx').
    pose proof (Hfifo n j x x' Hx Hjx Hj) as H1.
    pose proof (Hfifo' n j' x' x Hx' Hjx' Hj') as H2.
    unfold fifo_lt in H1, H2.
    assert (Hxp : l !! j = Some x') by done.
    rewrite (Hready l n x Hfirst Hx) in H1.
    rewrite (Hready l' n x' Hfirst' Hx') in H2.
    assert (ready_at mod_dependencies mod_names l x'
            = ready_at mod_dependencies mod_names (take n l') x') as Hr1.
    { rewrite <-(take_drop n l), IH. apply ready_at_app. intros d Hd.
      destruct (Hfirst' n x' d Hx' Hd) as (k & Hk & Hkd).
      apply list_elem_of_lookup. exists k. by rewrite lookup_take_lt. }
    assert (ready_at mod_dependencies mod_names l' x
            = ready_at mod_dependencies mod_names (take n l) x) as Hr2.
    { rewrite <-(take_drop n l'), <-IH. apply ready_at_app. intros d Hd.
      destruct (Hfirst n x d Hx Hd) as (k & Hk & Hkd).
      apply list_elem_of_lookup. exists k. by rewrite lookup_take_lt. }
    rewrite Hr1 in H1. rewrite Hr2 in H2. rewrite IH in H1, H2. lia. }
  rewrite <-(take_ge l (length l)), <-(take_ge l' (length l)) by lia.
  apply Htake.
Qed.

(** C5 (as amended).  On a candidate list without duplicates whose induced
    subgraph has no cycle, the resolver returns the order of a first-in
    first-out queue filled in candidate order: of two names, the one that
    became ready earlier (whose last dependency was processed earlier) comes
    first, and of two names that became ready at the same moment, the one
    that comes first in the candidate list.  It is the only arrangement of
    the candidates that puts dependencies first and has this property. *)
Theorem resolve_fifo_order (mod_dependencies : gmap str (list str))
    (mod_names : list str) :
  NoDup mod_names →
  acyclic mod_dependencies mod_names →
  ∃ order_,
    _resolve_event_modifiers_load_order mod_dependencies mod_names = Return order_
    ∧ fifo_ordered mod_dependencies mod_names order_
    ∧ ∀ l, l ≡ₚ mod_names →
           dependencies_first mod_dependencies mod_names l →
           fifo_ordered mod_dependencies mod_names l →
           l = order_.
Proof.
  intros Hnodup Hacyclic.
  destruct (kahn_order_complete _ _ Hnodup Hacyclic)
    as (order_ & Hrun & Hperm & Htopo & Hfifo).
  assert (Hordered : fifo_ordered mod_dependencies mod_names order_).
  { intros i j x y Hi Hj Hlt. by eapply StronglySorted_lookup. }
  assert (Hfirst : dependencies_first mod_dependencies mod_names order_).
  { intros i m d Hi Hd. pose proof (take_drop_middle _ _ _ Hi) as Hsplit.
    pose proof (Htopo _ _ _ (eq_sym Hsplit) d Hd) as Hin.
    apply list_elem_of_lookup in Hin as [j Hj].
    apply lookup_take_Some in Hj as [Hj Hlt]. by exists j. }
  exists order_. split_and!; [|done|].
  - unfold _resolve_event_modifiers_load_order. case_bool_decide as Hnil.
    + subst. apply Permutation_nil_r in Hperm. by subst.
    + rewrite Hrun. cbn [mbind outcome_bind].
      rewrite bool_decide_eq_false_2; [done|].
      intros Hlen. apply Hlen. by rewrite Hperm.
  - intros l Hl Hlfirst Hlfifo.
    apply (fifo_order_unique mod_dependencies mod_names); try done.
    + by rewrite Hl.
    + by rewrite Hl, Hperm.
Qed.

Lemma resolve_fifo_order_witness :
  _resolve_event_modifiers_load_order crossed_deps
    [py "A"; py "B"; py "C"; py "D"]
  = Return [py "A"; py "B"; py "D"; py "C"]
  ∧ fifo_lt crossed_deps [py "A"; py "B"; py "C"; py "D"]
      [py "A"; py "B"; py "D"; py "C"] (py "D") (py "C").
Proof.
  destruct (resolve_fifo_order crossed_deps [py "A"; py "B"; py "C"; py "D"])
    as (order_ & Hres & Hfifo & _).
  - by_compute.
  - exact crossed_deps_acyclic.
  - assert (order_ = [py "A"; py "B"; py "D"; py "C"]) as ->.
    { assert (_resolve_event_modifiers_load_order crossed_deps
                [py "A"; py "B"; py "C"; py "D"]
              = Return [py "A"; py "B"; py "D"; py "C"]) as Hval
        by (vm_compute; reflexivity).
      rewrite Hval in Hres. by injection Hres. }
    split; [exact Hres|].
    apply (Hfifo 2%nat 3%nat); [reflexivity|reflexivity|lia].
Defined.

(** C5 (as stated) fails on the candidates [A], [B], [C], [D] with [C]
    depending on [B] and [D] on [A].  After two turns [D] and [C] are both in
    the queue with in-degree zero, [C] comes before [D] in the candidate
    list, and [D] is processed first; the resolved order is not the one in
    which candidate position decides among the names that are ready. *)
Lemma resolve_ties_not_by_position :
  ¬ (∀ (mod_dependencies : gmap str (list str)) (mod_names : list str),
       NoDup mod_names → acyclic mod_dependencies mod_names →
       _resolve_event_modifiers_load_order mod_dependencies mod_names
       = Return (candidate_priority_order mod_dependencies mod_names
                   (length mod_names) []))
  ∧ ¬ (∀ (mod_dependencies : gmap str (list str)) (mod_names : list str)
         (n : nat) (st : kahn_state) (x y : str) (order_ : list str),
         NoDup mod_names → acyclic mod_dependencies mod_names →
         kahn_state_after mod_dependencies mod_names n = Return st →
         in_degree st !! x = Some 0 → in_degree st !! y = Some 0 →
         x ∈ queue st → y ∈ queue st →
         (index_of x mod_names < index_of y mod_names)%nat →
         _resolve_event_modifiers_load_order mod_dependencies mod_names
         = Return order_ →
         strictly_before x y order_).
Proof.
  assert (Hnd : NoDup [py "A"; py "B"; py "C"; py "D"]) by by_compute.
  split.
  - intros H. specialize (H crossed_deps _ Hnd crossed_deps_acyclic).
    vm_compute in H. discriminate H.
  - intros H.
    destruct (kahn_state_after crossed_deps [py "A"; py "B"; py "C"; py "D"] 2)
      as [st| |] eqn:Hst; [|by vm_compute in Hst..].
    assert (Hparts : queue st = [py "D"; py "C"]
                     ∧ in_degree st !! py "C" = Some 0
                     ∧ in_degree st !! py "D" = Some 0).
    { vm_compute in Hst. injection Hst as <-. by vm_compute. }
    destruct Hparts as (Hq & HC & HD).
    destruct (H crossed_deps _ 2%nat st (py "C") (py "D")
                [py "A"; py "B"; py "D"; py "C"] Hnd crossed_deps_acyclic Hst
                HC HD) as (_ & _ & Hlt).
    + rewrite Hq. by_compute.
    + rewrite Hq. by_compute.
    + vm_compute. lia.
    + by vm_compute.
    + specialize (Hlt 3%nat 2%nat eq_refl eq_refl). lia.
Qed.

(** * The rest of the launcher: proofs *)

(** ** Choosing the mods to merge *)

(** The topological sort only ever places candidates, on every candidate
    list. *)
Lemma kahn_order_members (mod_dependencies : gmap str (list str))
    (mod_names : list str) :
  ∃ order_, kahn_order mod_dependencies mod_names = Return order_
            ∧ ∀ x, x ∈ order_ → x ∈ mod_names.
Proof.
  unfold kahn_order.
  destruct (count_in_degree_spec mod_dependencies mod_names)
    as (ind & -> & Hind).
  cbn [mbind outcome_bind].
  rewrite initial_queue_spec; last first.
  { intros m Hm. rewrite Hind, decide_True by done. eauto. }
  cbn [mbind outcome_bind].
  destruct (build_rev_spec mod_dependencies mod_names) as (rev & -> & Hrev).
  cbn [mbind outcome_bind].
  destruct (kahn_initial mod_dependencies mod_names ind Hind) as [Hdom0 _].
  destruct (while_loop_invariant
              (λ st, kahn_dom mod_names st ∧ ∀ x, x ∈ order st → x ∈ mod_names)
              kahn_measure (λ st, bool_decide (queue st ≠ [])) (kahn_body rev))
    with (fuel := (length (filter (λ m, ind !! m = Some 0%Z) mod_names)
                   + size ind)%nat)
         (s := KahnState ind (filter (λ m, ind !! m = Some 0) mod_names) [])
    as (st & -> & [_ Hmem] & _).
  - intros st [Hdom Hmem] Hq. apply bool_decide_eq_true in Hq.
    destruct (kahn_body_dom _ _ rev st Hrev Hdom Hq) as (st' & Hrun & Hdom' & Hlt).
    exists st'. split_and!; [done..| |done].
    destruct (queue st) as [|m q] eqn:Hqueue; [done|].
    destruct (kahn_body_spec _ _ rev st m q Hrev Hdom Hqueue)
      as (ind' & F & Hrun' & _).
    rewrite Hrun in Hrun'. injection Hrun' as ->. cbn [order].
    intros x [Hx|Hx]%elem_of_app; [by apply Hmem|].
    apply list_elem_of_singleton in Hx as ->.
    apply Hdom. rewrite Hqueue. left.
  - split; [done|]. by intros x ?%elem_of_nil.
  - unfold kahn_measure, positives. cbn [in_degree queue].
    apply Nat.add_le_mono_l, map_subseteq_size, map_filter_subseteq.
  - cbn [mbind outcome_bind]. by exists (order st).
Qed.

(** The resolver returns on every candidate list, and returns candidates. *)
Lemma resolve_members (mod_dependencies : gmap str (list str))
    (mod_names : list str) :
  ∃ order_,
    _resolve_event_modifiers_load_order mod_dependencies mod_names = Return order_
    ∧ ∀ x, x ∈ order_ → x ∈ mod_names.
Proof.
  unfold _resolve_event_modifiers_load_order. case_bool_decide.
  { exists []. split; [done|]. by intros x ?%elem_of_nil. }
  destruct (kahn_order_members mod_dependencies mod_names) as (order_ & -> & Hmem).
  cbn [mbind outcome_bind]. case_bool_decide.
  - exists (sorted mod_names). split; [done|]. intros x.
    unfold sorted. by rewrite merge_sort_Permutation.
  - by exists order_.
Qed.

Section launch_proofs.
Variable mod_files : gmap str mod_record.
Variable mod_dependencies : gmap str (list str).
Variable os_path_join : list str → str.
Variable os_path_isfile : str → bool.
Variable read_text : str → option str.
Variable mod_folder : str.

#[local] Abbreviation part := (takes_part mod_files os_path_join os_path_isfile mod_folder).

Lemma get_mods_with_event_modifiers_filter (selected_mods : list str) :
  _get_mods_with_event_modifiers mod_files os_path_join os_path_isfile
    selected_mods mod_folder
  = filter part selected_mods.
Proof.
  unfold _get_mods_with_event_modifiers.
  assert (∀ result,
    foldl (keep_mod_with_event_modifiers mod_files os_path_join os_path_isfile
             mod_folder) result selected_mods
    = result ++ filter part selected_mods) as Haux; [|apply (Haux [])].
  induction selected_mods as [|mod_name l IH]; intros result; cbn [foldl].
  - by rewrite filter_nil, app_nil_r.
  - rewrite IH, filter_cons. unfold keep_mod_with_event_modifiers.
    destruct (decide (part mod_name)) as [(rec & Hrec & Hfolder & Hfile)|Hno].
    + rewrite Hrec, bool_decide_eq_false_2 by done.
      unfold event_modifiers_path in Hfile. rewrite Hfile.
      by rewrite <-app_assoc.
    + destruct (mod_files !! mod_name) as [rec|] eqn:Hrec; [|done].
      case_bool_decide as Hfolder; [done|].
      destruct (os_path_isfile _) eqn:Hfile; [|done].
      destruct Hno. by exists rec.
Qed.

(** X1.  [_get_mods_with_event_modifiers] returns the selected mods that
    take part in the merge, in their order and with their repetitions: the
    known mods with a folder whose conflict-file exists.  It never names a
    mod that is absent from [mod_files]. *)
Theorem get_mods_with_event_modifiers_spec (selected_mods : list str) :
  let result := _get_mods_with_event_modifiers mod_files os_path_join
                  os_path_isfile selected_mods mod_folder in
  result = filter part selected_mods
  ∧ result `sublist_of` selected_mods
  ∧ Forall (λ mod_name, is_Some (mod_files !! mod_name)) result.
Proof.
  intros result. unfold result. rewrite get_mods_with_event_modifiers_filter.
  split_and!; [done|apply sublist_filter|].
  apply Forall_forall. intros x [(rec & Hrec & _) _]%list_elem_of_filter.
  by exists rec.
Qed.

(** X2.  The merge step of [start_game] returns for every selection and
    every state of the files: no [KeyError] can reach it, because the resolver
    only returns names it was given and these are keys of [mod_files].  It
    merges exactly when at least two selected mods take part, and the text is
    then the merge of their entries in the resolved order. *)
Theorem start_game_merge_returns (selected_mods : list str) :
  let mods_with_em := _get_mods_with_event_modifiers mod_files os_path_join
                        os_path_isfile selected_mods mod_folder in
  ∃ merged,
    start_game_merge mod_files mod_dependencies os_path_join os_path_isfile
      read_text selected_mods mod_folder = Return merged
    ∧ (is_Some merged ↔ (2 ≤ length mods_with_em)%nat)
    ∧ ∀ merged_content, merged = Some merged_content →
        ∃ order_,
          _resolve_event_modifiers_load_order mod_dependencies mods_with_em
          = Return order_
          ∧ Forall (λ mod_name, mod_name ∈ selected_mods) order_
          ∧ merged_content
            = merged_text (all_entries mod_files os_path_join read_text
                             mod_folder order_).
Proof.
  intros mods_with_em. unfold start_game_merge. fold mods_with_em.
  assert (mods_with_em `sublist_of` selected_mods) as Hsub.
  { unfold mods_with_em. rewrite get_mods_with_event_modifiers_filter.
    apply sublist_filter. }
  assert (Forall (λ mod_name, is_Some (mod_files !! mod_name)) mods_with_em)
    as Hknown.
  { unfold mods_with_em. rewrite get_mods_with_event_modifiers_filter.
    apply Forall_forall. intros x [(rec & Hrec & _) _]%list_elem_of_filter.
    by exists rec. }
  case_bool_decide as Hlen; last first.
  { exists None. split_and!; [done| |done].
    split; [by intros [? ?]|lia]. }
  destruct (resolve_members mod_dependencies mods_with_em)
    as (order_ & Hres & Hmem).
  rewrite Hres. cbn [mbind outcome_bind].
  assert (Forall (λ mod_name, is_Some (mod_files !! mod_name)) order_) as Hk.
  { rewrite Forall_forall in Hknown. apply Forall_forall.
    intros x Hx. by apply Hknown, Hmem. }
  rewrite (merge_spec mod_files os_path_join read_text mod_folder order_ Hk).
  cbn [mbind outcome_bind]. eexists. split_and!; [done| |].
  - split; [lia|by eauto].
  - intros merged_content [= <-]. exists order_. split_and!; [done| |done].
    apply Forall_forall. intros x Hx.
    by apply (sublist_subseteq _ _ Hsub), Hmem.
Qed.
End launch_proofs.

(** ** The command line ([start_game]) *)

(** A list satisfies a decidable property throughout, or has a first element
    that does not. *)
Lemma Forall_or_first {A : Type} (P : A → Prop) `{!∀ x, Decision (P x)}
    (l : list A) :
  Forall P l ∨ ∃ l1 x l2, l = l1 ++ x :: l2 ∧ Forall P l1 ∧ ¬ P x.
Proof.
  induction l as [|x l IH]; [by left|].
  destruct (decide (P x)) as [Hx|Hx].
  - destruct IH as [IH|(l1 & y & l2 & -> & Hl1 & Hy)].
    + left. by apply List.Forall_cons.
    + right. exists (x :: l1), y, l2. split_and!; [done| |done].
      by apply List.Forall_cons.
  - right. exists [], x, l. split_and!; [done| |done]. apply List.Forall_nil.
Qed.

Section command_proofs.
Variable mod_files : gmap str mod_record.

#[local] Abbreviation add_arg :=
  (λ (mod_file_args : list str) (mod_ : str),
     arg ← mod_file_arg mod_files mod_; Return (mod_file_args ++ [arg])).

Lemma mod_file_arg_nameable (mod_ : str) :
  nameable mod_files mod_ →
  mod_file_arg mod_files mod_ = Return (mod_file_arg_text mod_files mod_).
Proof.
  unfold mod_file_arg, mod_file_arg_text, nameable.
  case_bool_decide as Hz; [done|]. intros [?|[rec Hrec]]; [done|].
  by rewrite (getitem_Some _ _ _ Hrec), Hrec.
Qed.

Lemma mod_file_arg_unknown (mod_ : str) :
  ¬ nameable mod_files mod_ →
  mod_file_arg mod_files mod_ = Raise (KeyError mod_).
Proof.
  unfold mod_file_arg, nameable. intros Hno.
  case_bool_decide as Hz; [by destruct Hno; left|].
  unfold getitem. destruct (mod_files !! mod_) as [rec|] eqn:Hrec; [|done].
  destruct Hno. right. by exists rec.
Qed.

Lemma mod_file_args_nameable (mods acc : list str) :
  Forall (nameable mod_files) mods →
  for_each add_arg acc mods
  = Return (acc ++ map (mod_file_arg_text mod_files) mods).
Proof.
  intros Hall. revert acc.
  induction Hall as [|mod_ mods Hmod _ IH]; intros acc; cbn [for_each map].
  - by rewrite app_nil_r.
  - rewrite (mod_file_arg_nameable _ Hmod). cbn [mbind outcome_bind].
    by rewrite IH, <-app_assoc.
Qed.

Lemma mod_file_args_unknown (l1 : list str) (mod_ : str) (l2 acc : list str) :
  Forall (nameable mod_files) l1 → ¬ nameable mod_files mod_ →
  for_each add_arg acc (l1 ++ mod_ :: l2) = Raise (KeyError mod_).
Proof.
  intros Hall Hno. revert acc.
  induction Hall as [|x l1 Hx _ IH]; intros acc; cbn [for_each app].
  - by rewrite (mod_file_arg_unknown _ Hno).
  - rewrite (mod_file_arg_nameable _ Hx). cbn [mbind outcome_bind]. apply IH.
Qed.

Lemma game_command_nameable (mods_to_load : list str) :
  Forall (nameable mod_files) mods_to_load →
  game_command mod_files mods_to_load
  = Return (game_command_text mod_files mods_to_load).
Proof.
  intros Hall. unfold game_command, game_command_text.
  case_bool_decide; [|done].
  by rewrite (mod_file_args_nameable _ [] Hall).
Qed.

(** X3.  [game_command] names every mod of [mods_to_load] in order,
    [z_launcher] by its fixed manifest [z_launcher.mod] whatever [mod_files]
    records for it, every other mod by the manifest file [mod_files] records;
    the only failure is the [KeyError] of the first mod that is neither
    [z_launcher] nor a key of [mod_files]. *)
Theorem game_command_spec (mods_to_load : list str) :
  (Forall (nameable mod_files) mods_to_load
   ∧ game_command mod_files mods_to_load
     = Return (game_command_text mod_files mods_to_load))
  ∨ (∃ l1 mod_ l2,
       mods_to_load = l1 ++ mod_ :: l2
       ∧ Forall (nameable mod_files) l1
       ∧ mod_ ≠ Z_LAUNCHER_NAME ∧ mod_files !! mod_ = None
       ∧ game_command mod_files mods_to_load = Raise (KeyError mod_)).
Proof.
  destruct (Forall_or_first (nameable mod_files) mods_to_load)
    as [Hall|(l1 & mod_ & l2 & -> & Hl1 & Hno)].
  - left. split; [done|]. by apply game_command_nameable.
  - right. exists l1, mod_, l2. split_and!; [done|done| | |].
    + intros ->. apply Hno. by left.
    + destruct (mod_files !! mod_) as [rec|] eqn:Hrec; [|done].
      destruct Hno. right. by exists rec.
    + unfold game_command. rewrite bool_decide_eq_true_2.
      * by rewrite (mod_file_args_unknown l1 mod_ l2 [] Hl1 Hno).
      * by destruct l1.
Qed.
End command_proofs.

Section start_game_proofs.
Variable mod_files : gmap str mod_record.
Variable mod_dependencies : gmap str (list str).
Variable os_path_join : list str → str.
Variable os_path_isfile : str → bool.
Variable read_text : str → option str.



End start_game_proofs.


(** ** The checked mods *)

Section checked_proofs.
Variable mod_files : gmap str mod_record.
Variable mod_user_dirs : gmap str str.

#[local] Abbreviation known := (λ mod_name : str, is_Some (mod_files !! mod_name)).

Lemma checked_known_skip (text : str) (checked : bool)
    (items : list (str * bool)) :
  checked = false ∨ mod_files !! text = None →
  checked_known mod_files ((text, checked) :: items)
  = checked_known mod_files items.
Proof.
  unfold checked_known. intros Hskip. rewrite filter_cons. cbn [snd].
  case_decide as Hc; [|done]. rewrite fmap_cons, filter_cons. cbn [fst].
  case_decide as Hk; [|done]. subst checked.
  destruct Hskip as [?|Hnone]; [done|]. rewrite Hnone in Hk. by destruct Hk.
Qed.

Lemma checked_known_keep (text : str) (items : list (str * bool)) :
  is_Some (mod_files !! text) →
  checked_known mod_files ((text, true) :: items)
  = text :: checked_known mod_files items.
Proof.
  unfold checked_known. intros Hk. rewrite filter_cons. cbn [snd].
  rewrite decide_True by done. rewrite fmap_cons, filter_cons. cbn [fst].
  by rewrite decide_True.
Qed.

(** What the loop has appended is a prefix of the checked known mods, and
    all of them unless a mod without an entry in [mod_user_dirs] ended it. *)
Lemma get_checked_loop_prefix (items : list (str * bool)) (st : checked_state) :
  ∃ appended,
    checked_mods (get_checked_loop mod_files mod_user_dirs items st).1
    = checked_mods st ++ appended
    ∧ match (get_checked_loop mod_files mod_user_dirs items st).2 with
      | None => appended = checked_known mod_files items
      | Some e =>
          appended `prefix_of` checked_known mod_files items
          ∧ ∃ mod_name, e = KeyError mod_name
                        ∧ last appended = Some mod_name
                        ∧ mod_user_dirs !! mod_name = None
      end.
Proof.
  revert st. induction items as [|[text checked] items IH]; intros st.
  { exists []. cbn. by rewrite app_nil_r. }
  cbn [get_checked_loop]. destruct checked; last first.
  { rewrite checked_known_skip by by left. apply IH. }
  case_bool_decide as Hk; last first.
  { rewrite checked_known_skip; [apply IH|]. right.
    destruct (mod_files !! text) eqn:E; [|done]. by destruct Hk. }
  rewrite (checked_known_keep _ _ Hk).
  destruct (mod_user_dirs !! text) as [d|] eqn:Hd.
  - destruct (IH (CheckedState (checked_mods st ++ [text])
                    (if bool_decide (d ≠ []) then Some text
                     else last_user_dir_mod st)))
      as (appended & Happ & Hrest).
    exists (text :: appended). rewrite Happ. cbn [checked_mods].
    split; [by rewrite <-app_assoc|].
    destruct (get_checked_loop _ _ items _).2 as [e|].
    + destruct Hrest as (Hpre & mod_name & -> & Hlast & Hnone).
      split; [by apply prefix_cons|]. exists mod_name. split_and!; [done| |done].
      destruct appended; [done|]. by rewrite last_cons_cons.
    + by rewrite Hrest.
  - exists [text]. cbn [fst snd checked_mods]. split; [done|]. split.
    + apply prefix_cons, prefix_nil.
    + by exists text.
Qed.

(** With an entry in [mod_user_dirs] for every known mod the loop runs to
    its end. *)
Lemma get_checked_loop_total (items : list (str * bool)) (st : checked_state) :
  (∀ mod_name, is_Some (mod_files !! mod_name) →
               is_Some (mod_user_dirs !! mod_name)) →
  get_checked_loop mod_files mod_user_dirs items st
  = (CheckedState
       (checked_mods st ++ checked_known mod_files items)
       (from_option Some (last_user_dir_mod st)
          (last (user_dir_mods mod_files mod_user_dirs items))),
     None).
Proof.
  intros Hdirs. revert st. unfold user_dir_mods.
  induction items as [|[text checked] items IH]; intros st.
  { cbn. rewrite app_nil_r. by destruct st. }
  cbn [get_checked_loop]. destruct checked; last first.
  { rewrite checked_known_skip by by left. apply IH. }
  case_bool_decide as Hk; last first.
  { rewrite checked_known_skip; [apply IH|]. right.
    destruct (mod_files !! text) eqn:E; [|done]. by destruct Hk. }
  rewrite (checked_known_keep _ _ Hk).
  destruct (Hdirs _ Hk) as [d Hd]. rewrite Hd, IH. cbn [checked_mods last_user_dir_mod].
  rewrite <-app_assoc. cbn [app]. f_equal. f_equal.
  assert (user_dir_of mod_user_dirs text = d) as Hud.
  { unfold user_dir_of. by rewrite Hd. }
  rewrite filter_cons, Hud.
  set (rest := filter _ (checked_known mod_files items)).
  case_bool_decide as Hne.
  - rewrite decide_True by done.
    destruct rest as [|x rest']; [done|]. rewrite last_cons_cons.
    destruct (proj2 (last_is_Some (x :: rest'))) as [y ->]; done.
  - case_decide; done.
Qed.

(** X5.  [get_checked_mods] returns checked items that are keys of
    [mod_files], in tree order: a prefix of the checked known mods.  It falls
    short of all of them only when a checked known mod has no entry in
    [mod_user_dirs]: the [KeyError] is caught, that mod is the last of the
    list returned, and [self.user_dir] keeps its value. *)
Theorem get_checked_mods_prefix (items : list (str * bool)) (user_dir : str) :
  let result := get_checked_mods mod_files mod_user_dirs items user_dir in
  result.1 `prefix_of` checked_known mod_files items
  ∧ Forall (λ mod_name, is_Some (mod_files !! mod_name)) result.1
  ∧ (result.1 = checked_known mod_files items
     ∨ result.2 = user_dir
       ∧ ∃ mod_name, last result.1 = Some mod_name
                     ∧ mod_user_dirs !! mod_name = None).
Proof.
  intros result.
  assert (result.1 `prefix_of` checked_known mod_files items
          ∧ (result.1 = checked_known mod_files items
             ∨ result.2 = user_dir
               ∧ ∃ mod_name, last result.1 = Some mod_name
                             ∧ mod_user_dirs !! mod_name = None))
    as [Hpre Hcases].
  { unfold result, get_checked_mods.
    destruct (get_checked_loop_prefix items (CheckedState [] None))
      as (appended & Happ & Hrest).
    destruct (get_checked_loop mod_files mod_user_dirs items _) as [st raised].
    cbn [fst snd checked_mods app] in Happ, Hrest.
    destruct raised as [e|].
    - destruct Hrest as (Hpre & mod_name & -> & Hlast & Hnone).
      cbn [fst snd]. rewrite Happ. split; [done|]. right. split; [done|].
      by exists mod_name.
    - assert (∀ d : str, ((checked_mods st, d).1 `prefix_of` checked_known mod_files items)
                 ∧ ((checked_mods st, d).1 = checked_known mod_files items
                    ∨ (checked_mods st, d).2 = user_dir
                      ∧ ∃ mod_name, last (checked_mods st, d).1 = Some mod_name
                                    ∧ mod_user_dirs !! mod_name = None)) as Hall.
      { intros d. cbn [fst snd]. rewrite Happ, Hrest. split; [done|by left]. }
      destruct (last_user_dir_mod st) as [last_|]; [|apply Hall].
      case_bool_decide; [|apply Hall].
      destruct (mod_user_dirs !! last_); apply Hall. }
  split_and!; [done| |done].
  apply Forall_forall. intros x Hx.
  destruct Hpre as [rest Hrest].
  assert (x ∈ checked_known mod_files items) as Hin.
  { rewrite Hrest. apply elem_of_app. by left. }
  unfold checked_known in Hin. by apply list_elem_of_filter in Hin as [? _].
Qed.

Lemma get_checked_mods_fst (items : list (str * bool)) (user_dir : str) :
  (∀ mod_name, is_Some (mod_files !! mod_name) →
               is_Some (mod_user_dirs !! mod_name)) →
  (get_checked_mods mod_files mod_user_dirs items user_dir).1
  = checked_known mod_files items.
Proof.
  intros Hdirs. unfold get_checked_mods.
  rewrite (get_checked_loop_total items _ Hdirs).
  cbn [checked_mods last_user_dir_mod app].
  destruct (from_option _ _ _) as [last_|]; [|done].
  case_bool_decide; [|done]. by destruct (mod_user_dirs !! last_).
Qed.

(** X6.  When every key of [mod_files] is a key of [mod_user_dirs] and the
    empty name is no key, as after [load_mods], [get_checked_mods] returns all
    the checked known mods in tree order and sets [self.user_dir] to the user
    directory of the last of them that records one, or to the empty text when
    none does. *)
Theorem get_checked_mods_spec (items : list (str * bool)) (user_dir : str) :
  (∀ mod_name, is_Some (mod_files !! mod_name) →
               is_Some (mod_user_dirs !! mod_name)) →
  mod_files !! ([] : str) = None →
  get_checked_mods mod_files mod_user_dirs items user_dir
  = (checked_known mod_files items,
     default [] (user_dir_of mod_user_dirs
                   <$> last (user_dir_mods mod_files mod_user_dirs items))).
Proof.
  intros Hdirs Hempty. unfold get_checked_mods.
  rewrite (get_checked_loop_total items _ Hdirs).
  cbn [checked_mods last_user_dir_mod app].
  destruct (last (user_dir_mods mod_files mod_user_dirs items))
    as [last_|] eqn:Hlast; cbn [from_option fmap option_fmap option_map default];
    [|done].
  assert (is_Some (mod_files !! last_)) as Hk.
  { apply last_Some_elem_of in Hlast. unfold user_dir_mods in Hlast.
    apply list_elem_of_filter in Hlast as [_ Hin].
    unfold checked_known in Hin. by apply list_elem_of_filter in Hin as [? _]. }
  rewrite bool_decide_eq_true_2.
  - destruct (Hdirs _ Hk) as [d Hd]. unfold user_dir_of. by rewrite Hd.
  - intros ->. rewrite Hempty in Hk. by destruct Hk.
Qed.
End checked_proofs.

(** ** Scanning the mod folder *)

Lemma split_nonempty (c : char) (s : str) : split c s ≠ [].
Proof.
  destruct s as [|d s]; cbn [split]; [done|].
  destruct (c =? d)%N; [done|]. by destruct (split c s).
Qed.

Lemma split_no_separator (c : char) (s : str) :
  Forall (λ piece, c ∉ piece) (split c s).
Proof.
  induction s as [|d s IH]; cbn [split].
  - apply List.Forall_cons; [apply not_elem_of_nil|apply List.Forall_nil].
  - destruct (c =? d)%N eqn:Hcd.
    + apply List.Forall_cons; [apply not_elem_of_nil|done].
    + apply N.eqb_neq in Hcd.
      destruct (split c s) as [|piece rest]; inversion IH; subst.
      * apply List.Forall_cons; [|apply List.Forall_nil].
        intros [?|[]%elem_of_nil]%elem_of_cons. done.
      * apply List.Forall_cons; [|done].
        intros [?|?]%elem_of_cons; done.
Qed.

Lemma split_join (c : char) (s : str) : str_join [c] (split c s) = s.
Proof.
  induction s as [|d s IH]; cbn [split]; [done|].
  destruct (c =? d)%N eqn:Hcd.
  - apply N.eqb_eq in Hcd as <-. pose proof (split_nonempty c s).
    cbn [str_join]. destruct (split c s); [done|]. cbn [app]. by rewrite IH.
  - pose proof (split_nonempty c s).
    destruct (split c s) as [|piece rest]; [done|].
    rewrite <-IH. cbn [str_join]. by destruct rest.
Qed.

Lemma str_join_snoc (sep : str) (parts : list str) (part : str) :
  parts ≠ [] →
  str_join sep (parts ++ [part]) = str_join sep parts ++ sep ++ part.
Proof.
  induction parts as [|p parts IH]; [done|]. intros _.
  destruct parts as [|q parts]; [done|].
  change (str_join sep ((p :: q :: parts) ++ [part]))
    with (p ++ sep ++ str_join sep ((q :: parts) ++ [part])).
  rewrite IH by done. cbn [str_join]. by rewrite <-!app_assoc.
Qed.

(** The text after the last separator: [s] ends with it, right after a
    separator or at the start of [s], and it holds no separator. *)
Lemma split_last (c : char) (s : str) :
  ∃ before,
    s = before ++ List.last (split c s) []
    ∧ (c ∉ List.last (split c s) [])
    ∧ (before = [] ∨ last before = Some c).
Proof.
  pose proof (split_join c s) as Hjoin.
  pose proof (split_no_separator c s) as Hno.
  pose proof (split_nonempty c s) as Hne.
  destruct (split c s) as [|p ps] using rev_ind; [done|]. clear IHps.
  rewrite List.last_last. apply Forall_app in Hno as [_ Hno].
  inversion Hno; subst.
  destruct (decide (ps = [])) as [->|Hps].
  - exists []. by split_and!; [|done|left].
  - rewrite str_join_snoc by done.
    exists (str_join [c] ps ++ [c]). split_and!; [|done|].
    + by rewrite <-app_assoc.
    + right. by rewrite last_snoc.
Qed.

Lemma mod_folder_name_spec (mod_path : str) :
  ∃ before,
    mod_path = before ++ mod_folder_name mod_path
    ∧ (SLASH ∉ mod_folder_name mod_path)
    ∧ (before = [] ∨ last before = Some SLASH).
Proof.
  unfold mod_folder_name. case_bool_decide as Hpath.
  - apply split_last.
  - exists []. split_and!; [|apply not_elem_of_nil|by left].
    by rewrite Hpath.
Qed.

Section load_mods_proofs.
Variable os_path_join : list str → str.
Variable read_text : str → option str.
Variable mod_folder : str.

#[local] Abbreviation scan := (load_mods_scan os_path_join read_text mod_folder).
#[local] Abbreviation loaded := (loaded_manifest os_path_join read_text mod_folder).

Lemma load_mod_file_loaded (self : launcher) (file : str) :
  load_mod_file os_path_join read_text mod_folder self file
  = match loaded file with
    | Some m =>
        Launcher (<[name m := manifest_record file m]> (self_mod_files self))
                 (<[name m := dependencies m]> (self_mod_dependencies self))
                 (<[name m := user_dir m]> (self_mod_user_dirs self))
    | None => self
    end.
Proof.
  unfold load_mod_file, loaded_manifest.
  destruct (endswith file _); [|done].
  destruct (read_text _) as [content|]; cbn [mbind option_bind]; [|done].
  by case_bool_decide.
Qed.

Lemma load_mods_scan_snoc (listing : list str) (file : str) :
  scan (listing ++ [file])
  = load_mod_file os_path_join read_text mod_folder (scan listing) file.
Proof. unfold load_mods_scan. by rewrite foldl_snoc. Qed.

Lemma loaded_manifests_app (listing1 listing2 : list str) :
  loaded_manifests os_path_join read_text mod_folder (listing1 ++ listing2)
  = loaded_manifests os_path_join read_text mod_folder listing1
    ++ loaded_manifests os_path_join read_text mod_folder listing2.
Proof. unfold loaded_manifests. apply omap_app. Qed.

Lemma loaded_manifests_singleton (file : str) :
  loaded_manifests os_path_join read_text mod_folder [file]
  = match loaded file with
    | Some m => [(file, m)]
    | None => []
    end.
Proof. unfold loaded_manifests. cbn [omap list_omap]. by destruct (loaded file). Qed.

Lemma loaded_manifests_elem_of (listing : list str) (file : str) (m : manifest) :
  (file, m) ∈ loaded_manifests os_path_join read_text mod_folder listing ↔
  file ∈ listing ∧ loaded file = Some m.
Proof.
  unfold loaded_manifests. rewrite list_elem_of_omap. split.
  - intros (file' & Hin & Hsome).
    destruct (loaded file') as [m'|] eqn:Hl; [|done].
    cbn in Hsome. by simplify_eq.
  - intros [Hin Hl]. exists file. split; [done|]. by rewrite Hl.
Qed.

(** Each of the three dicts holds, for a name, what the last manifest of the
    listing that bears the name gave. *)
Lemma load_mods_scan_lookup (listing : list str) (mod_name : str) :
  let hit := last_manifest os_path_join read_text mod_folder listing mod_name in
  self_mod_files (scan listing) !! mod_name
  = (λ fm, manifest_record fm.1 fm.2) <$> hit
  ∧ self_mod_dependencies (scan listing) !! mod_name
    = (λ fm, dependencies fm.2) <$> hit
  ∧ self_mod_user_dirs (scan listing) !! mod_name
    = (λ fm, user_dir fm.2) <$> hit.
Proof.
  unfold last_manifest.
  induction listing as [|file listing IH] using rev_ind.
  { cbn. by rewrite !lookup_empty. }
  cbn zeta in IH |- *. destruct IH as (IHf & IHd & IHu).
  rewrite load_mods_scan_snoc, load_mod_file_loaded, loaded_manifests_app.
  rewrite filter_app, loaded_manifests_singleton.
  destruct (loaded file) as [m|]; [|by rewrite filter_nil, app_nil_r].
  cbn [self_mod_files self_mod_dependencies self_mod_user_dirs].
  rewrite filter_cons, filter_nil. cbn [snd].
  destruct (decide (name m = mod_name)) as [<-|Hne].
  - rewrite last_snoc, !lookup_insert_eq. done.
  - rewrite app_nil_r, !lookup_insert_ne by done. done.
Qed.

Lemma last_manifest_Some (listing : list str) (mod_name file : str)
    (m : manifest) :
  last_manifest os_path_join read_text mod_folder listing mod_name
  = Some (file, m) →
  file ∈ listing ∧ loaded file = Some m ∧ name m = mod_name.
Proof.
  unfold last_manifest. intros Hlast%last_Some_elem_of.
  apply list_elem_of_filter in Hlast as [Hname Hin].
  apply loaded_manifests_elem_of in Hin as [Hin Hl]. done.
Qed.

Lemma loaded_manifest_Some (file : str) (m : manifest) :
  loaded file = Some m →
  endswith file (py ".mod") = true ∧ name m ≠ []
  ∧ ∃ content, read_text (os_path_join [mod_folder; file]) = Some content
               ∧ m = parse_manifest content.
Proof.
  unfold loaded_manifest. destruct (endswith file _); [|done].
  destruct (read_text _) as [content|]; cbn [mbind option_bind]; [|done].
  case_bool_decide; [|done]. intros [= <-]. split_and!; [done..|].
  by exists content.
Qed.

Lemma load_mods_scan_keys (listing : list str) (mod_name : str) :
  (is_Some (self_mod_files (scan listing) !! mod_name) ↔
   is_Some (self_mod_dependencies (scan listing) !! mod_name))
  ∧ (is_Some (self_mod_files (scan listing) !! mod_name) ↔
     is_Some (self_mod_user_dirs (scan listing) !! mod_name))
  ∧ (is_Some (self_mod_files (scan listing) !! mod_name) → mod_name ≠ []).
Proof.
  destruct (load_mods_scan_lookup listing mod_name) as (-> & -> & ->).
  rewrite !fmap_is_Some. split_and!; [done..|].
  intros [[file m] Hlast]. apply last_manifest_Some in Hlast as (_ & Hl & <-).
  by apply loaded_manifest_Some in Hl as (_ & ? & _).
Qed.

(** X7.  After the scan of [load_mods] the dicts [mod_files],
    [mod_dependencies] and [mod_user_dirs] have the same keys, and the empty
    name is not among them. *)
Theorem load_mods_same_keys (listing : list str) :
  dom (self_mod_files (scan listing))
  =@{gset str} dom (self_mod_dependencies (scan listing))
  ∧ dom (self_mod_files (scan listing))
    =@{gset str} dom (self_mod_user_dirs (scan listing))
  ∧ ([] : str) ∉@{gset str} dom (self_mod_files (scan listing)).
Proof.
  split_and!.
  - apply set_eq. intros mod_name. rewrite !elem_of_dom.
    apply (load_mods_scan_keys listing mod_name).
  - apply set_eq. intros mod_name. rewrite !elem_of_dom.
    apply (load_mods_scan_keys listing mod_name).
  - rewrite elem_of_dom. intros Hk.
    by apply (load_mods_scan_keys listing []) in Hk.
Qed.

(** X8.  Every record the scan leaves in [mod_files] comes from a [.mod]
    file of the listing; its folder holds no ["/"] and is the end of its path,
    starting at the path or right after a ["/"]; its [github] and [version]
    are [None] rather than an empty text. *)
Theorem load_mods_records (listing : list str) (mod_name : str)
    (rec : mod_record) :
  self_mod_files (scan listing) !! mod_name = Some rec →
  mf_file rec ∈ listing
  ∧ endswith (mf_file rec) (py ".mod") = true
  ∧ (SLASH ∉ mf_folder rec)
  ∧ (∃ before, mf_path rec = before ++ mf_folder rec
               ∧ (before = [] ∨ last before = Some SLASH))
  ∧ mf_github rec ≠ Some []
  ∧ mf_version rec ≠ Some [].
Proof.
  destruct (load_mods_scan_lookup listing mod_name) as (-> & _ & _).
  destruct (last_manifest _ _ _ _ _) as [[file m]|] eqn:Hlast; [|done].
  intros [= <-]. apply last_manifest_Some in Hlast as (Hin & Hl & _).
  apply loaded_manifest_Some in Hl as (Hext & _ & _).
  cbn [manifest_record mf_file mf_folder mf_path mf_github mf_version fst snd].
  destruct (mod_folder_name_spec (mod_path m)) as (before & Hpath & Hno & Hbefore).
  split_and!; [done..| | |].
  - by exists before.
  - unfold or_None. by case_bool_decide; [intros [= ?]|].
  - unfold or_None. by case_bool_decide; [intros [= ?]|].
Qed.

Lemma last_manifest_found (listing1 : list str) (file : str)
    (listing2 : list str) (m : manifest) :
  loaded file = Some m →
  Forall (λ file', name <$> loaded file' ≠ Some (name m)) listing2 →
  last_manifest os_path_join read_text mod_folder
    (listing1 ++ file :: listing2) (name m) = Some (file, m).
Proof.
  intros Hl Hlater. unfold last_manifest.
  rewrite (loaded_manifests_app listing1 (file :: listing2)).
  change (file :: listing2) with ([file] ++ listing2).
  rewrite (loaded_manifests_app [file] listing2), !filter_app.
  assert (filter (λ fm : str * manifest, name fm.2 = name m)
            (loaded_manifests os_path_join read_text mod_folder listing2)
          = []) as ->.
  { destruct (filter _ _) as [|[file' m'] rest] eqn:Hfilter; [done|].
    assert ((file', m') ∈ (file', m') :: rest) as Hin by left.
    rewrite <-Hfilter in Hin.
    apply list_elem_of_filter in Hin as [Hname Hin].
    apply loaded_manifests_elem_of in Hin as [Hin Hl'].
    rewrite Forall_forall in Hlater. specialize (Hlater _ Hin).
    rewrite Hl' in Hlater. cbn in Hlater, Hname. congruence. }
  rewrite app_nil_r, loaded_manifests_singleton, Hl.
  rewrite filter_cons, filter_nil. cbn [snd].
  by rewrite decide_True, last_snoc.
Qed.

(** X9.  The last manifest wins: the entries of a name in the three dicts
    are those of the last file of the listing whose manifest bears it. *)
Theorem load_mods_last_manifest_wins (listing1 : list str) (file : str)
    (listing2 : list str) (m : manifest) :
  loaded file = Some m →
  Forall (λ file', name <$> loaded file' ≠ Some (name m)) listing2 →
  let self := scan (listing1 ++ file :: listing2) in
  self_mod_files self !! name m = Some (manifest_record file m)
  ∧ self_mod_dependencies self !! name m = Some (dependencies m)
  ∧ self_mod_user_dirs self !! name m = Some (user_dir m).
Proof.
  intros Hl Hlater self.
  destruct (load_mods_scan_lookup (listing1 ++ file :: listing2) (name m))
    as (Hf & Hd & Hu).
  unfold self.
  rewrite Hf, Hd, Hu, (last_manifest_found listing1 file listing2 m Hl Hlater).
  done.
Qed.

(** X10.  A file that is no [.mod] file, cannot be read, or whose manifest
    gives no name leaves no trace: the scan ends in the same dicts as without
    it. *)
Theorem load_mods_ignores_file (listing1 : list str) (file : str)
    (listing2 : list str) :
  loaded file = None →
  scan (listing1 ++ file :: listing2) = scan (listing1 ++ listing2).
Proof.
  intros Hl. unfold load_mods_scan. rewrite !foldl_app. cbn [foldl].
  by rewrite load_mod_file_loaded, Hl.
Qed.
End load_mods_proofs.

Lemma get_checked_mods_spec_witness :
  get_checked_mods example_mod_files example_user_dirs
    [(py "A", true); (py "B", true); (py "C", false); (py "D", true)]
    (py "old")
  = ([py "A"; py "B"], py "bdir").
Proof.
  rewrite (get_checked_mods_spec example_mod_files example_user_dirs).
  - by vm_compute.
  - intros mod_name [rec Hrec].
    assert (map_Forall (λ k _, is_Some (example_user_dirs !! k))
                       example_mod_files) as Hall by by_compute.
    exact (Hall _ _ Hrec).
  - by vm_compute.
Defined.

Lemma load_mods_records_witness :
  py "B.mod" ∈ example_listing
  ∧ (SLASH ∉ py "B")
  ∧ ∃ before, py "mod/B" = before ++ py "B"
              ∧ (before = [] ∨ last before = Some SLASH).
Proof.
  destruct (load_mods_records example_join example_manifests (py "mod")
              example_listing (py "B")
              (ModRecord (py "B.mod") (py "mod/B") (py "B") None None))
    as (Hin & _ & Hno & Hpath & _); [by vm_compute|].
  split_and!; [exact Hin|exact Hno|exact Hpath].
Defined.

Lemma load_mods_last_manifest_wins_witness :
  self_mod_dependencies
    (load_mods_scan example_join example_manifests (py "mod") example_listing)
    !! py "B" = Some [py "A"].
Proof.
  destruct (load_mods_last_manifest_wins example_join example_manifests
              (py "mod") [py "A.mod"; py "readme.txt"; py "broken.mod"]
              (py "B.mod") [py "anon.mod"]
              (Manifest (py "B") [py "A"] [] [] [] (py "mod/B")))
    as (_ & Hdeps & _).
  - by vm_compute.
  - apply List.Forall_cons; [by vm_compute|apply List.Forall_nil].
  - exact Hdeps.
Defined.

Lemma load_mods_ignores_file_witness :
  load_mods_scan example_join example_manifests (py "mod")
    [py "A.mod"; py "readme.txt"; py "B.mod"]
  = load_mods_scan example_join example_manifests (py "mod")
      [py "A.mod"; py "B.mod"].
Proof.
  apply (load_mods_ignores_file example_join example_manifests (py "mod")
           [py "A.mod"] (py "readme.txt") [py "B.mod"]).
  by vm_compute.
Defined.

(** ** From the scan to the command line *)

Section pipeline_proofs.
Variable os_path_join : list str → str.
Variable read_manifest : str → option str.
Variable os_path_isfile : str → bool.
Variable read_text : str → option str.
Variable mod_folder : str.

End pipeline_proofs.

(** ** Placing the mods in the tree *)

Lemma first_shown_Some (items : gset str) (dependencies : list str)
    (dep : str) :
  first_shown items dependencies = Some dep →
  dep ∈ items ∧ dep ∈ dependencies.
Proof.
  induction dependencies as [|d dependencies IH]; cbn [first_shown]; [done|].
  case_bool_decide as Hd.
  - intros [= <-]. split; [done|left].
  - intros [? ?]%IH. split; [done|by right].
Qed.

Section tree_proofs.
Variable os_path_join : list str → str.
Variable read_text : str → option str.
Variable mod_folder : str.

(** X12.  After the scan, the loop that fills the tree places every key of
    [mod_files] except [z_launcher], and nothing else: the test
    [mod_name not in mod_items] never fires.  An item is attached under one of
    the mod's listed dependencies, which is itself shown and so is never
    [z_launcher], or at top level when the mod lists no shown dependency. *)
Theorem load_mods_tree_places (listing : list str) :
  let self := load_mods_scan os_path_join read_text mod_folder listing in
  dom (tree_places self) = mod_items (self_mod_files self)
  ∧ map_Forall
      (λ mod_name where_,
         match where_ with
         | ChildOf parent =>
             parent ∈ mod_items (self_mod_files self)
             ∧ parent ≠ Z_LAUNCHER_NAME
             ∧ ∃ dependencies,
                 self_mod_dependencies self !! mod_name = Some dependencies
                 ∧ parent ∈ dependencies
         | TopLevel =>
             ∃ dependencies,
               self_mod_dependencies self !! mod_name = Some dependencies
               ∧ Forall (λ dep, dep ∉ mod_items (self_mod_files self))
                        dependencies
         end)
      (tree_places self).
Proof.
  intros self. split.
  - apply set_eq. intros mod_name. unfold tree_places, mod_items.
    rewrite elem_of_dom, map_lookup_imap, elem_of_difference, elem_of_dom.
    rewrite not_elem_of_singleton.
    destruct (load_mods_scan_keys os_path_join read_text mod_folder listing
                mod_name) as (Hdeps & _ & _).
    fold self in Hdeps. rewrite Hdeps.
    destruct (self_mod_dependencies self !! mod_name) as [dependencies|]
      eqn:Hd; cbn [mbind option_bind]; last first.
    { split; [by intros [? ?]|by intros [[? ?] _]]. }
    unfold place_mod. case_bool_decide as Hz.
    { split; [by intros [? ?]|by intros [_ ?]]. }
    rewrite bool_decide_eq_false_2; last first.
    { intros Hnot. apply Hnot. apply elem_of_difference. split.
      - apply elem_of_dom, Hdeps. by exists dependencies.
      - by apply not_elem_of_singleton. }
    split; [by intros _; split; [eexists|]|]. intros _.
    case_bool_decide; [|by eexists].
    destruct (first_shown _ dependencies); by eexists.
  - intros mod_name where_. unfold tree_places.
    rewrite map_lookup_imap.
    destruct (self_mod_dependencies self !! mod_name) as [dependencies|]
      eqn:Hd; cbn [mbind option_bind]; [|done].
    unfold place_mod. case_bool_decide as Hz; [done|].
    case_bool_decide as Hshown; [done|].
    assert (first_shown (mod_items (self_mod_files self)) dependencies = None →
            Forall (λ dep, dep ∉ mod_items (self_mod_files self)) dependencies)
      as Hnone.
    { clear. induction dependencies as [|d l IH]; cbn [first_shown].
      - intros _. apply List.Forall_nil.
      - case_bool_decide; [done|]. intros ?%IH. by apply List.Forall_cons. }
    case_bool_decide as Hne.
    + destruct (first_shown _ dependencies) as [dep|] eqn:Hfirst.
      * intros [= <-]. apply first_shown_Some in Hfirst as [Hin Hdep].
        split_and!; [done| |by exists dependencies].
        intros ->. unfold mod_items in Hin.
        apply elem_of_difference in Hin as [_ Hin].
        by apply Hin, elem_of_singleton.
      * intros [= <-]. exists dependencies. split; [done|]. by apply Hnone.
    + intros [= <-]. exists dependencies. split; [done|].
      assert (dependencies = []) as ->; [|apply List.Forall_nil].
      destruct dependencies; [done|]. by destruct Hne.
Qed.
End tree_proofs.

(** ** The default game roots *)

Lemma first_appearance_NoDup (keys : list str) : NoDup (first_appearance keys).
Proof.
  induction keys as [|k keys IH]; cbn [first_appearance]; [constructor|].
  apply NoDup_cons. split.
  - rewrite list_elem_of_filter. by intros [? _].
  - by apply NoDup_filter.
Qed.

Lemma first_appearance_sublist (keys : list str) :
  first_appearance keys `sublist_of` keys.
Proof.
  induction keys as [|k keys IH]; cbn [first_appearance]; [done|].
  apply sublist_skip. etrans; [apply sublist_filter|done].
Qed.

(** The de-duplication loop keeps the first occurrence of each root. *)
Lemma dedupe_loop (roots : list str) :
  deduped (foldl dedupe_root (DedupeState ∅ []) roots) = first_appearance roots
  ∧ ∀ root, root ∈ seen (foldl dedupe_root (DedupeState ∅ []) roots)
            ↔ root ∈ roots.
Proof.
  induction roots as [|root roots [IHd IHs]] using rev_ind.
  { cbn. split; [done|]. intros root.
    rewrite elem_of_empty, elem_of_nil. done. }
  rewrite foldl_snoc, first_appearance_snoc.
  set (st := foldl dedupe_root (DedupeState ∅ []) roots) in *.
  unfold dedupe_root. destruct (decide (root ∈ seen st)) as [Hseen|Hseen].
  - rewrite bool_decide_eq_false_2 by (intros Hn; by apply Hn).
    rewrite bool_decide_eq_true_2
      by (by rewrite first_appearance_elem_of, <-IHs).
    split; [done|]. intros y. rewrite elem_of_app, list_elem_of_singleton, IHs.
    split; [tauto|]. intros [?| ->]; [done|]. by apply IHs.
  - rewrite bool_decide_eq_true_2 by done.
    rewrite bool_decide_eq_false_2
      by (by rewrite first_appearance_elem_of, <-IHs).
    cbn [deduped seen]. rewrite IHd. split; [done|]. intros y.
    rewrite elem_of_union, elem_of_singleton, elem_of_app,
      list_elem_of_singleton, IHs. tauto.
Qed.

Section game_roots_proofs.
Variable os_path_exists : str → bool.
Variable os_path_join : list str → str.
Variable os_path_dirname : str → str.

Lemma default_game_roots_head (application_path : str) :
  ∃ others,
    default_game_roots os_path_exists os_path_join os_path_dirname
      application_path
    = application_path :: os_path_dirname application_path :: others.
Proof.
  unfold default_game_roots.
  generalize (_get_available_drives os_path_exists). intros drives.
  assert (∀ init : list str, ∃ others,
    foldl (λ roots drive,
             (roots
              ++ [os_path_join
                    [drive;
                     py "Program Files (x86)\Steam\steamapps\common\Victoria 2"]])
             ++ [os_path_join [drive; py "GOG Games\Victoria II"]])
          init drives = init ++ others) as Haux.
  { induction drives as [|drive drives IH]; intros init; cbn [foldl].
    - exists []. by rewrite app_nil_r.
    - destruct (IH ((init ++ [os_path_join
                    [drive;
                     py "Program Files (x86)\Steam\steamapps\common\Victoria 2"]])
             ++ [os_path_join [drive; py "GOG Games\Victoria II"]]))
        as [others ->].
      eexists. by rewrite <-!app_assoc. }
  destruct (Haux [application_path; os_path_dirname application_path])
    as [others ->].
  by exists others.
Qed.

(** X13.  [_build_default_game_roots] returns the candidate roots without
    repetition, each at the place of its first occurrence: the same roots, in
    the same order, the application path first. *)
Theorem build_default_game_roots_spec (application_path : str) :
  let roots := default_game_roots os_path_exists os_path_join os_path_dirname
                 application_path in
  let result := _build_default_game_roots os_path_exists os_path_join
                  os_path_dirname application_path in
  result = first_appearance roots
  ∧ NoDup result
  ∧ (∀ root, root ∈ result ↔ root ∈ roots)
  ∧ result `sublist_of` roots
  ∧ head result = Some application_path.
Proof.
  intros roots result.
  assert (result = first_appearance roots) as ->.
  { unfold result, _build_default_game_roots. apply dedupe_loop. }
  split_and!.
  - done.
  - apply first_appearance_NoDup.
  - intros root. apply first_appearance_elem_of.
  - apply first_appearance_sublist.
  - unfold roots.
    destruct (default_game_roots_head application_path) as [others ->].
    done.
Qed.
End game_roots_proofs.

(** ** The root folder of a zipball *)

Lemma zip_roots_elem_of (namelist : list str) (root : str) :
  root ∈ foldl add_zip_root ∅ namelist ↔
  root ≠ [] ∧ ∃ name_, name_ ∈ namelist ∧ (split_once SLASH name_).1 = root.
Proof.
  induction namelist as [|name_ namelist IH] using rev_ind.
  { cbn. rewrite elem_of_empty. split; [done|].
    by intros (_ & n & ?%elem_of_nil & _). }
  rewrite foldl_snoc. unfold add_zip_root at 1. case_bool_decide as Hfirst.
  - rewrite elem_of_union, elem_of_singleton, IH. split.
    + intros [->|(Hne & n & Hin & Hn)].
      * split; [done|]. exists name_. split; [|done].
        apply elem_of_app. right. left.
      * split; [done|]. exists n. split; [|done]. apply elem_of_app. by left.
    + intros (Hne & n & [Hin|Hin]%elem_of_app & Hn).
      * right. split; [done|]. by exists n.
      * apply list_elem_of_singleton in Hin as ->. by left.
  - rewrite IH. split.
    + intros (Hne & n & Hin & Hn). split; [done|]. exists n.
      split; [|done]. apply elem_of_app. by left.
    + intros (Hne & n & [Hin|Hin]%elem_of_app & Hn).
      * split; [done|]. by exists n.
      * apply list_elem_of_singleton in Hin as ->.
        destruct Hfirst. by rewrite Hn.
Qed.

(** X14.  [_get_zip_root_folder] returns [root] exactly when some name of
    the archive has [root] as its non-empty first path component and every
    name has either that first component or an empty one (a name that is empty
    or starts with a slash is passed over); in every other case it raises. *)
Theorem get_zip_root_folder_spec (namelist : list str) (root : str) :
  _get_zip_root_folder namelist = Some root ↔
  root ≠ []
  ∧ (∃ name_, name_ ∈ namelist ∧ (split_once SLASH name_).1 = root)
  ∧ Forall (λ name_, (split_once SLASH name_).1 = []
                     ∨ (split_once SLASH name_).1 = root) namelist.
Proof.
  unfold _get_zip_root_folder.
  set (roots := foldl add_zip_root ∅ namelist).
  assert (∀ r, r ∈ roots ↔
               r ≠ [] ∧ ∃ name_, name_ ∈ namelist
                                 ∧ (split_once SLASH name_).1 = r) as Hroots.
  { intros r. apply zip_roots_elem_of. }
  assert (roots = {[root]} ↔
          root ≠ []
          ∧ (∃ name_, name_ ∈ namelist ∧ (split_once SLASH name_).1 = root)
          ∧ Forall (λ name_, (split_once SLASH name_).1 = []
                             ∨ (split_once SLASH name_).1 = root) namelist)
    as Hsingle.
  { split.
    - intros Heq.
      assert (root ∈ roots) as Hin by (rewrite Heq; by apply elem_of_singleton).
      apply Hroots in Hin as [Hne Hex]. split_and!; [done..|].
      apply Forall_forall. intros n Hn.
      destruct (decide ((split_once SLASH n).1 = [])) as [?|Hfirst]; [by left|].
      right. apply (elem_of_singleton (C := gset str)). rewrite <-Heq.
      apply Hroots. split; [done|]. by exists n.
    - intros (Hne & Hex & Hall). apply set_eq. intros r.
      rewrite elem_of_singleton, Hroots. split.
      + intros (Hr & n & Hn & Hfirst). rewrite Forall_forall in Hall.
        destruct (Hall n Hn) as [Hempty|Hroot]; congruence.
      + intros ->. done. }
  rewrite <-Hsingle. case_bool_decide as Hsize.
  - split; [done|]. intros Heq. rewrite Heq, size_singleton in Hsize. done.
  - assert (size roots = 1%nat) as Hone.
    { destruct (decide (size roots = 1%nat)); [done|]. by destruct Hsize. }
    apply size_1_elem_of in Hone as [x Hx]. apply leibniz_equiv in Hx.
    rewrite Hx, elements_singleton. cbn [head]. split.
    + by intros [= ->].
    + intros Heq. f_equal. apply (elem_of_singleton (C := gset str)).
      rewrite <-Heq. by apply elem_of_singleton.
Qed.

(** ** The repository of a GitHub address *)

Lemma startswith_app (prefix rest : str) : startswith (prefix ++ rest) prefix = true.
Proof.
  induction prefix as [|c prefix IH]; cbn [startswith app];
    [by destruct rest|].
  by rewrite N.eqb_refl, IH.
Qed.

Lemma startswith_true (s prefix : str) :
  startswith s prefix = true → s = prefix ++ drop (length prefix) s.
Proof.
  revert s. induction prefix as [|c prefix IH]; intros s.
  { done. }
  destruct s as [|d s]; cbn [startswith]; [done|].
  intros [Hcd Hrest]%andb_true_iff. apply N.eqb_eq in Hcd as ->.
  cbn [length drop app]. f_equal. by apply IH.
Qed.

Lemma after_prefix_Some (prefix s rest : str) :
  after_prefix prefix s = Some rest ↔ s = prefix ++ rest.
Proof.
  unfold after_prefix. split.
  - destruct (startswith s prefix) eqn:Hstart; [|done].
    intros [= <-]. by apply startswith_true.
  - intros ->. rewrite startswith_app.
    by rewrite drop_app_length.
Qed.

Lemma take_while_app (p : char → bool) (s : str) :
  s = take_while p s ++ drop (length (take_while p s)) s.
Proof.
  induction s as [|c s IH]; cbn [take_while]; [done|].
  destruct (p c); cbn [length drop app]; [|done]. by rewrite <-IH.
Qed.

Lemma take_while_Forall (p : char → bool) (s : str) :
  Forall (λ c, p c = true) (take_while p s).
Proof.
  induction s as [|c s IH]; cbn [take_while]; [apply List.Forall_nil|].
  destruct (p c) eqn:Hc; [|apply List.Forall_nil]. by apply List.Forall_cons.
Qed.

Lemma take_while_stop (p : char → bool) (s : str) (c : char) (rest : str) :
  drop (length (take_while p s)) s = c :: rest → p c = false.
Proof.
  induction s as [|d s IH]; cbn [take_while]; [done|].
  destruct (p d) eqn:Hd; cbn [length drop]; [done|]. by intros [= <- _].
Qed.

(** The greedy prefix is the only prefix that is followed by the end of the
    text or by a character outside the class. *)
Lemma take_while_unique (p : char → bool) (a rest : str) :
  Forall (λ c, p c = true) a →
  (rest = [] ∨ ∃ c rest', rest = c :: rest' ∧ p c = false) →
  take_while p (a ++ rest) = a.
Proof.
  intros Ha Hrest. induction Ha as [|c a Hc _ IH]; cbn [take_while app].
  - destruct Hrest as [->|(c & rest' & -> & Hc)]; [done|].
    cbn [take_while]. by rewrite Hc.
  - by rewrite Hc, IH.
Qed.

(** X15.  [_repo_from_github_url] returns [owner/project] exactly when the
    stripped address is [http://github.com/] or [https://github.com/], then a
    non-empty [owner] without slash, a slash, and a non-empty [project]
    without slash, hash or question mark that runs to the end of the address
    or to the first of these three characters. *)
Theorem repo_from_github_url_spec (github_url repo : str) :
  _repo_from_github_url github_url = Some repo ↔
  ∃ scheme owner project rest,
    strip github_url
    = scheme ++ py "://github.com/" ++ owner ++ [SLASH] ++ project ++ rest
    ∧ (scheme = py "http" ∨ scheme = py "https")
    ∧ owner ≠ [] ∧ (SLASH ∉ owner)
    ∧ project ≠ []
    ∧ Forall (λ c, c ∉ [SLASH; HASH; QUESTION]) project
    ∧ (rest = [] ∨ ∃ c rest', rest = c :: rest'
                              ∧ c ∈ [SLASH; HASH; QUESTION])
    ∧ repo = owner ++ [SLASH] ++ project.
Proof.
  unfold _repo_from_github_url.
  set (s := strip github_url).
  set (p1 := λ c : char, negb (c =? SLASH)%N).
  set (p2 := λ c : char, negb (char_in [SLASH; HASH; QUESTION] c)).
  assert (∀ c, p1 c = true ↔ c ≠ SLASH) as Hp1.
  { intros c. unfold p1. rewrite negb_true_iff, N.eqb_neq. done. }
  assert (∀ c, p2 c = true ↔ c ∉ [SLASH; HASH; QUESTION]) as Hp2.
  { intros c. unfold p2, char_in.
    rewrite negb_true_iff, bool_decide_eq_false. done. }
  assert (∀ c, p2 c = false ↔ c ∈ [SLASH; HASH; QUESTION]) as Hp2'.
  { intros c. unfold p2, char_in.
    rewrite negb_false_iff, bool_decide_eq_true. done. }
  assert (∀ after : str,
    match drop (length (take_while p1 after)) after with
    | c :: rest' =>
        if bool_decide (take_while p1 after ≠ []) && (c =? SLASH)%N
           && bool_decide (take_while p2 rest' ≠ [])
        then Some (take_while p1 after ++ [SLASH] ++ take_while p2 rest')
        else None
    | [] => None
    end = Some repo ↔
    ∃ owner project rest,
      after = owner ++ [SLASH] ++ project ++ rest
      ∧ owner ≠ [] ∧ (SLASH ∉ owner)
      ∧ project ≠ []
      ∧ Forall (λ c, c ∉ [SLASH; HASH; QUESTION]) project
      ∧ (rest = [] ∨ ∃ c rest', rest = c :: rest'
                                ∧ c ∈ [SLASH; HASH; QUESTION])
      ∧ repo = owner ++ [SLASH] ++ project) as Hafter.
  { intros after. split.
    - pose proof (take_while_app p1 after) as Happ.
      pose proof (take_while_Forall p1 after) as Hall1.
      destruct (drop (length (take_while p1 after)) after) as [|c rest']
        eqn:Hdrop; [done|].
      case_bool_decide as Hne1; [|done]. cbn [andb].
      destruct (c =? SLASH)%N eqn:Hc; [|done]. cbn [andb].
      apply N.eqb_eq in Hc as ->.
      case_bool_decide as Hne2; [|done]. intros [= <-].
      pose proof (take_while_app p2 rest') as Happ2.
      pose proof (take_while_Forall p2 rest') as Hall2.
      exists (take_while p1 after), (take_while p2 rest'),
        (drop (length (take_while p2 rest')) rest').
      split_and!; [|done| |done| | |done].
      + rewrite Happ at 1. cbn [app]. by rewrite <-Happ2.
      + intros Hin. rewrite Forall_forall in Hall1.
        apply Hall1, Hp1 in Hin. done.
      + eapply Forall_impl; [exact Hall2|]. intros c Hc. by apply Hp2.
      + destruct (drop (length (take_while p2 rest')) rest') as [|c rest'']
          eqn:Hdrop2; [by left|].
        right. exists c, rest''. split; [done|].
        apply Hp2'. by apply (take_while_stop p2 rest' c rest'').
    - intros (owner & project & rest & -> & Hne1 & Hno & Hne2 & Hall & Hrest
              & ->).
      assert (take_while p1 (owner ++ [SLASH] ++ project ++ rest) = owner)
        as ->.
      { apply take_while_unique.
        - apply Forall_forall. intros c Hc. apply Hp1. by intros ->.
        - right. exists SLASH, (project ++ rest). split; [done|].
          unfold p1. by rewrite N.eqb_refl. }
      rewrite drop_app_length. cbn [app].
      assert (take_while p2 (project ++ rest) = project) as ->.
      { apply take_while_unique.
        - eapply Forall_impl; [exact Hall|]. intros c Hc. by apply Hp2.
        - destruct Hrest as [->|(c & rest' & -> & Hc)]; [by left|].
          right. exists c, rest'. split; [done|]. by apply Hp2'. }
      by rewrite !bool_decide_eq_true_2, N.eqb_refl by done. }
  destruct (after_prefix (py "https://github.com/") s) as [after|] eqn:Hhttps.
  - apply after_prefix_Some in Hhttps. rewrite Hafter. split.
    + intros (owner & project & rest & -> & Hrest).
      exists (py "https"), owner, project, rest. split; [done|].
      split; [by right|done].
    + intros (scheme & owner & project & rest & Hs & [->| ->] & Hrest).
      * rewrite Hhttps in Hs. discriminate Hs.
      * exists owner, project, rest. split; [|done].
        rewrite Hhttps in Hs.
        change (py "https://github.com/" ++ after
                = py "https://github.com/" ++ owner ++ [SLASH] ++ project ++ rest)
          in Hs.
        by apply app_inv_head in Hs.
  - destruct (after_prefix (py "http://github.com/") s) as [after|] eqn:Hhttp.
    + apply after_prefix_Some in Hhttp. rewrite Hafter. split.
      * intros (owner & project & rest & -> & Hrest).
        exists (py "http"), owner, project, rest. split; [done|].
        split; [by left|done].
      * intros (scheme & owner & project & rest & Hs & [->| ->] & Hrest).
        -- exists owner, project, rest. split; [|done].
           rewrite Hhttp in Hs.
           change (py "http://github.com/" ++ after
                   = py "http://github.com/" ++ owner ++ [SLASH] ++ project ++ rest)
             in Hs.
           by apply app_inv_head in Hs.
        -- rewrite Hhttp in Hs. discriminate Hs.
    + split; [done|].
      intros (scheme & owner & project & rest & Hs & [->| ->] & _).
      * assert (after_prefix (py "http://github.com/") s
                = Some (owner ++ [SLASH] ++ project ++ rest)) as Hsome.
        { apply after_prefix_Some. by rewrite Hs. }
        congruence.
      * assert (after_prefix (py "https://github.com/") s
                = Some (owner ++ [SLASH] ++ project ++ rest)) as Hsome.
        { apply after_prefix_Some. by rewrite Hs. }
        congruence.
Qed.

(** ** Updating a manifest *)

(** *** Stripping *)

Lemma lstrip_by_app_nonempty (p : char → bool) (s t : str) :
  lstrip_by p s ≠ [] → lstrip_by p (s ++ t) = lstrip_by p s ++ t.
Proof.
  induction s as [|c s IH]; cbn [lstrip_by app]; [done|].
  destruct (p c); [apply IH|done].
Qed.

Lemma lstrip_by_suffix (p : char → bool) (s : str) :
  ∃ h, s = h ++ lstrip_by p s.
Proof.
  induction s as [|c s [h IH]]; cbn [lstrip_by]; [by exists []|].
  destruct (p c); [|by exists []]. exists (c :: h). cbn [app]. by rewrite <-IH.
Qed.

Lemma rstrip_by_prefix (p : char → bool) (s : str) :
  ∃ t, s = rstrip_by p s ++ t.
Proof.
  unfold rstrip_by. destruct (lstrip_by_suffix p (reverse s)) as [h Hh].
  exists (reverse h). rewrite <-reverse_app, <-Hh. by rewrite reverse_involutive.
Qed.

Lemma rstrip_by_snoc_drop (p : char → bool) (s : str) (c : char) :
  p c = true → rstrip_by p (s ++ [c]) = rstrip_by p s.
Proof.
  intros Hc. unfold rstrip_by. rewrite reverse_snoc. cbn [lstrip_by].
  by rewrite Hc.
Qed.

Lemma rstrip_by_snoc_keep (p : char → bool) (s : str) (c : char) :
  p c = false → rstrip_by p (s ++ [c]) = s ++ [c].
Proof.
  intros Hc. unfold rstrip_by. rewrite reverse_snoc. cbn [lstrip_by].
  by rewrite Hc, reverse_cons, reverse_involutive.
Qed.

Lemma rstrip_by_cons (p : char → bool) (c : char) (s : str) :
  p c = false → rstrip_by p (c :: s) = c :: rstrip_by p s.
Proof.
  intros Hc. unfold rstrip_by. rewrite reverse_cons.
  destruct (lstrip_by p (reverse s)) as [|d r] eqn:Hr.
  - apply lstrip_by_nil in Hr.
    assert (lstrip_by p (reverse s ++ [c]) = [c]) as ->; [|done].
    induction Hr as [|x l Hx _ IH]; cbn [lstrip_by app]; [by rewrite Hc|].
    by rewrite Hx.
  - rewrite lstrip_by_app_nonempty by by rewrite Hr.
    by rewrite Hr, reverse_snoc.
Qed.

Lemma strip_snoc_space (s : str) (c : char) :
  is_space c = true → strip (s ++ [c]) = strip s.
Proof.
  intros Hc. unfold strip.
  destruct (lstrip_by is_space s) as [|d r] eqn:Hs.
  - transitivity ([] : str); [|symmetry]; apply strip_by_nil.
    + apply lstrip_by_nil in Hs. apply Forall_app. split; [done|].
      by apply List.Forall_cons; [|apply List.Forall_nil].
    + by apply lstrip_by_nil.
  - unfold strip_by. rewrite lstrip_by_app_nonempty by by rewrite Hs.
    by apply rstrip_by_snoc_drop.
Qed.

Lemma strip_head (line : str) (c : char) (s : str) :
  strip line = c :: s → is_space c = false.
Proof.
  unfold strip, strip_by.
  destruct (lstrip_by is_space line) as [|d r] eqn:Hl; [done|].
  apply lstrip_by_head in Hl. rewrite (rstrip_by_cons _ _ _ Hl).
  by intros [= <- _].
Qed.

Lemma strip_by_id (p : char → bool) (c : char) (s : str) (d : char) :
  p c = false → p d = false →
  strip_by p (c :: s ++ [d]) = c :: s ++ [d].
Proof.
  intros Hc Hd. unfold strip_by. cbn [lstrip_by]. rewrite Hc.
  by apply (rstrip_by_snoc_keep p (c :: s) d).
Qed.

Lemma split_once_app (c : char) (a b : str) :
  c ∉ a → split_once c (a ++ c :: b) = (a, b).
Proof.
  induction a as [|d a IH]; intros Hno; cbn [split_once app].
  - by rewrite N.eqb_refl.
  - apply not_elem_of_cons in Hno as [Hcd Hno].
    apply N.eqb_neq in Hcd. rewrite Hcd. by rewrite IH.
Qed.

Lemma split_once_spec (c : char) (s : str) :
  c ∈ s → s = (split_once c s).1 ++ c :: (split_once c s).2.
Proof.
  induction s as [|d s IH]; [by intros ?%elem_of_nil|].
  intros Hin. cbn [split_once].
  destruct (c =? d)%N eqn:Hcd.
  - apply N.eqb_eq in Hcd as ->. done.
  - apply N.eqb_neq in Hcd. apply elem_of_cons in Hin as [?|Hin]; [done|].
    destruct (split_once c s) as [a b]. cbn [fst snd app] in *.
    f_equal. by apply IH.
Qed.

(** *** The manifest loop on the lines of [readlines] *)

(** What [manifest_line] does with a line depends on the stripped line
    only. *)
Lemma manifest_line_strip (m : manifest) (line line' : str) :
  strip line = strip line' → manifest_line m line = manifest_line m line'.
Proof.
  intros Hs. unfold manifest_line, _parse_mod_kv. by rewrite Hs.
Qed.

Lemma manifest_line_snoc_LF (m : manifest) (line : str) :
  manifest_line m (line ++ [LF]) = manifest_line m line.
Proof. apply manifest_line_strip. by apply strip_snoc_space. Qed.

(** Induction on a text line by line. *)
Lemma lines_ind (P : str → Prop) :
  (∀ a, LF ∉ a → P a) →
  (∀ a text, LF ∉ a → P text → P (a ++ LF :: text)) →
  ∀ text, P text.
Proof.
  intros Hopen Hline text.
  assert (∀ a, LF ∉ a → P (a ++ text)) as Haux;
    [|apply (Haux []), not_elem_of_nil].
  induction text as [|c text IH]; intros a Ha.
  - rewrite app_nil_r. by apply Hopen.
  - destruct (decide (c = LF)) as [->|Hc].
    + apply Hline; [done|]. apply (IH []), not_elem_of_nil.
    + rewrite (cons_middle c a text), app_assoc. apply IH.
      rewrite elem_of_app, list_elem_of_singleton. intros [?|?]; congruence.
Qed.

Lemma split_line (a text : str) :
  LF ∉ a → split LF (a ++ LF :: text) = a :: split LF text.
Proof.
  induction a as [|c a IH]; intros Ha; cbn [split app].
  - done.
  - apply not_elem_of_cons in Ha as [Hc Ha]. apply N.eqb_neq in Hc.
    rewrite Hc. by rewrite IH.
Qed.

Lemma split_open (a : str) : LF ∉ a → split LF a = [a].
Proof.
  induction a as [|c a IH]; intros Ha; cbn [split]; [done|].
  apply not_elem_of_cons in Ha as [Hc Ha]. apply N.eqb_neq in Hc.
  rewrite Hc. by rewrite IH.
Qed.

Lemma readlines_line (a text : str) :
  LF ∉ a → readlines (a ++ LF :: text) = (a ++ [LF]) :: readlines text.
Proof.
  induction a as [|c a IH]; intros Ha; cbn [readlines app].
  - done.
  - apply not_elem_of_cons in Ha as [Hc Ha].
    assert ((c =? LF)%N = false) as -> by (apply N.eqb_neq; congruence).
    by rewrite IH.
Qed.

Lemma readlines_open (a : str) : LF ∉ a → a ≠ [] → readlines a = [a].
Proof.
  induction a as [|c a IH]; intros Ha Hne; [done|]. cbn [readlines].
  apply not_elem_of_cons in Ha as [Hc Ha].
  assert ((c =? LF)%N = false) as -> by (apply N.eqb_neq; congruence).
  destruct a as [|d a]; [done|]. by rewrite IH.
Qed.

(** The manifest loop gives the same on [content.split('\n')] and on the
    lines of [readlines]. *)
Lemma parse_manifest_readlines (text : str) (m : manifest) :
  foldl manifest_line m (split LF text)
  = foldl manifest_line m (readlines text).
Proof.
  revert m. induction text as [a Ha|a text Ha IH] using lines_ind; intros m.
  - rewrite split_open by done. destruct a as [|c a]; [done|].
    by rewrite readlines_open.
  - rewrite split_line, readlines_line by done. cbn [foldl].
    by rewrite manifest_line_snoc_LF, IH.
Qed.

(** *** Well-formed lists of lines *)

Lemma readlines_well_formed (text : str) : well_formed_lines (readlines text).
Proof.
  induction text as [a Ha|a text Ha (full & rest & Hlines & Hfull & Hrest)]
    using lines_ind.
  - destruct a as [|c a].
    + exists [], []. split_and!; [done|apply List.Forall_nil|by left].
    + rewrite readlines_open by done. exists [], [c :: a].
      split_and!; [done|apply List.Forall_nil|]. right. by exists (c :: a).
  - rewrite readlines_line by done. exists ((a ++ [LF]) :: full), rest.
    split_and!; [by rewrite Hlines| |done].
    apply List.Forall_cons; [by exists a|done].
Qed.

Lemma readlines_concat (lines : list str) :
  well_formed_lines lines → readlines (concat lines) = lines.
Proof.
  intros (full & rest & -> & Hfull & Hrest). rewrite concat_app.
  induction Hfull as [|line full (body & -> & Hbody) _ IH].
  - cbn [concat app].
    destruct Hrest as [->|(line & -> & Hne & Hno)]; [done|].
    cbn [concat]. rewrite app_nil_r. by apply readlines_open.
  - cbn [concat app]. rewrite <-!app_assoc. cbn [app].
    by rewrite readlines_line, IH.
Qed.

Lemma version_line_terminated (new_version : str) :
  LF ∉ new_version → terminated (version_line new_version).
Proof.
  intros Hno. exists (py "version=" ++ quoted new_version). split.
  - unfold version_line. by rewrite <-app_assoc.
  - unfold quoted. rewrite elem_of_app, elem_of_cons, elem_of_app,
      list_elem_of_singleton.
    intros [Hin|[?|[?|?]]]; [|done..].
    revert Hin. by_compute.
Qed.

(** *** The update loop *)

Lemma update_loop (new_version : str) (lines : list str) (st : update_state) :
  foldl (update_line new_version) st lines
  = UpdateState (out st ++ map (updated_line new_version) lines)
                (replaced st || existsb version_field lines).
Proof.
  revert st. induction lines as [|line lines IH]; intros st; cbn [foldl map existsb].
  - rewrite app_nil_r, orb_false_r. by destruct st.
  - rewrite IH. unfold update_line, updated_line, version_field.
    destruct (startswith (strip line) (py "version")
              && contains EQUALS (strip line)); cbn [out replaced].
    + by rewrite <-app_assoc, orb_true_r.
    + by rewrite <-app_assoc.
Qed.

Lemma updated_line_terminated (new_version line : str) :
  LF ∉ new_version → terminated line →
  terminated (updated_line new_version line).
Proof.
  intros Hno Hline. unfold updated_line.
  destruct (version_field line); [by apply version_line_terminated|done].
Qed.

Lemma endswith_terminated (line : str) :
  terminated line → endswith line [LF] = true.
Proof.
  intros (body & -> & _). unfold endswith. rewrite reverse_snoc.
  cbn. by destruct (reverse body).
Qed.

Lemma endswith_open (line : str) : LF ∉ line → endswith line [LF] = false.
Proof.
  intros Hno. unfold endswith.
  destruct (reverse line) as [|c r] eqn:Hr; [done|].
  change (reverse [LF]) with [LF]. cbn [startswith].
  assert (c ≠ LF) as Hc.
  { intros ->. apply Hno. apply elem_of_reverse. rewrite Hr. left. }
  assert ((LF =? c)%N = false) as -> by (apply N.eqb_neq; congruence).
  done.
Qed.

(** The lines written are well formed, so that reading them back gives the
    same lines. *)
Lemma update_out_well_formed (new_version : str) (lines : list str) :
  LF ∉ new_version → well_formed_lines lines →
  well_formed_lines (map (updated_line new_version) lines).
Proof.
  intros Hno (full & rest & -> & Hfull & Hrest). rewrite map_app.
  destruct Hrest as [->|(line & -> & Hne & Hline)].
  - exists (map (updated_line new_version) full), [].
    split_and!; [done| |by left].
    apply Forall_fmap. eapply Forall_impl; [exact Hfull|].
    intros l Hl. by apply updated_line_terminated.
  - cbn [map]. unfold updated_line at 2.
    destruct (version_field line).
    + exists (map (updated_line new_version) full ++ [version_line new_version]), [].
      split_and!; [by rewrite app_nil_r| |by left].
      apply Forall_app. split.
      * apply Forall_fmap. eapply Forall_impl; [exact Hfull|].
        intros l Hl. by apply updated_line_terminated.
      * apply List.Forall_cons; [|apply List.Forall_nil].
        by apply version_line_terminated.
    + exists (map (updated_line new_version) full), [line].
      split_and!; [done| |right; by exists line].
      apply Forall_fmap. eapply Forall_impl; [exact Hfull|].
      intros l Hl. by apply updated_line_terminated.
Qed.

(** *** The manifest loop on the updated lines *)

Lemma parse_mod_kv_version (line value : str) :
  _parse_mod_kv line = Some (py "version", value) → version_field line = true.
Proof.
  unfold _parse_mod_kv, version_field. set (s := strip line).
  destruct (bool_decide (s = []) || startswith s (py "#")
            || startswith s (py "//")); [done|].
  destruct (contains EQUALS s) eqn:Hc; cbn [negb]; [|done].
  pose proof (split_once_spec EQUALS s) as Hs.
  destruct (split_once EQUALS s) as [a b]. cbn [fst snd] in Hs.
  intros [= Hkey _]. rewrite andb_true_r.
  unfold contains in Hc. apply bool_decide_eq_true in Hc.
  specialize (Hs Hc).
  destruct a as [|c a]; [done|].
  assert (is_space c = false) as Hspace.
  { apply (strip_head line c (a ++ EQUALS :: b)). exact Hs. }
  unfold strip, strip_by in Hkey. cbn [lstrip_by] in Hkey.
  rewrite Hspace in Hkey.
  destruct (rstrip_by_prefix is_space (c :: a)) as [t Ht].
  rewrite Hkey in Ht. rewrite Hs, Ht, <-app_assoc.
  apply startswith_app.
Qed.

Lemma parse_mod_kv_version_field (line key value : str) :
  version_field line = true → _parse_mod_kv line = Some (key, value) →
  ∃ k, key = LOWER_V :: k.
Proof.
  unfold version_field, _parse_mod_kv. set (s := strip line).
  intros [Hstart _]%andb_true_iff. apply startswith_true in Hstart.
  destruct (bool_decide (s = []) || startswith s (py "#")
            || startswith s (py "//")); [done|].
  destruct (negb (contains EQUALS s)); [done|].
  rewrite Hstart.
  change (py "version" ++ drop (length (py "version")) s)
    with (LOWER_V :: (py "ersion" ++ drop (length (py "version")) s)).
  cbn [split_once]. change (EQUALS =? LOWER_V)%N with false. cbn match.
  destruct (split_once EQUALS _) as [a b]. intros [= <- _].
  unfold strip, strip_by. cbn [lstrip_by]. change (is_space LOWER_V) with false.
  cbn match. rewrite rstrip_by_cons by done. by eexists.
Qed.

(** A key that starts with another letter than the tested key. *)
Ltac other_key key :=
  rewrite (bool_decide_eq_false_2 (_ = key))
    by (let H := fresh in intros H; cbv in H; discriminate H).

(** A line that the update leaves alone never sets the version, and acts on
    the other fields whatever the version is. *)
Lemma manifest_line_other (line : str) (m : manifest) (x : str) :
  version_field line = false →
  manifest_line (set_version m x) line = set_version (manifest_line m line) x.
Proof.
  intros Hfield. unfold manifest_line.
  destruct (_parse_mod_kv line) as [[key value]|] eqn:Hparse; [|done].
  assert (key ≠ py "version") as Hkey.
  { intros ->. apply parse_mod_kv_version in Hparse. congruence. }
  repeat (case_bool_decide; [done|]). done.
Qed.

(** A line that the update replaces sets at most the version. *)
Lemma manifest_line_replaced (line : str) (m : manifest) :
  version_field line = true →
  ∃ y, manifest_line m line = set_version m y.
Proof.
  intros Hfield. unfold manifest_line.
  destruct (_parse_mod_kv line) as [[key value]|] eqn:Hparse;
    [|exists (version m); by destruct m].
  destruct (parse_mod_kv_version_field _ _ _ Hfield Hparse) as [k ->].
  other_key (py "name"). other_key (py "dependencies"). other_key (py "path").
  other_key (py "user_dir"). other_key (py "github").
  case_bool_decide; [by exists value|].
  exists (version m). by destruct m.
Qed.

(** The line that the update writes sets the version to the new one. *)
Lemma manifest_line_version_line (m : manifest) (new_version : str) :
  manifest_line m (version_line new_version) = set_version m new_version.
Proof.
  assert (_parse_mod_kv (version_line new_version)
          = Some (py "version", new_version)) as Hparse.
  { unfold _parse_mod_kv, version_line. rewrite app_assoc.
    rewrite strip_snoc_space by done.
    assert (strip (py "version=" ++ quoted new_version)
            = py "version=" ++ quoted new_version) as ->.
    { unfold quoted.
      change (py "version=" ++ DQUOTE :: new_version ++ [DQUOTE])
        with (LOWER_V :: (py "ersion=" ++ DQUOTE :: new_version) ++ [DQUOTE]).
      by apply strip_by_id. }
    change (py "version=" ++ quoted new_version)
      with (LOWER_V :: py "ersion" ++ EQUALS :: quoted new_version).
    rewrite bool_decide_eq_false_2 by done.
    change (startswith (LOWER_V :: py "ersion" ++ EQUALS :: quoted new_version)
              (py "#")) with false.
    change (startswith (LOWER_V :: py "ersion" ++ EQUALS :: quoted new_version)
              (py "//")) with false.
    cbn [orb].
    assert (contains EQUALS (LOWER_V :: py "ersion" ++ EQUALS :: quoted new_version)
            = true) as ->.
    { apply bool_decide_eq_true. right. apply elem_of_app. right. left. }
    cbn [negb].
    change (LOWER_V :: py "ersion" ++ EQUALS :: quoted new_version)
      with ((LOWER_V :: py "ersion") ++ EQUALS :: quoted new_version).
    rewrite (split_once_app EQUALS (LOWER_V :: py "ersion") (quoted new_version))
      by by_compute.
    assert (strip (LOWER_V :: py "ersion") = py "version") as -> by by vm_compute.
    assert (strip (quoted new_version) = quoted new_version) as ->.
    { unfold quoted. by apply strip_by_id. }
    assert (startswith (quoted new_version) [DQUOTE] = true) as ->.
    { unfold quoted. cbn [startswith]. rewrite N.eqb_refl.
      by destruct (new_version ++ [DQUOTE]). }
    assert (endswith (quoted new_version) [DQUOTE] = true) as ->.
    { unfold quoted, endswith.
      change (DQUOTE :: new_version ++ [DQUOTE])
        with ((DQUOTE :: new_version) ++ [DQUOTE]).
      rewrite reverse_snoc. change (reverse [DQUOTE]) with [DQUOTE].
      cbn [startswith]. rewrite N.eqb_refl.
      by destruct (reverse (DQUOTE :: new_version)). }
    rewrite bool_decide_eq_true_2
      by (unfold quoted; cbn [length]; rewrite length_app; cbn [length]; lia).
    cbn [andb]. unfold quoted. cbn [tail]. by rewrite removelast_last. }
  unfold manifest_line. rewrite Hparse.
  other_key (py "name"). other_key (py "dependencies"). other_key (py "path").
  other_key (py "user_dir"). other_key (py "github").
  by rewrite bool_decide_eq_true_2.
Qed.

Lemma set_version_twice (m : manifest) (x y : str) :
  set_version (set_version m x) y = set_version m y.
Proof. done. Qed.

Lemma manifest_loop_updated (new_version : str) (lines : list str)
    (m : manifest) (x : str) :
  foldl manifest_line (set_version m x) (map (updated_line new_version) lines)
  = set_version (foldl manifest_line m lines)
                (if existsb version_field lines then new_version else x).
Proof.
  revert m x. induction lines as [|line lines IH]; intros m x;
    cbn [foldl map existsb]; [done|].
  unfold updated_line at 1. destruct (version_field line) eqn:Hfield.
  - rewrite manifest_line_version_line, set_version_twice.
    destruct (manifest_line_replaced line m Hfield) as [y ->].
    rewrite <-(set_version_twice m y new_version), IH. cbn [orb].
    by destruct (existsb version_field lines).
  - rewrite manifest_line_other by done. rewrite IH. done.
Qed.

Lemma existsb_false_updated (new_version : str) (lines : list str) :
  existsb version_field lines = false →
  map (updated_line new_version) lines = lines.
Proof.
  induction lines as [|line lines IH]; cbn [existsb map]; [done|].
  intros [Hline Hrest]%orb_false_iff. unfold updated_line at 1.
  by rewrite Hline, IH.
Qed.

Lemma manifest_loop_strip (lines lines' : list str) (m : manifest) :
  map strip lines' = map strip lines →
  foldl manifest_line m lines' = foldl manifest_line m lines.
Proof.
  revert lines m. induction lines' as [|line' lines' IH];
    intros [|line lines] m; cbn [map foldl]; [done..|].
  intros [= Hline Hrest]. rewrite (manifest_line_strip m line' line Hline).
  by apply IH.
Qed.

Lemma existsb_version_field_strip (lines lines' : list str) :
  map strip lines' = map strip lines →
  existsb version_field lines' = existsb version_field lines.
Proof.
  revert lines. induction lines' as [|line' lines' IH];
    intros [|line lines]; cbn [map existsb]; [done..|].
  intros [= Hline Hrest]. unfold version_field at 1 3. rewrite Hline.
  f_equal. by apply IH.
Qed.

(** [if out and not out[-1].endswith("\n"): out[-1] += "\n"] on well-formed
    lines: every line is then terminated, and no stripped line changes. *)
Lemma terminate_last_line (lines : list str) :
  well_formed_lines lines →
  ∃ lines',
    match last lines with
    | Some last_ =>
        if negb (endswith last_ [LF])
        then removelast lines ++ [last_ ++ [LF]]
        else lines
    | None => lines
    end = lines'
    ∧ Forall terminated lines'
    ∧ map strip lines' = map strip lines.
Proof.
  intros (full & rest & Hlines & Hfull & Hrest).
  destruct Hrest as [->|(line & -> & Hne & Hline)].
  - rewrite app_nil_r in Hlines. rewrite Hlines.
    exists full. split_and!; [|done..].
    destruct (last full) as [last_|] eqn:Hlast; [|done].
    rewrite endswith_terminated; [done|].
    rewrite Forall_forall in Hfull. apply Hfull.
    by apply last_Some_elem_of.
  - rewrite Hlines, last_snoc, removelast_last, endswith_open by done.
    cbn [negb]. exists (full ++ [line ++ [LF]]). split_and!; [done| |].
    + apply Forall_app. split; [done|].
      apply List.Forall_cons; [by exists line|apply List.Forall_nil].
    + rewrite !map_app. cbn [map]. by rewrite strip_snoc_space.
Qed.

Lemma terminated_well_formed (lines : list str) :
  Forall terminated lines → well_formed_lines lines.
Proof.
  intros Hall. exists lines, []. split_and!; [by rewrite app_nil_r|done|by left].
Qed.

Lemma parse_manifest_written (text new_version written : str) :
  LF ∉ new_version →
  _update_mod_version_field (Some text) new_version = Some written →
  parse_manifest written = set_version (parse_manifest text) new_version.
Proof.
  intros Hno. unfold _update_mod_version_field. intros [= <-].
  unfold parse_manifest. rewrite !parse_manifest_readlines.
  rewrite update_loop. cbn [out replaced app orb].
  pose proof (readlines_well_formed text) as Hwf.
  set (lines := readlines text) in *.
  change empty_manifest with (set_version empty_manifest []) at 1.
  destruct (existsb version_field lines) eqn:Hany.
  - rewrite readlines_concat by by apply update_out_well_formed.
    by rewrite manifest_loop_updated, Hany.
  - rewrite (existsb_false_updated _ _ Hany).
    destruct (terminate_last_line lines Hwf) as (lines' & -> & Hterm & Hstrip).
    rewrite readlines_concat.
    + rewrite foldl_app, (manifest_loop_strip lines lines' _ Hstrip).
      cbn [foldl]. by rewrite manifest_line_version_line.
    + apply terminated_well_formed, Forall_app. split; [done|].
      apply List.Forall_cons; [|apply List.Forall_nil].
      by apply version_line_terminated.
Qed.

(** X16.  Reading back a manifest that [_update_mod_version_field] has
    written: when the new version holds no line feed, the manifest loop of
    [load_mods] finds in the text written the same name, dependencies, path,
    user directory and GitHub address as in the text read, and the new
    version. *)
Theorem update_mod_version_field_round_trip (text new_version : str) :
  LF ∉ new_version →
  ∃ written,
    _update_mod_version_field (Some text) new_version = Some written
    ∧ parse_manifest written = set_version (parse_manifest text) new_version.
Proof.
  intros Hno. eexists. split; [done|]. by apply parse_manifest_written.
Qed.

Lemma update_mod_version_field_round_trip_witness :
  ∃ written,
    _update_mod_version_field
      (Some (py "name = A" ++ [LF] ++ py "version = 1" ++ [LF] ++ py "path = mod/A"))
      (py "v2.0") = Some written
    ∧ parse_manifest written
      = Manifest (py "A") [] [] [] (py "v2.0") (py "mod/A").
Proof.
  destruct (update_mod_version_field_round_trip
              (py "name = A" ++ [LF] ++ py "version = 1" ++ [LF] ++ py "path = mod/A")
              (py "v2.0")) as (written & Hrun & Hparse); [by_compute|].
  exists written. split; [exact Hrun|]. rewrite Hparse. by vm_compute.
Defined.

Lemma version_field_version_line (new_version : str) :
  version_field (version_line new_version) = true.
Proof.
  unfold version_field, version_line. rewrite app_assoc.
  rewrite strip_snoc_space by done.
  assert (strip (py "version=" ++ quoted new_version)
          = py "version=" ++ quoted new_version) as ->.
  { unfold quoted.
    change (py "version=" ++ DQUOTE :: new_version ++ [DQUOTE])
      with (LOWER_V :: (py "ersion=" ++ DQUOTE :: new_version) ++ [DQUOTE]).
    by apply strip_by_id. }
  change (py "version=" ++ quoted new_version)
    with (py "version" ++ EQUALS :: quoted new_version).
  rewrite startswith_app. cbn [andb]. apply bool_decide_eq_true.
  apply elem_of_app. right. left.
Qed.

Lemma updated_line_twice (version1 version2 line : str) :
  updated_line version2 (updated_line version1 line)
  = updated_line version2 line.
Proof.
  unfold updated_line. destruct (version_field line) eqn:Hfield.
  - by rewrite version_field_version_line.
  - by rewrite Hfield.
Qed.

Lemma existsb_version_field_updated (new_version : str) (lines : list str) :
  existsb version_field (map (updated_line new_version) lines)
  = existsb version_field lines.
Proof.
  induction lines as [|line lines IH]; cbn [map existsb]; [done|].
  rewrite IH. f_equal. unfold updated_line.
  destruct (version_field line) eqn:Hfield; [|done].
  apply version_field_version_line.
Qed.

(** X17.  A later update overwrites an earlier one: updating the text that
    an update has written gives the text that the later update gives on the
    original, so that updating twice to the same version is updating once. *)
Theorem update_mod_version_field_overwrites (text version1 version2 : str) :
  LF ∉ version1 →
  ∃ written,
    _update_mod_version_field (Some text) version1 = Some written
    ∧ _update_mod_version_field (Some written) version2
      = _update_mod_version_field (Some text) version2.
Proof.
  intros Hno. unfold _update_mod_version_field at 1.
  eexists. split; [done|].
  rewrite update_loop. cbn [out replaced app orb].
  pose proof (readlines_well_formed text) as Hwf.
  unfold _update_mod_version_field. rewrite !update_loop.
  cbn [out replaced app orb].
  set (lines := readlines text) in *.
  destruct (existsb version_field lines) eqn:Hany.
  - rewrite readlines_concat by by apply update_out_well_formed.
    rewrite existsb_version_field_updated, Hany.
    rewrite map_map. do 2 f_equal. apply map_ext. intros line.
    apply updated_line_twice.
  - rewrite !(existsb_false_updated _ _ Hany).
    destruct (terminate_last_line lines Hwf) as (lines' & -> & Hterm & Hstrip).
    rewrite readlines_concat; last first.
    { apply terminated_well_formed, Forall_app. split; [done|].
      apply List.Forall_cons; [|apply List.Forall_nil].
      by apply version_line_terminated. }
    rewrite existsb_app. cbn [existsb].
    rewrite version_field_version_line. cbn [orb]. rewrite orb_true_r.
    rewrite map_app. cbn [map]. unfold updated_line at 2.
    rewrite version_field_version_line, existsb_false_updated; [done|].
    by rewrite (existsb_version_field_strip lines lines' Hstrip).
Qed.

Lemma update_mod_version_field_overwrites_witness :
  _update_mod_version_field
    (_update_mod_version_field (Some example_manifest) (py "1.0")) (py "1.1")
  = Some (example_manifest ++ [LF] ++ py "version=" ++ quoted (py "1.1")
          ++ [LF]).
Proof.
  destruct (update_mod_version_field_overwrites example_manifest (py "1.0")
              (py "1.1")) as (written & -> & ->); [by_compute|].
  by vm_compute.
Defined.

(** ** Saving and restoring the checked mods *)

Lemma NoDup_fst_functional {A B : Type} (l : list (A * B)) (x : A)
    (y1 y2 : B) :
  NoDup l.*1 → (x, y1) ∈ l → (x, y2) ∈ l → y1 = y2.
Proof.
  induction l as [|[a b] l IH]; [by intros _ ?%elem_of_nil|].
  rewrite fmap_cons. cbn [fst]. intros [Hnot Hnodup]%NoDup_cons.
  intros [[= -> ->]|H1]%elem_of_cons [[= ?]|H2]%elem_of_cons.
  - done.
  - destruct Hnot. apply list_elem_of_fmap. by exists (a, y2).
  - subst. destruct Hnot. apply list_elem_of_fmap. by exists (a, y1).
  - by apply IH.
Qed.

Section restore_proofs.
Variable mod_files : gmap str mod_record.
Variable mod_user_dirs : gmap str str.

(** X18.  Saving and restoring the selection: when the tree holds one item
    per mod, every item being a key of [mod_files] with an entry in
    [mod_user_dirs], the list that [save_checked_mods] takes from
    [get_checked_mods] makes [loadSettings] give every item of the same tree
    the check state it had. *)
Theorem restore_checked_mods (items : list (str * bool)) (user_dir : str) :
  (∀ mod_name, is_Some (mod_files !! mod_name) →
               is_Some (mod_user_dirs !! mod_name)) →
  Forall (λ item, is_Some (mod_files !! item.1)) items →
  NoDup items.*1 →
  restore_check_states
    (get_checked_mods mod_files mod_user_dirs items user_dir).1 items.*1
  = items.
Proof.
  intros Hdirs Hknown Hnodup.
  rewrite (get_checked_mods_fst mod_files mod_user_dirs items user_dir Hdirs).
  unfold restore_check_states. rewrite <-list_fmap_compose.
  transitivity (id <$> items); [|apply list_fmap_id]. apply list_fmap_ext.
  intros i [text checked] Hi. cbn. f_equal.
  apply list_elem_of_lookup_2 in Hi.
  assert (text ∈ checked_known mod_files items ↔ checked = true) as Hiff.
  { unfold checked_known. rewrite list_elem_of_filter, list_elem_of_fmap. split.
    - intros [_ ([text' checked'] & [= <-] & Hin)].
      apply list_elem_of_filter in Hin as [Hchecked Hin]. cbn in Hchecked.
      by rewrite (NoDup_fst_functional items text checked checked' Hnodup Hi Hin).
    - intros ->. split.
      + rewrite Forall_forall in Hknown. apply (Hknown _ Hi).
      + exists (text, true). split; [done|].
        apply list_elem_of_filter. done. }
  destruct checked.
  - apply bool_decide_eq_true. by apply Hiff.
  - apply bool_decide_eq_false. intros Hin%Hiff. done.
Qed.
End restore_proofs.

Lemma restore_checked_mods_witness :
  restore_check_states
    (get_checked_mods example_mod_files example_user_dirs
       [(py "A", true); (py "B", false); (py "C", true)] (py "old")).1
    [py "A"; py "B"; py "C"]
  = [(py "A", true); (py "B", false); (py "C", true)].
Proof.
  apply (restore_checked_mods example_mod_files example_user_dirs
           [(py "A", true); (py "B", false); (py "C", true)] (py "old")).
  - intros mod_name [rec Hrec].
    assert (map_Forall (λ k _, is_Some (example_user_dirs !! k))
                       example_mod_files) as Hall by by_compute.
    exact (Hall _ _ Hrec).
  - by_compute.
  - by_compute.
Defined.

Section preset_proofs.
Variable mod_files : gmap str mod_record.
Variable mod_user_dirs : gmap str str.

(** X19.  Applying a list of names to the tree, as [loadSettings] and the
    preset manager do, and reading the selection back: when every item of the
    tree is a key of [mod_files] with an entry in [mod_user_dirs],
    [get_checked_mods] returns the items whose text is in the list, in tree
    order; names that are not in the tree are dropped, and neither the order
    of the list nor its repetitions matter. *)
Theorem get_checked_mods_restored (checked_names tree : list str)
    (user_dir : str) :
  (∀ mod_name, is_Some (mod_files !! mod_name) →
               is_Some (mod_user_dirs !! mod_name)) →
  Forall (λ mod_name, is_Some (mod_files !! mod_name)) tree →
  (get_checked_mods mod_files mod_user_dirs
     (restore_check_states checked_names tree) user_dir).1
  = filter (λ mod_name, mod_name ∈ checked_names) tree.
Proof.
  intros Hdirs Hknown. rewrite (get_checked_mods_fst _ _ _ _ Hdirs).
  induction Hknown as [|mod_name tree Hk _ IH]; [done|].
  unfold restore_check_states. cbn [map]. fold (restore_check_states checked_names tree).
  rewrite filter_cons. case_bool_decide as Hin.
  - rewrite decide_True by done.
    by rewrite (checked_known_keep _ _ _ Hk), IH.
  - rewrite decide_False by done.
    rewrite checked_known_skip by by left. done.
Qed.
End preset_proofs.

Lemma get_checked_mods_restored_witness :
  (get_checked_mods example_mod_files example_user_dirs
     (restore_check_states [py "C"; py "Z"; py "A"; py "C"]
                           [py "A"; py "B"; py "C"]) (py "old")).1
  = [py "A"; py "C"].
Proof.
  rewrite (get_checked_mods_restored example_mod_files example_user_dirs).
  - by vm_compute.
  - intros mod_name [rec Hrec].
    assert (map_Forall (λ k _, is_Some (example_user_dirs !! k))
                       example_mod_files) as Hall by by_compute.
    exact (Hall _ _ Hrec).
  - exact example_mods_known.
Defined.

(** ** Reading the merged file back *)

(** *** More on stripping *)

Lemma strip_last (line s : str) (c : char) :
  strip line = s ++ [c] → is_space c = false.
Proof.
  unfold strip, strip_by, rstrip_by. intros H.
  apply (f_equal reverse) in H.
  rewrite reverse_involutive, reverse_snoc in H. by apply lstrip_by_head in H.
Qed.

Lemma strip_fixed (s : str) :
  (∀ c s', s = c :: s' → is_space c = false) →
  (∀ s' c, s = s' ++ [c] → is_space c = false) →
  strip s = s.
Proof.
  intros Hhead Hlast. destruct s as [|c s]; [done|].
  unfold strip, strip_by. cbn [lstrip_by]. rewrite (Hhead c s eq_refl).
  destruct (proj2 (last_is_Some (c :: s))) as [d Hd]; [done|].
  apply last_Some in Hd as [t Ht]. rewrite Ht.
  apply rstrip_by_snoc_keep. by apply (Hlast t d).
Qed.

Lemma strip_idemp (s : str) : strip (strip s) = strip s.
Proof.
  apply strip_fixed.
  - intros c s' H. by apply (strip_head s c s').
  - intros s' c H. by apply (strip_last s s' c).
Qed.

Lemma lstrip_by_elem_of (p : char → bool) (s : str) (c : char) :
  c ∈ lstrip_by p s → c ∈ s.
Proof.
  destruct (lstrip_by_suffix p s) as [h Hh]. intros Hc. rewrite Hh.
  apply elem_of_app. by right.
Qed.

Lemma rstrip_by_elem_of (p : char → bool) (s : str) (c : char) :
  c ∈ rstrip_by p s → c ∈ s.
Proof.
  destruct (rstrip_by_prefix p s) as [t Ht]. intros Hc. rewrite Ht.
  apply elem_of_app. by left.
Qed.

Lemma strip_elem_of (s : str) (c : char) : c ∈ strip s → c ∈ s.
Proof.
  unfold strip, strip_by. intros Hc.
  by apply (lstrip_by_elem_of is_space), (rstrip_by_elem_of is_space).
Qed.

Lemma rstrip_by_app_keep (p : char → bool) (a b : str) (c : char) :
  c ∈ b → p c = false → rstrip_by p (a ++ b) = a ++ rstrip_by p b.
Proof.
  intros Hc Hp. unfold rstrip_by. rewrite reverse_app.
  rewrite lstrip_by_app_nonempty.
  - by rewrite reverse_app, reverse_involutive.
  - intros Hnil. apply lstrip_by_nil in Hnil. rewrite Forall_forall in Hnil.
    specialize (Hnil c). rewrite elem_of_reverse in Hnil.
    rewrite Hnil in Hp; done.
Qed.

Lemma rstrip_by_spaces (p : char → bool) (s : str) :
  ∃ t, s = rstrip_by p s ++ t ∧ Forall (λ c, p c = true) t.
Proof.
  unfold rstrip_by.
  assert (∀ x : str, ∃ h, x = h ++ lstrip_by p x ∧ Forall (λ c, p c = true) h)
    as Haux.
  { induction x as [|c x (h & IH & Hh)]; cbn [lstrip_by].
    - exists []. split; [done|apply List.Forall_nil].
    - destruct (p c) eqn:Hc.
      + exists (c :: h). split; [cbn [app]; by rewrite <-IH|].
        by apply List.Forall_cons.
      + exists []. split; [done|apply List.Forall_nil]. }
  destruct (Haux (reverse s)) as (h & Hh & Hall).
  exists (reverse h). split.
  - rewrite <-reverse_app, <-Hh. by rewrite reverse_involutive.
  - apply Forall_forall. intros c Hc. rewrite Forall_forall in Hall.
    apply Hall. by apply elem_of_reverse.
Qed.

Lemma count_app (c : char) (a b : str) :
  count c (a ++ b) = count c a + count c b.
Proof.
  induction a as [|d a IH]; cbn [count app]; [done|]. rewrite IH. lia.
Qed.

Lemma count_spaces (c : char) (t : str) :
  is_space c = false → Forall (λ d, is_space d = true) t → count c t = 0.
Proof.
  intros Hc Ht. induction Ht as [|d t Hd _ IH]; cbn [count]; [done|].
  rewrite IH. destruct (N.eqb_spec c d) as [->|?]; [congruence|done].
Qed.

Lemma balance_rstrip (s : str) : balance (rstrip_by is_space s) = balance s.
Proof.
  destruct (rstrip_by_spaces is_space s) as (t & Hs & Ht).
  unfold balance. rewrite Hs at 3 4. rewrite !count_app.
  rewrite (count_spaces LBRACE t), (count_spaces RBRACE t) by done. lia.
Qed.

Lemma split_once_fst_free (c : char) (s : str) : c ∉ (split_once c s).1.
Proof.
  induction s as [|d s IH]; cbn [split_once]; [apply not_elem_of_nil|].
  destruct (N.eqb_spec c d) as [->|Hne]; [apply not_elem_of_nil|].
  destruct (split_once c s) as [a b]. cbn [fst] in *.
  apply not_elem_of_cons. done.
Qed.

Lemma split_once_elem_of (c : char) (s : str) (x : char) :
  x ∈ (split_once c s).1 ∨ x ∈ (split_once c s).2 → x ∈ s.
Proof.
  induction s as [|d s IH]; cbn [split_once].
  - intros [?%elem_of_nil|?%elem_of_nil]; done.
  - destruct (c =? d)%N.
    + cbn [fst snd]. intros [?%elem_of_nil|?]; [done|by right].
    + destruct (split_once c s) as [a b]. cbn [fst snd] in *.
      intros [[->|?]%elem_of_cons|?]; [left|right; apply IH; by left
                                      |right; apply IH; by right].
Qed.

Lemma plain_spec (s : str) :
  plain s = true ↔ ∀ c, c ∈ s → is_linebreak c = false.
Proof.
  unfold plain. rewrite forallb_forall. split.
  - intros H c Hc. apply negb_true_iff, H. by apply list_elem_of_In.
  - intros H c Hc. apply negb_true_iff, H. by apply list_elem_of_In.
Qed.

Lemma plain_no_LF (s : str) : plain s = true → LF ∉ s.
Proof. intros Hp Hin. by apply (proj1 (plain_spec s) Hp) in Hin. Qed.

Lemma plain_app (a b : str) : plain (a ++ b) = plain a && plain b.
Proof. apply forallb_app. Qed.

(** *** [splitlines] on lines that end in a line feed *)

Lemma splitlines_line (a rest : str) :
  plain a = true → splitlines (a ++ LF :: rest) = a :: splitlines rest.
Proof.
  induction a as [|c a IH]; intros Hp; cbn [app].
  - cbn [splitlines]. change (is_linebreak LF) with true. cbn match.
    destruct rest as [|d rest]; [done|].
    change (LF =? 13)%N with false. done.
  - cbn [plain forallb] in Hp. apply andb_true_iff in Hp as [Hc Hp].
    apply negb_true_iff in Hc. cbn [splitlines]. rewrite Hc.
    rewrite (IH Hp). by destruct (a ++ LF :: rest) eqn:E; [destruct a|].
Qed.

Lemma splitlines_text (s rest : str) :
  forallb plain (split LF s) = true →
  splitlines (s ++ LF :: rest) = split LF s ++ splitlines rest.
Proof.
  induction s as [a Ha|a text Ha IH] using lines_ind.
  - rewrite split_open by done. cbn [forallb]. rewrite andb_true_r.
    intros Hp. by rewrite splitlines_line.
  - rewrite split_line by done. cbn [forallb].
    intros [Hp Hrest]%andb_true_iff. rewrite <-app_assoc. cbn [app].
    rewrite splitlines_line by done. by rewrite IH.
Qed.

Lemma splitlines_plain (s : str) : forallb plain (splitlines s) = true.
Proof.
  induction s as [|c s IH]; [done|]. cbn [splitlines].
  destruct (is_linebreak c) eqn:Hc.
  - destruct s as [|d s]; [done|].
    destruct ((c =? 13)%N && (d =? 10)%N).
    + destruct (splitlines (d :: s)) as [|line rest]; [done|].
      cbn [forallb] in IH |- *. by apply andb_true_iff in IH as [_ ->].
    + cbn [forallb]. by rewrite IH.
  - destruct s as [|d s].
    + cbn. by rewrite Hc.
    + destruct (splitlines (d :: s)) as [|line rest].
      * cbn. by rewrite Hc.
      * cbn [forallb plain] in IH |- *. rewrite Hc. done.
Qed.

Lemma split_app_free (a s first : str) (rest : list str) :
  LF ∉ a → split LF s = first :: rest →
  split LF (a ++ s) = (a ++ first) :: rest.
Proof.
  intros Ha Hs. induction a as [|c a IH]; cbn [app split]; [done|].
  apply not_elem_of_cons in Ha as [Hc Ha]. apply N.eqb_neq in Hc.
  rewrite Hc. by rewrite IH.
Qed.

Lemma split_unsplit (s first : str) (rest : list str) :
  split LF s = first :: rest → s = first ++ continuation rest.
Proof.
  revert first rest.
  induction s as [a Ha|a text Ha IH] using lines_ind; intros first rest.
  - rewrite split_open by done. intros [= <- <-]. by rewrite app_nil_r.
  - rewrite split_line by done. intros [= <- <-].
    pose proof (split_nonempty LF text) as Hne.
    destruct (split LF text) as [|first' rest'] eqn:Hsplit; [done|].
    rewrite continuation_cons. by rewrite (IH first' rest').
Qed.

Lemma continuation_app (lines lines' : list str) :
  continuation (lines ++ lines') = continuation lines ++ continuation lines'.
Proof. unfold continuation. by rewrite map_app, concat_app. Qed.

Lemma balance_sum_app (lines lines' : list str) :
  balance_sum (lines ++ lines') = balance_sum lines + balance_sum lines'.
Proof.
  induction lines as [|line lines IH]; cbn [app]; [done|].
  rewrite !balance_sum_cons, IH. lia.
Qed.

Lemma split_continuation (first : str) (rest : list str) :
  LF ∉ first → Forall (λ line, LF ∉ line) rest →
  split LF (first ++ continuation rest) = first :: rest.
Proof.
  intros Hfirst Hrest. revert first Hfirst.
  induction Hrest as [|line rest Hline _ IH]; intros first Hfirst.
  - rewrite app_nil_r. by apply split_open.
  - rewrite continuation_cons, split_line by done. by rewrite IH.
Qed.

Lemma block_closes_spec (rest : list str) (depth : Z) :
  block_closes rest depth = true ↔
  (∀ j, (j < length rest)%nat → 0 < depth + balance_sum (take j rest))
  ∧ depth + balance_sum rest ≤ 0.
Proof.
  revert depth. induction rest as [|line rest IH]; intros depth;
    cbn [block_closes].
  - rewrite Z.leb_le. cbn. split; [intros ?; split; [lia|lia]|lia].
  - rewrite andb_true_iff, Z.ltb_lt, IH, balance_sum_cons. cbn [length]. split.
    + intros (Hd & Hpos & Hend). split; [|lia].
      intros [|j] Hj; cbn [take]; [cbn; lia|].
      rewrite balance_sum_cons. specialize (Hpos j ltac:(lia)). lia.
    + intros (Hpos & Hend). split_and!; [|..|lia].
      * specialize (Hpos 0%nat ltac:(lia)). cbn in Hpos. lia.
      * intros j Hj. specialize (Hpos (S j) ltac:(lia)).
        cbn [take] in Hpos. rewrite balance_sum_cons in Hpos. lia.
Qed.

(** *** One entry of the merged file *)

Lemma startswith_nil (s : str) : startswith s [] = true.
Proof. by destruct s. Qed.

Lemma key_ok_spec (key : str) :
  key_ok key = true ↔
  strip key = key ∧ (EQUALS ∉ key) ∧ plain key = true
  ∧ startswith key (py "#") = false.
Proof.
  unfold key_ok, contains.
  rewrite !andb_true_iff, !negb_true_iff, bool_decide_eq_true,
    bool_decide_eq_false.
  tauto.
Qed.

(** A key, the sign ["="] and a trimmed text make a trimmed line. *)
Lemma strip_key_value (key first : str) :
  strip key = key → strip first = first →
  strip (key ++ EQUALS :: first) = key ++ EQUALS :: first.
Proof.
  intros Hkey Hfirst. apply strip_fixed.
  - intros c s' Hs. destruct key as [|d key].
    + by injection Hs as <- _.
    + injection Hs as <- _. by apply (strip_head (d :: key) d key).
  - intros s' c Hs. destruct (decide (first = [])) as [->|Hne].
    + apply (app_inj_tail key s' EQUALS c) in Hs as [_ <-]. done.
    + destruct (proj2 (last_is_Some first) Hne) as [d Hd].
      apply last_Some in Hd as [f' Hf']. rewrite Hf' in Hs.
      change (key ++ EQUALS :: f' ++ [d]) with (key ++ (EQUALS :: f') ++ [d])
        in Hs.
      rewrite app_assoc in Hs. apply app_inj_tail in Hs as [_ <-].
      apply (strip_last first f' d). by rewrite Hfirst.
Qed.

(** The lines of an entry of the merged file are read back as the entry,
    and the parser goes on right after them. *)
Lemma parse_lines_entry (key value first : str) (rest lines : list str) :
  key_ok key = true → closed_value value = true →
  split LF value = first :: rest →
  parse_lines ((key ++ EQUALS :: first) :: rest ++ lines)
  = (key, value) :: parse_lines lines.
Proof.
  intros (Hks & Hke & Hkp & Hkh)%key_ok_spec Hclosed Hsplit.
  unfold closed_value in Hclosed. rewrite Hsplit in Hclosed.
  apply andb_true_iff in Hclosed as [Hvs Hclosed].
  apply andb_true_iff in Hclosed as [Hclosed Hblock].
  apply andb_true_iff in Hclosed as [Hfs Hplain].
  apply bool_decide_eq_true in Hvs, Hfs.
  pose proof (split_unsplit value first rest Hsplit) as Hvalue.
  set (line := key ++ EQUALS :: first).
  assert (strip line = line) as Hline by by apply strip_key_value.
  assert (skipped line = false) as Hskipped.
  { unfold skipped. rewrite Hline.
    rewrite bool_decide_eq_false_2 by (unfold line; by destruct key).
    assert (contains EQUALS line = true) as ->.
    { apply bool_decide_eq_true, elem_of_app. right. left. }
    assert (startswith line (py "#") = false) as ->; [|done].
    unfold line. change (py "#") with [HASH] in *.
    destruct key as [|c key]; [done|]. cbn [app startswith] in Hkh |- *.
    rewrite startswith_nil in *. by rewrite andb_true_r in *. }
  assert (split_once EQUALS line = (key, first)) as Honce
    by by apply split_once_app.
  assert (line_key line = key) as Hlk.
  { unfold line_key. by rewrite Hline, Honce. }
  assert (line_value line = first) as Hlv.
  { unfold line_value. by rewrite Hline, Honce. }
  rewrite parse_lines_cons, Hskipped, Hlk, Hlv.
  destruct (contains LBRACE first).
  - apply block_closes_spec in Hblock as [Hpos Hend].
    rewrite (read_block_spec (rest ++ lines) (length rest)).
    + cbn [Nat.add].
      rewrite take_app_length, drop_app_length, <-Hvalue, Hvs. done.
    + rewrite length_app. lia.
    + intros j Hj. rewrite take_app_le by lia. by apply Hpos.
    + right. by rewrite take_app_length.
  - apply bool_decide_eq_true in Hblock. subst rest.
    rewrite app_nil_r in Hvalue. by rewrite Hvalue.
Qed.

Lemma closed_value_split (value : str) :
  closed_value value = true →
  ∃ first rest, split LF value = first :: rest
                ∧ forallb plain (first :: rest) = true.
Proof.
  unfold closed_value. intros [_ H]%andb_true_iff.
  destruct (split LF value) as [|first rest]; [done|].
  apply andb_true_iff in H as [H _]. apply andb_true_iff in H as [_ H].
  by exists first, rest.
Qed.

(** The parser on a text made of [key=value] lines. *)
Lemma parse_lines_rendered (keys : list str) (value_of : str → str) :
  Forall (λ key, key_ok key = true ∧ closed_value (value_of key) = true) keys →
  parse_lines
    (splitlines
       (concat (map (λ key, key ++ EQUALS :: value_of key ++ [LF]) keys)))
  = map (λ key, (key, value_of key)) keys.
Proof.
  induction 1 as [|key keys [Hkey Hvalue] _ IH]; [done|].
  cbn [map concat].
  destruct (closed_value_split _ Hvalue) as (first & rest & Hsplit & Hplain).
  pose proof Hkey as (_ & _ & Hkp & _)%key_ok_spec.
  assert (split LF (key ++ EQUALS :: value_of key)
          = (key ++ EQUALS :: first) :: rest) as Hlines.
  { change (key ++ EQUALS :: value_of key)
      with (key ++ [EQUALS] ++ value_of key).
    rewrite app_assoc.
    rewrite (split_app_free (key ++ [EQUALS]) _ first rest); [|..|done].
    - by rewrite <-app_assoc.
    - rewrite elem_of_app, list_elem_of_singleton.
      intros [Hin|?]; [|done]. by apply plain_no_LF in Hin. }
  match goal with
  | |- parse_lines (splitlines (?a ++ ?t)) = _ =>
      assert (a ++ t = (key ++ EQUALS :: value_of key) ++ LF :: t) as ->
  end.
  { rewrite <-!app_assoc. cbn [app]. by rewrite <-!app_assoc. }
  rewrite splitlines_text.
  - rewrite Hlines. cbn [app].
    by rewrite (parse_lines_entry key (value_of key) first rest), IH.
  - rewrite Hlines. cbn [forallb] in Hplain |- *.
    apply andb_true_iff in Hplain as [Hfirst ->].
    rewrite plain_app, Hkp. unfold plain in Hfirst |- *.
    cbn [forallb]. by rewrite Hfirst.
Qed.

Lemma parse_lines_merged_text (entries : list (str * str)) :
  Forall (λ kv, key_ok kv.1 = true ∧ closed_value kv.2 = true) entries →
  parse_lines (splitlines (merged_text entries)) = merged_entries entries.
Proof.
  intros Hok. unfold merged_text, merged_entries.
  apply (parse_lines_rendered _ (λ key, default [] (last_value key entries))).
  apply Forall_forall. intros key Hkey.
  apply (proj1 (first_appearance_elem_of key _)) in Hkey.
  rewrite Forall_forall in Hok.
  destruct (proj2 (last_value_is_Some key entries) Hkey) as [value Hvalue].
  rewrite Hvalue. cbn [default].
  unfold last_value in Hvalue.
  destruct (last (filter (λ kv : str * str, kv.1 = key) entries))
    as [[k v]|] eqn:Hlast; [|done].
  injection Hvalue as <-. apply last_Some_elem_of in Hlast.
  apply list_elem_of_filter in Hlast as [Hk Hin]. cbn in Hk. subst k.
  apply (Hok _ Hin).
Qed.

(** *** What the parser gives *)

Lemma line_key_ok (line : str) :
  plain line = true → skipped line = false → key_ok (line_key line) = true.
Proof.
  intros Hplain Hskipped. unfold skipped in Hskipped.
  apply orb_false_iff in Hskipped as [Hskipped Hequals].
  apply orb_false_iff in Hskipped as [Hempty Hhash].
  apply negb_false_iff, bool_decide_eq_true in Hequals.
  unfold line_key. set (s := strip line) in *.
  pose proof (split_once_spec EQUALS s Hequals) as Hs.
  pose proof (split_once_fst_free EQUALS s) as Hfree.
  pose proof (split_once_elem_of EQUALS s) as Hsub.
  destruct (split_once EQUALS s) as [a b]. cbn [fst snd] in *.
  apply key_ok_spec. split_and!.
  - apply strip_idemp.
  - intros Hin. by apply Hfree, strip_elem_of.
  - apply plain_spec. intros c Hc.
    apply (proj1 (plain_spec line) Hplain), strip_elem_of. fold s.
    apply Hsub. left. by apply strip_elem_of.
  - destruct a as [|c a]; [done|].
    assert (is_space c = false) as Hc.
    { apply (strip_head line c (a ++ EQUALS :: b)). exact Hs. }
    unfold strip, strip_by. cbn [lstrip_by]. rewrite Hc.
    rewrite rstrip_by_cons by done.
    rewrite Hs in Hhash. change (py "#") with [HASH] in *.
    cbn [app startswith] in Hhash |- *.
    rewrite startswith_nil in *. by rewrite andb_true_r in *.
Qed.

Lemma line_value_elem_of (line : str) (c : char) :
  c ∈ line_value line → c ∈ line.
Proof.
  unfold line_value. intros Hc%strip_elem_of.
  apply strip_elem_of, (split_once_elem_of EQUALS). by right.
Qed.

Lemma line_value_plain (line : str) :
  plain line = true → plain (line_value line) = true.
Proof.
  intros Hplain. apply plain_spec. intros c Hc.
  by apply (proj1 (plain_spec line) Hplain), line_value_elem_of.
Qed.

Lemma line_value_stripped (line : str) :
  strip (line_value line) = line_value line.
Proof. apply strip_idemp. Qed.

Lemma single_value_closed (line : str) :
  plain line = true → contains LBRACE (line_value line) = false →
  closed_value (line_value line) = true.
Proof.
  intros Hplain Hbrace. unfold closed_value.
  pose proof (line_value_plain line Hplain) as Hp.
  rewrite split_open by by apply plain_no_LF.
  rewrite Hbrace. cbn [forallb]. rewrite Hp.
  by rewrite !bool_decide_eq_true_2 by apply line_value_stripped.
Qed.

Lemma block_value_closed (line : str) (block : list str) :
  plain line = true → forallb plain block = true →
  contains LBRACE (line_value line) = true →
  (∀ j, (j < length block)%nat →
        0 < balance (line_value line) + balance_sum (take j block)) →
  balance (line_value line) + balance_sum block ≤ 0 →
  closed_value (strip (line_value line ++ continuation block)) = true.
Proof.
  intros Hplain Hblock Hbrace Hpos Hend.
  set (first := line_value line) in *.
  pose proof (line_value_plain line Hplain) as Hfp. fold first in Hfp.
  pose proof (line_value_stripped line) as Hfs. fold first in Hfs.
  assert (∃ c first', first = c :: first' ∧ is_space c = false)
    as (c0 & first' & Hfirst & Hc0).
  { destruct first as [|c first'] eqn:E; [done|].
    exists c, first'. split; [done|].
    apply (strip_head first c first'). rewrite E. by rewrite Hfs. }
  assert (∃ block',
            strip (first ++ continuation block) = first ++ continuation block'
            ∧ forallb plain block' = true
            ∧ length block' = length block
            ∧ (∀ j, (j < length block)%nat → take j block' = take j block)
            ∧ balance_sum block' = balance_sum block)
    as (block' & Hstrip & Hplain' & Hlen & Htake & Hsum).
  { destruct block as [|last_ init _] using rev_ind.
    - exists []. cbn. rewrite app_nil_r. by split_and!.
    - exists (init ++ [rstrip_by is_space last_]).
      rewrite forallb_app in Hblock. cbn [forallb] in Hblock.
      apply andb_true_iff in Hblock as [Hinit Hlast].
      rewrite andb_true_r in Hlast.
      assert (balance last_ < 0) as Hneg.
      { specialize (Hpos (length init)). rewrite length_app in Hpos.
        cbn [length] in Hpos. specialize (Hpos ltac:(lia)).
        rewrite take_app_length in Hpos.
        rewrite balance_sum_app in Hend. cbn in Hend. lia. }
      assert (RBRACE ∈ last_) as Hin.
      { assert (contains RBRACE last_ = true) as Hc.
        { apply count_pos_contains. unfold balance in Hneg.
          pose proof (count_nonneg LBRACE last_). lia. }
        unfold contains in Hc. by apply bool_decide_eq_true in Hc. }
      split_and!.
      + assert (lstrip_by is_space first = first) as Hl.
        { rewrite Hfirst. cbn [lstrip_by]. by rewrite Hc0. }
        unfold strip, strip_by.
        rewrite lstrip_by_app_nonempty by (rewrite Hl, Hfirst; done).
        rewrite Hl, !continuation_app.
        change (continuation [last_]) with (LF :: last_ ++ []).
        change (continuation [rstrip_by is_space last_])
          with (LF :: rstrip_by is_space last_ ++ []).
        rewrite !app_nil_r.
        rewrite (cons_middle LF (continuation init) last_), !app_assoc.
        rewrite (rstrip_by_app_keep is_space _ last_ RBRACE Hin) by done.
        by rewrite <-!app_assoc.
      + rewrite forallb_app. cbn [forallb]. rewrite Hinit, andb_true_r.
        apply plain_spec. intros c Hc%rstrip_by_elem_of.
        by apply (proj1 (plain_spec last_) Hlast).
      + by rewrite !length_app.
      + intros j Hj. rewrite length_app in Hj. cbn [length] in Hj.
        by rewrite !take_app_le by lia.
      + rewrite !balance_sum_app. cbn. by rewrite balance_rstrip. }
  unfold closed_value.
  rewrite bool_decide_eq_true_2 by apply strip_idemp.
  rewrite Hstrip, split_continuation; last first.
  { apply Forall_forall. intros l Hl. apply plain_no_LF.
    rewrite forallb_forall in Hplain'. by apply Hplain', list_elem_of_In. }
  { by apply plain_no_LF. }
  rewrite bool_decide_eq_true_2 by done. cbn [forallb].
  rewrite Hfp, Hplain', Hbrace. cbn [andb].
  apply block_closes_spec. rewrite Hlen, Hsum. split; [|done].
  intros j Hj. rewrite Htake by done. by apply Hpos.
Qed.

Lemma forallb_drop {A : Type} (f : A → bool) (n : nat) (l : list A) :
  forallb f l = true → forallb f (drop n l) = true.
Proof.
  rewrite !forallb_forall. intros H x Hx. apply H.
  apply list_elem_of_In. apply list_elem_of_In in Hx.
  by apply (subseteq_drop n l).
Qed.

Lemma forallb_take {A : Type} (f : A → bool) (n : nat) (l : list A) :
  forallb f l = true → forallb f (take n l) = true.
Proof.
  rewrite !forallb_forall. intros H x Hx. apply H.
  apply list_elem_of_In. apply list_elem_of_In in Hx.
  by apply (subseteq_take n l).
Qed.

(** Every key the parser gives is well formed, and every value but the last
    one is closed. *)
Lemma parse_lines_well_formed (lines : list str) :
  forallb plain lines = true →
  Forall (λ kv, key_ok kv.1 = true) (parse_lines lines)
  ∧ Forall (λ kv, closed_value kv.2 = true) (removelast (parse_lines lines)).
Proof.
  remember (length lines) as n eqn:Hn. revert lines Hn.
  induction n as [n IH] using lt_wf_ind. intros lines -> Hplain.
  destruct lines as [|line rest]; [by split|].
  cbn [forallb] in Hplain. apply andb_true_iff in Hplain as [Hline Hrest].
  rewrite parse_lines_cons.
  destruct (skipped line) eqn:Hskipped.
  { apply (IH (length rest)); [cbn; lia|done..]. }
  pose proof (line_key_ok line Hline Hskipped) as Hkey.
  destruct (contains LBRACE (line_value line)) eqn:Hbrace.
  - destruct (read_block_consumes rest 0 (line_value line)
                (balance (line_value line))) as (k & Hk & Hpos & Hend & ->).
    cbn [Nat.add].
    destruct (IH (length (drop k rest))) with (lines := drop k rest)
      as [IHk IHc]; [rewrite length_drop; cbn; lia|done|by apply forallb_drop|].
    split; [by apply List.Forall_cons|].
    destruct (parse_lines (drop k rest)) as [|kv tail] eqn:Htail;
      [apply List.Forall_nil|].
    change (removelast (?x :: kv :: tail)) with (x :: removelast (kv :: tail)).
    apply List.Forall_cons; [|done]. cbn [snd].
    destruct Hend as [->|Hend].
    { by rewrite drop_all in Htail. }
    apply block_value_closed; [done|by apply forallb_take|done| |done].
    intros j Hj. rewrite length_take in Hj.
    rewrite take_take. replace (j `min` k)%nat with j by lia.
    apply Hpos. lia.
  - destruct (IH (length rest)) with (lines := rest) as [IHk IHc];
      [cbn; lia|done..|].
    split; [by apply List.Forall_cons|].
    destruct (parse_lines rest) as [|kv tail]; [apply List.Forall_nil|].
    change (removelast (?x :: kv :: tail)) with (x :: removelast (kv :: tail)).
    apply List.Forall_cons; [|done]. by apply single_value_closed.
Qed.

Lemma strip_spaces (s : str) :
  ∃ h t, s = h ++ strip s ++ t
         ∧ Forall (λ c, is_space c = true) h
         ∧ Forall (λ c, is_space c = true) t.
Proof.
  assert (∃ h, s = h ++ lstrip_by is_space s
               ∧ Forall (λ c, is_space c = true) h) as (h & Hh & Hall).
  { induction s as [|c s (h & IH & Hh)]; cbn [lstrip_by].
    - exists []. split; [done|apply List.Forall_nil].
    - destruct (is_space c) eqn:Hc.
      + exists (c :: h). split; [cbn [app]; by rewrite <-IH|].
        by apply List.Forall_cons.
      + exists []. split; [done|apply List.Forall_nil]. }
  destruct (rstrip_by_spaces is_space (lstrip_by is_space s))
    as (t & Ht & Hall').
  exists h, t. split_and!; [|done..].
  unfold strip, strip_by. by rewrite <-Ht.
Qed.

Lemma balance_app (a b : str) : balance (a ++ b) = balance a + balance b.
Proof. unfold balance. rewrite !count_app. lia. Qed.

Lemma balance_spaces (t : str) :
  Forall (λ c, is_space c = true) t → balance t = 0.
Proof.
  intros Ht. unfold balance.
  by rewrite (count_spaces LBRACE t), (count_spaces RBRACE t).
Qed.

Lemma balance_strip (s : str) : balance (strip s) = balance s.
Proof.
  destruct (strip_spaces s) as (h & t & Hs & Hh & Ht).
  rewrite Hs at 2. rewrite !balance_app.
  rewrite (balance_spaces h), (balance_spaces t) by done. lia.
Qed.

Lemma balance_continuation (block : list str) :
  balance (continuation block) = balance_sum block.
Proof.
  induction block as [|line block IH]; [done|].
  rewrite continuation_cons, balance_sum_cons.
  change (LF :: line ++ continuation block)
    with ([LF] ++ line ++ continuation block).
  rewrite !balance_app, IH. done.
Qed.

(** A value that the parser gives is closed, unless the text ended inside
    its block, which leaves more opening than closing braces in it. *)
Lemma parse_lines_values (lines : list str) :
  forallb plain lines = true →
  Forall (λ kv, closed_value kv.2 = true ∨ 0 < balance kv.2)
         (parse_lines lines).
Proof.
  remember (length lines) as n eqn:Hn. revert lines Hn.
  induction n as [n IH] using lt_wf_ind. intros lines -> Hplain.
  destruct lines as [|line rest]; [apply List.Forall_nil|].
  cbn [forallb] in Hplain. apply andb_true_iff in Hplain as [Hline Hrest].
  rewrite parse_lines_cons.
  destruct (skipped line) eqn:Hskipped.
  { apply (IH (length rest)); [cbn; lia|done..]. }
  destruct (contains LBRACE (line_value line)) eqn:Hbrace.
  - destruct (read_block_consumes rest 0 (line_value line)
                (balance (line_value line))) as (k & Hk & Hpos & Hend & ->).
    cbn [Nat.add]. apply List.Forall_cons.
    + cbn [snd].
      destruct (decide (balance (line_value line)
                        + balance_sum (take k rest) ≤ 0)) as [Hle|Hgt].
      * left. apply block_value_closed;
          [done|by apply forallb_take|done| |done].
        intros j Hj. rewrite length_take in Hj.
        rewrite take_take. replace (j `min` k)%nat with j by lia.
        apply Hpos. lia.
      * right. rewrite balance_strip, balance_app, balance_continuation. lia.
    + apply (IH (length (drop k rest)));
        [rewrite length_drop; cbn; lia|done|by apply forallb_drop].
  - apply List.Forall_cons.
    + left. by apply single_value_closed.
    + apply (IH (length rest)); [cbn; lia|done..].
Qed.

(** X20.  The merged file reads back as what was merged: when the keys and
    values of the entries are as the parser gives them, every block being
    closed, [_parse_event_modifiers_content] on the text of the merged file
    returns each distinct key once, in the order of the file, with the value
    that won. *)
Theorem parse_merged_text (entries : list (str * str)) :
  Forall (λ kv, key_ok kv.1 = true ∧ closed_value kv.2 = true) entries →
  _parse_event_modifiers_content (merged_text entries)
  = Return (merged_entries entries).
Proof.
  intros Hok. rewrite parse_event_modifiers_total.
  by rewrite parse_lines_merged_text.
Qed.

Lemma parse_merged_text_witness :
  _parse_event_modifiers_content (merged_text example_entries)
  = Return [(py "tax", py "{ rate = 2 }"); (py "trade", py "5")].
Proof.
  rewrite (parse_merged_text example_entries); [by vm_compute|].
  by_compute.
Defined.

(** X21.  What [_parse_event_modifiers_content] returns is well formed:
    every key is trimmed, on one line, without ["="] and not the start of a
    comment; every value is closed, that is, read back as it is from a file
    where other entries follow, except a value whose block was still open at
    the end of the text, which can only be the last one and then holds more
    opening than closing braces. *)
Theorem parse_event_modifiers_well_formed (content : str) :
  ∃ pairs,
    _parse_event_modifiers_content content = Return pairs
    ∧ Forall (λ kv, key_ok kv.1 = true) pairs
    ∧ Forall (λ kv, closed_value kv.2 = true) (removelast pairs)
    ∧ Forall (λ kv, closed_value kv.2 = true ∨ 0 < balance kv.2) pairs.
Proof.
  rewrite parse_event_modifiers_total. eexists. split; [done|].
  pose proof (splitlines_plain content) as Hplain.
  destruct (parse_lines_well_formed _ Hplain) as [Hkeys Hclosed].
  split_and!; [done..|]. by apply parse_lines_values.
Qed.

Section merge_parse_proofs.
Variable mod_files : gmap str mod_record.
Variable os_path_join : list str → str.
Variable read_text : str → option str.
Variable mod_folder : str.

(** X22.  Merging, then parsing the merged file: when no conflict-file of
    the mods ends inside an open block, so that every value is closed, the
    text that [_merge_event_modifiers_from_paths] returns is parsed by
    [_parse_event_modifiers_content] into the merged entries: each distinct
    key of the mods once, in order of first appearance, with the value of
    the last mod that sets it. *)
Theorem merge_then_parse (ordered_mod_names : list str) :
  Forall (λ mod_name, is_Some (mod_files !! mod_name)) ordered_mod_names →
  Forall (λ kv, closed_value kv.2 = true)
         (all_entries mod_files os_path_join read_text mod_folder
            ordered_mod_names) →
  ∃ text,
    _merge_event_modifiers_from_paths mod_files os_path_join read_text
      mod_folder ordered_mod_names = Return text
    ∧ _parse_event_modifiers_content text
      = Return (merged_entries
                  (all_entries mod_files os_path_join read_text mod_folder
                     ordered_mod_names)).
Proof.
  intros Hknown Hclosed. eexists. split; [by apply merge_spec|].
  rewrite parse_event_modifiers_total, parse_lines_merged_text; [done|].
  assert (Forall (λ kv : str * str, key_ok kv.1 = true)
            (all_entries mod_files os_path_join read_text mod_folder
               ordered_mod_names)) as Hkeys.
  { unfold all_entries. apply Forall_concat, Forall_fmap, Forall_forall.
    intros mod_name _. unfold compose, mod_entries.
    destruct (mod_content _ _ _ _ mod_name) as [content|];
      [|apply List.Forall_nil].
    apply parse_lines_well_formed, splitlines_plain. }
  rewrite Forall_forall in Hkeys, Hclosed. apply Forall_forall.
  intros kv Hkv. split; [by apply Hkeys|by apply Hclosed].
Qed.
End merge_parse_proofs.

Lemma merge_then_parse_witness :
  ∃ text,
    _merge_event_modifiers_from_paths example_mod_files example_join
      example_read (py "mod") [py "A"; py "B"; py "C"] = Return text
    ∧ _parse_event_modifiers_content text
      = Return [(py "tax", py "10"); (py "trade", py "7");
                (py "bonus", py "1")].
Proof.
  destruct (merge_then_parse example_mod_files example_join example_read
              (py "mod") [py "A"; py "B"; py "C"] example_mods_known)
    as (text & Hmerge & Hparse); [by_compute|].
  exists text. split; [exact Hmerge|]. rewrite Hparse. by vm_compute.
Defined.

(** ** Is there a new release? *)

(** X23.  The release test of [check_for_updates] in closed form: without
    publication time there is no new release; with a local version, the
    release is new exactly when its tag is not empty and differs from the
    version, whatever the times; without a local version, exactly when the
    release is younger than the manifest, whatever the tag.  The [elif]
    branch never decides. *)
Theorem has_new_release_spec (latest_release_tag version : option str)
    (latest_release_date : option Z) (mod_last_modified_date : Z) :
  has_new_release latest_release_tag version latest_release_date
    mod_last_modified_date
  = match latest_release_date with
    | Some date =>
        if truthy version
        then truthy latest_release_tag
             && bool_decide (latest_release_tag ≠ version)
        else mod_last_modified_date <? date
    | None => false
    end.
Proof.
  unfold has_new_release. destruct latest_release_date as [date|]; [|done].
  destruct (truthy version), (truthy latest_release_tag),
    (bool_decide (latest_release_tag ≠ version)),
    (mod_last_modified_date <? date); done.
Qed.

(** X24.  A release that was installed is not offered again: once
    [_update_mod_version_field] has written the tag of the release into the
    manifest and [load_mods] has read the manifest back, the release test
    fails for the same tag, whatever the times. *)
Theorem installed_release_not_new (text latest_tag : str)
    (latest_release_date : option Z) (mod_last_modified_date : Z) :
  latest_tag ≠ [] → LF ∉ latest_tag →
  ∃ written,
    _update_mod_version_field (Some text) latest_tag = Some written
    ∧ has_new_release (Some latest_tag)
        (or_None (version (parse_manifest written)))
        latest_release_date mod_last_modified_date = false.
Proof.
  intros Hne Hno. eexists. split; [done|].
  rewrite (parse_manifest_written text latest_tag _ Hno eq_refl).
  cbn [set_version version]. unfold has_new_release, or_None.
  rewrite bool_decide_eq_true_2 by done.
  destruct latest_release_date as [date|]; [|done].
  cbn [truthy]. rewrite bool_decide_eq_true_2 by done.
  rewrite (bool_decide_eq_false_2 (Some latest_tag ≠ Some latest_tag))
    by (intros H; by apply H).
  done.
Qed.

Lemma installed_release_not_new_witness :
  ∃ written,
    _update_mod_version_field (Some example_manifest) (py "v1.2")
    = Some written
    ∧ has_new_release (Some (py "v1.2"))
        (or_None (version (parse_manifest written))) (Some 200) 100 = false.
Proof.
  apply (installed_release_not_new example_manifest (py "v1.2") (Some 200) 100).
  - by_compute.
  - by_compute.
Defined.

(** ** The settings file of the game *)

Lemma replace_first_length (key value : str) (lines : list str) :
  length (replace_first key value lines) = length lines.
Proof.
  induction lines as [|line lines IH]; cbn [replace_first]; [done|].
  destruct (startswith line key); cbn [length]; by rewrite ?IH.
Qed.

Lemma replace_first_lookup (key value : str) (lines : list str) (i : nat)
    (line : str) :
  lines !! i = Some line → startswith line key = false →
  replace_first key value lines !! i = Some line.
Proof.
  revert i. induction lines as [|l lines IH]; intros i; [done|].
  cbn [replace_first]. destruct i as [|i]; cbn [lookup list_lookup].
  - intros [= ->] Hline. by rewrite Hline.
  - intros Hi Hline. destruct (startswith l key); [done|].
    cbn [lookup list_lookup]. by apply IH.
Qed.

(** X25.  The loop of [ConfigDialog.save_settings] never adds or removes a
    line, and never changes a line that starts with none of the keys: the
    test is made on the line as it is, indentation included. *)
Theorem replace_settings_keeps (updated_settings : list (str * str))
    (lines : list str) :
  length (replace_settings updated_settings lines) = length lines
  ∧ ∀ i line,
      lines !! i = Some line →
      Forall (λ kv, startswith line kv.1 = false) updated_settings →
      replace_settings updated_settings lines !! i = Some line.
Proof.
  unfold replace_settings. revert lines.
  induction updated_settings as [|[key value] updated IH]; intros lines;
    cbn [foldl fst snd]; [done|].
  destruct (IH (replace_first key value lines)) as [IHlen IHkeep]. split.
  - by rewrite IHlen, replace_first_length.
  - intros i line Hi Hall. inversion Hall as [|? ? Hkey Hrest]; subst.
    apply IHkeep; [|done]. by apply replace_first_lookup.
Qed.

Lemma replace_first_none (key value : str) (lines : list str) :
  Forall (λ line, startswith line key = false) lines →
  replace_first key value lines = lines.
Proof.
  induction 1 as [|line lines Hline _ IH]; cbn [replace_first]; [done|].
  by rewrite Hline, IH.
Qed.

Lemma replace_settings_none (updated_settings : list (str * str))
    (lines : list str) :
  Forall (λ kv, Forall (λ line, startswith line kv.1 = false) lines)
         updated_settings →
  replace_settings updated_settings lines = lines.
Proof.
  unfold replace_settings.
  induction 1 as [|[key value] updated Hkey _ IH]; cbn [foldl fst snd];
    [done|].
  by rewrite replace_first_none.
Qed.

(** X26.  On the settings file that [create_default_settings] writes, the
    loop of [ConfigDialog.save_settings] changes nothing, whatever the values
    of the dialog: every key of the dialog is set on a line of that file, but
    each of these lines is indented, and the loop looks for the key at the
    very start of a line. *)
Theorem save_settings_keeps_default (values : list str) :
  replace_settings (zip dialog_keys values) (readlines default_settings)
  = readlines default_settings
  ∧ Forall (λ key,
              Exists (λ line, startswith (strip line) (key ++ [EQUALS]) = true)
                     (readlines default_settings))
           dialog_keys.
Proof.
  split; [|by_compute].
  apply replace_settings_none.
  assert (Forall (λ key, Forall (λ line, startswith line key = false)
                                (readlines default_settings)) dialog_keys)
    as Hkeys by by_compute.
  apply Forall_forall. intros [key value] Hkv. cbn [fst].
  rewrite Forall_forall in Hkeys. apply Hkeys.
  apply (elem_of_zip_l _ _ _ _ Hkv).
Qed.

(** ** The merge mod [z_launcher] *)

Section z_launcher_proofs.
Variable os_path_join : list str → str.
Variable read_text : str → option str.
Variable mod_folder : str.

(** X27.  The manifest that [_ensure_z_launcher_setup] writes fits the rest
    of the launcher: when [load_mods] reads it, and no later file bears the
    same name, the mod [z_launcher] is recorded with the file
    [z_launcher.mod], which is the file that [start_game] names for it, and
    with the folder [z_launcher], so that its conflict-file is the file into
    which [start_game] writes the merged text. *)
Theorem z_launcher_manifest_fits (listing1 listing2 : list str) :
  read_text (os_path_join [mod_folder; z_launcher_mod_file])
  = Some z_launcher_manifest →
  Forall (λ file,
            name <$> loaded_manifest os_path_join read_text mod_folder file
            ≠ Some Z_LAUNCHER_NAME) listing2 →
  let self := load_mods_scan os_path_join read_text mod_folder
                (listing1 ++ z_launcher_mod_file :: listing2) in
  ∃ rec,
    self_mod_files self !! Z_LAUNCHER_NAME = Some rec
    ∧ py "-mod=mod/" ++ mf_file rec
      = mod_file_arg_text (self_mod_files self) Z_LAUNCHER_NAME
    ∧ event_modifiers_path os_path_join mod_folder (mf_folder rec)
      = os_path_join [mod_folder; Z_LAUNCHER_NAME; py "common";
                      EVENT_MODIFIERS_FILE]
    ∧ self_mod_user_dirs self !! Z_LAUNCHER_NAME = Some (py "z_launcher").
Proof.
  intros Hread Hlater self.
  set (m := Manifest (py "z_launcher") [] (py "z_launcher") [] []
                     (py "mod/z_launcher")).
  assert (loaded_manifest os_path_join read_text mod_folder z_launcher_mod_file
          = Some m) as Hloaded.
  { unfold loaded_manifest.
    assert (endswith z_launcher_mod_file (py ".mod") = true) as ->
      by by vm_compute.
    rewrite Hread. cbn [mbind option_bind].
    assert (parse_manifest z_launcher_manifest = m) as -> by by vm_compute.
    by rewrite bool_decide_eq_true_2. }
  destruct (load_mods_scan_lookup os_path_join read_text mod_folder
              (listing1 ++ z_launcher_mod_file :: listing2) Z_LAUNCHER_NAME)
    as (Hf & _ & Hu).
  pose proof (last_manifest_found os_path_join read_text mod_folder listing1
                z_launcher_mod_file listing2 m Hloaded Hlater) as Hlast.
  change (name m) with Z_LAUNCHER_NAME in Hlast. rewrite Hlast in Hf, Hu.
  fold self in Hf, Hu. eexists. split_and!; [exact Hf|done|done|exact Hu].
Qed.
End z_launcher_proofs.

Lemma z_launcher_manifest_fits_witness :
  ∃ rec,
    self_mod_files
      (load_mods_scan example_join
         (λ path, if bool_decide (path = py "mod/z_launcher.mod")
                  then Some z_launcher_manifest else example_manifests path)
         (py "mod") (example_listing ++ z_launcher_mod_file :: []))
      !! Z_LAUNCHER_NAME = Some rec
    ∧ mf_folder rec = py "z_launcher".
Proof.
  destruct (z_launcher_manifest_fits example_join
              (λ path, if bool_decide (path = py "mod/z_launcher.mod")
                       then Some z_launcher_manifest
                       else example_manifests path)
              (py "mod") example_listing [])
    as (rec & Hrec & _ & Hpath & _).
  - by vm_compute.
  - apply List.Forall_nil.
  - exists rec. split; [exact Hrec|].
    vm_compute in Hrec. injection Hrec as <-. by vm_compute.
Defined.

Section hidden_proofs.
Variable mod_files : gmap str mod_record.
Variable mod_user_dirs : gmap str str.

End hidden_proofs.

